(** * Critical path, traversal and centrality over a task graph

    A shallow embedding of [Dijkstras_algorithm_python.py].  The script
    builds a [networkx.DiGraph] of manufacturing tasks and runs three
    analyses on it: [find_critical_path] (a copy of the graph with negated
    durations as edge weights, handed to [nx.dijkstra_path]), [perform_bfs]
    ([nx.bfs_edges]) and [analyze_centrality] ([nx.betweenness_centrality]).

    The graph object is modelled the way networkx stores it: an ordered node
    table [_node] and an ordered successor table [_adj] (Python dictionaries
    keep insertion order, so both are association lists), whose entries
    refer to attribute dictionaries.  Attribute dictionaries are mutable and
    may be shared, so they live in an explicit store and are addressed by
    location.  The library routines called by the script are transcribed
    statement by statement from networkx. *)

From Stdlib Require Import ZArith QArith Qcanon.
From Stdlib Require SpecFloat.
From stdpp Require Import gmap strings list fin_maps.

Local Open Scope string_scope.
Local Open Scope list_scope.
Local Open Scope Z_scope.

Local Abbreviation length := Datatypes.length.

(** ** Exceptions and the store monad *)

(** The exceptions the modelled code can raise. *)
Inductive exn : Type :=
| NodeNotFound      (* nx.NodeNotFound: a source is not in the graph *)
| NetworkXNoPath    (* nx.NetworkXNoPath: the target was never reached *)
| ValueError        (* "Contradictory paths found: negative weights?" *)
| KeyError          (* a dictionary lookup on a missing key *)
| NetworkXError     (* G.neighbors on a node that is not in the graph *)
| ZeroDivisionError.

(** Outcome of a computation; [OutOfFuel] marks a loop cut off by its
    iteration budget and is shown never to occur for the budgets used. *)
Inductive res (A : Type) : Type :=
| Ok (a : A)
| Raise (e : exn)
| OutOfFuel.
Arguments Ok {A} a.
Arguments Raise {A} e.
Arguments OutOfFuel {A}.

Abbreviation node := string.
Abbreviation loc := nat.
(** An attribute dictionary: string keys, integer values. *)
Abbreviation dict := (gmap string Z).
(** The store of attribute dictionaries; a location is an index. *)
Abbreviation store := (list dict).

Definition M (A : Type) : Type := store -> res A * store.

Definition ret {A} (a : A) : M A := fun h => (Ok a, h).
Definition raise {A} (e : exn) : M A := fun h => (Raise e, h).
Definition bind {A B} (m : M A) (k : A -> M B) : M B :=
  fun h => match m h with
           | (Ok a, h') => k a h'
           | (Raise e, h') => (Raise e, h')
           | (OutOfFuel, h') => (OutOfFuel, h')
           end.

Notation "x <- m ;; k" := (bind m (fun x => k))
  (at level 100, m at next level, right associativity).
Notation "m ;;; k" := (bind m (fun _ => k))
  (at level 100, right associativity).

(** [{}] / [d.copy()]: a new dictionary object with the given contents. *)
Definition alloc (d : dict) : M loc := fun h => (Ok (length h), h ++ [d]).

(** The dictionary behind a handle.  A handle outside the store reads as the
    empty dictionary; the graph constructors never produce one. *)
Definition dict_at (h : store) (l : loc) : dict := default ∅ (h !! l).

Definition read (l : loc) : M dict := fun h => (Ok (dict_at h l), h).

(** [d[k] = v] on the dictionary object at [l]. *)
Definition setitem (l : loc) (k : string) (v : Z) : M unit :=
  fun h => (Ok tt, <[l := <[k := v]> (dict_at h l)]> h).

(** [d.update(attr)] on the dictionary object at [l]; [attr] wins. *)
Definition update (l : loc) (attr : dict) : M unit :=
  fun h => (Ok tt, <[l := attr ∪ dict_at h l]> h).

(** [d[k]], raising [KeyError] when the key is missing. *)
Definition getitem (l : loc) (k : string) : M Z :=
  fun h => match dict_at h l !! k with
           | Some v => (Ok v, h)
           | None => (Raise KeyError, h)
           end.

(** ** Insertion-ordered dictionaries keyed by node *)

Fixpoint assoc {V} (k : node) (l : list (node * V)) : option V :=
  match l with
  | [] => None
  | (k', v) :: l' => if String.eqb k k' then Some v else assoc k l'
  end.

(** [d[k] = v]: overwrite in place, or append a new key at the end. *)
Fixpoint assoc_set {V} (k : node) (v : V) (l : list (node * V))
  : list (node * V) :=
  match l with
  | [] => [(k, v)]
  | (k', v') :: l' =>
      if String.eqb k k' then (k, v) :: l' else (k', v') :: assoc_set k v l'
  end.

(** ** The graph object *)

(** [nx.DiGraph]: [_node] maps a node to its attribute dictionary, [_adj]
    (the same object as [_succ]) maps a node to its successors and, for each
    successor, the edge's data dictionary.  [_pred] mirrors [_adj] and is
    read by none of the routines below, so it is left out. *)
Record DiGraph : Type := mkDiGraph {
  _node : list (node * loc);
  _adj : list (node * list (node * loc))
}.

Definition empty_graph : DiGraph := mkDiGraph [] [].

(** [n in G] *)
Definition contains (G : DiGraph) (n : node) : bool :=
  bool_decide (is_Some (assoc n (_node G))).

(** [len(G)] *)
Definition len (G : DiGraph) : nat := length (_node G).

(** [G.edges(data=True)]: every [(u, v, data)] in table order. *)
Definition edges (G : DiGraph) : list (node * node * loc) :=
  flat_map (fun '(u, nbrs) => map (fun '(v, e) => (u, v, e)) nbrs) (_adj G).

(** The node names and the edges as pairs of names. *)
Definition node_names (G : DiGraph) : list node := (_node G).*1.
Definition edge_pairs (G : DiGraph) : list (node * node) := (edges G).*1.

(** [G.nodes[n][k]] *)
Definition node_attr (G : DiGraph) (n : node) (k : string) : M Z :=
  match assoc n (_node G) with
  | Some l => getitem l k
  | None => raise KeyError
  end.

(** ** Building the graph (script lines 21-84) *)

(** The part of [add_node] and [add_edges_from] that creates a missing node
    with a fresh, empty attribute dictionary. *)
Definition ensure_node (G : DiGraph) (n : node) : M DiGraph :=
  match assoc n (_adj G) with
  | Some _ => ret G
  | None =>
      l <- alloc ∅ ;;
      ret (mkDiGraph (assoc_set n l (_node G)) (assoc_set n [] (_adj G)))
  end.

(** [G.add_node(n, **attr)] *)
Definition add_node (G : DiGraph) (n : node) (attr : dict) : M DiGraph :=
  G' <- ensure_node G n ;;
  match assoc n (_node G') with
  | Some l => update l attr ;;; ret G'
  | None => raise KeyError
  end.

(** One step of [G.add_edges_from] for an edge [(u, v, dd)]; a 2-tuple
    [(u, v)] is the case [dd = {}].  The edge's data dictionary is the one
    already stored for [(u, v)], or else a new empty one, updated with [dd]. *)
Definition add_edge (G : DiGraph) (u v : node) (dd : dict) : M DiGraph :=
  G1 <- ensure_node G u ;;
  G2 <- ensure_node G1 v ;;
  match assoc u (_adj G2) with
  | None => raise KeyError
  | Some nbrs =>
      datadict <- match assoc v nbrs with
                  | Some e => ret e
                  | None => alloc ∅
                  end ;;
      update datadict dd ;;;
      ret (mkDiGraph (_node G2)
             (assoc_set u (assoc_set v datadict nbrs) (_adj G2)))
  end.

Fixpoint add_nodes (G : DiGraph) (ts : list (node * Z)) : M DiGraph :=
  match ts with
  | [] => ret G
  | (task, duration) :: ts' =>
      G' <- add_node G task {[ "duration" := duration ]} ;;
      add_nodes G' ts'
  end.

Fixpoint add_edges_from (G : DiGraph) (es : list (node * node)) : M DiGraph :=
  match es with
  | [] => ret G
  | (u, v) :: es' => G' <- add_edge G u v ∅ ;; add_edges_from G' es'
  end.

(** The script's construction: all tasks first, then all edges. *)
Definition build (ts : list (node * Z)) (es : list (node * node)) : M DiGraph :=
  G <- add_nodes empty_graph ts ;;
  add_edges_from G es.

Definition tasks : list (node * Z) :=
  [ ("Start", 0);
    ("Create Work Order", 2);
    ("Process Rubber Blending", 10);
    ("Mill Rubber", 8);
    ("Calendar Rubber Sheets", 14);
    ("Sandblast Parts", 10);
    ("Wash Parts for Chemical Treatment", 2);
    ("Chemical Treatment Group 1", 6);
    ("Chemical Treatment Group 2", 10);
    ("Chemical Treatment Group 3", 4);
    ("Spray Treatment", 8);
    ("Assemble Components for Injection Molding", 8);
    ("Clean Outer & Inner Members", 4);
    ("Special Adhesive Treatment", 12);
    ("Special Sandblast", 6);
    ("Wash Parts OM & IM", 2);
    ("Injection Molding Operation", 18);
    ("Bond Testing", 6);
    ("Paint & Finishing", 14);
    ("Final Inspection", 6);
    ("Packaging", 6);
    ("Shipping", 2);
    ("End", 0) ].

Definition task_edges : list (node * node) :=
  [ ("Start", "Create Work Order");
    ("Create Work Order", "Process Rubber Blending");
    ("Create Work Order", "Sandblast Parts");
    ("Create Work Order", "Clean Outer & Inner Members");
    ("Process Rubber Blending", "Mill Rubber");
    ("Mill Rubber", "Calendar Rubber Sheets");
    ("Calendar Rubber Sheets", "Assemble Components for Injection Molding");
    ("Sandblast Parts", "Wash Parts for Chemical Treatment");
    ("Wash Parts for Chemical Treatment", "Chemical Treatment Group 1");
    ("Wash Parts for Chemical Treatment", "Chemical Treatment Group 2");
    ("Wash Parts for Chemical Treatment", "Chemical Treatment Group 3");
    ("Chemical Treatment Group 1", "Spray Treatment");
    ("Chemical Treatment Group 2", "Spray Treatment");
    ("Chemical Treatment Group 3", "Spray Treatment");
    ("Spray Treatment", "Assemble Components for Injection Molding");
    ("Clean Outer & Inner Members", "Special Adhesive Treatment");
    ("Special Adhesive Treatment", "Special Sandblast");
    ("Special Sandblast", "Wash Parts OM & IM");
    ("Wash Parts OM & IM", "Assemble Components for Injection Molding");
    ("Assemble Components for Injection Molding", "Injection Molding Operation");
    ("Injection Molding Operation", "Bond Testing");
    ("Bond Testing", "Paint & Finishing");
    ("Paint & Finishing", "Final Inspection");
    ("Final Inspection", "Packaging");
    ("Packaging", "Shipping");
    ("Shipping", "End") ].

(** ** [G.copy()] *)

(** [G.add_nodes_from((n, d.copy()) for n, d in self._node.items())] on the
    new graph: each node gets a new attribute dictionary, updated with the
    contents of the original one. *)
Fixpoint copy_nodes (G' : DiGraph) (ns : list (node * loc)) : M DiGraph :=
  match ns with
  | [] => ret G'
  | (n, l) :: ns' =>
      d <- read l ;;
      G'' <- add_node G' n d ;;
      copy_nodes G'' ns'
  end.

(** [G.add_edges_from((u, v, datadict.copy()) for u, nbrs in
    self._adj.items() for v, datadict in nbrs.items())] on the new graph. *)
Fixpoint copy_edges (G' : DiGraph) (es : list (node * node * loc))
  : M DiGraph :=
  match es with
  | [] => ret G'
  | (u, v, l) :: es' =>
      dd <- read l ;;
      G'' <- add_edge G' u v dd ;;
      copy_edges G'' es'
  end.

Definition copy (G : DiGraph) : M DiGraph :=
  G1 <- copy_nodes empty_graph (_node G) ;;
  copy_edges G1 (edges G).

(** ** [find_critical_path], lines 87-90: the negated weights *)

(** [for u, v, data in G_neg.edges(data=True):
       data['weight'] = -G.nodes[u]['duration']] *)
Fixpoint set_weights (G : DiGraph) (es : list (node * node * loc)) : M unit :=
  match es with
  | [] => ret tt
  | (u, v, data) :: es' =>
      d <- node_attr G u "duration" ;;
      setitem data "weight" (- d) ;;;
      set_weights G es'
  end.

Definition negated_copy (G : DiGraph) : M DiGraph :=
  G_neg <- copy G ;;
  set_weights G (edges G_neg) ;;;
  ret G_neg.

(** ** [nx.dijkstra_path] *)

(** An entry of the fringe: [(distance, counter, node)]. *)
Definition item : Type := Z * nat * node.

(** Tuple comparison on fringe entries.  The counters are pairwise
    distinct, so the comparison is decided before it reaches the node. *)
Definition item_lt (a b : item) : bool :=
  (a.1.1 <? b.1.1) || ((a.1.1 =? b.1.1) && (a.1.2 <? b.1.2)%nat).

Definition heappush (fr : list item) (x : item) : list item := x :: fr.

(** [heapq.heappop]: remove and return the smallest entry. *)
Fixpoint heappop (fr : list item) : option (item * list item) :=
  match fr with
  | [] => None
  | x :: fr' =>
      match heappop fr' with
      | None => Some (x, [])
      | Some (m, rest) =>
          if item_lt x m then Some (x, m :: rest) else Some (m, x :: rest)
      end
  end.

(** The local variables of [_dijkstra_multisource]; [paths] is the
    dictionary passed in by [multi_source_dijkstra]. *)
Record dijkstra_state : Type := mkDS {
  dist : gmap node Z;
  seen : gmap node Z;
  paths : gmap node (list node);
  c : nat;
  fringe : list item
}.

(** [data.get('weight', 1)] on the edge's data dictionary. *)
Definition weight_of (h : store) (e : loc) : Z :=
  default 1 (dict_at h e !! "weight").

(** [for u, e in G_succ[v].items(): ...] with [pred=None], [cutoff=None]. *)
Fixpoint relax (h : store) (v : node) (nbrs : list (node * loc))
    (st : dijkstra_state) : res dijkstra_state :=
  match nbrs with
  | [] => Ok st
  | (u, e) :: nbrs' =>
      let cost := weight_of h e in
      match dist st !! v with
      | None => Raise KeyError
      | Some dist_v =>
          let vu_dist := dist_v + cost in
          match dist st !! u with
          | Some u_dist =>
              if vu_dist <? u_dist then Raise ValueError
              else relax h v nbrs' st
          | None =>
              if match seen st !! u with
                 | None => true
                 | Some seen_u => vu_dist <? seen_u
                 end
              then
                match paths st !! v with
                | None => Raise KeyError
                | Some paths_v =>
                    relax h v nbrs'
                      (mkDS (dist st)
                            (<[u := vu_dist]> (seen st))
                            (<[u := paths_v ++ [u]]> (paths st))
                            (S (c st))
                            (heappush (fringe st) (vu_dist, c st, u)))
                end
              else relax h v nbrs' st
          end
      end
  end.

(** [while fringe: ...]; one unit of fuel per iteration. *)
Fixpoint dijkstra_loop (fuel : nat) (h : store) (G : DiGraph) (target : node)
    (st : dijkstra_state) : res dijkstra_state :=
  match fuel with
  | O => OutOfFuel
  | S fuel' =>
      match heappop (fringe st) with
      | None => Ok st
      | Some ((d, _, v), fr) =>
          let st1 := mkDS (dist st) (seen st) (paths st) (c st) fr in
          match dist st !! v with
          | Some _ => dijkstra_loop fuel' h G target st1
          | None =>
              let st2 :=
                mkDS (<[v := d]> (dist st)) (seen st) (paths st) (c st) fr in
              if String.eqb v target then Ok st2
              else
                match assoc v (_adj G) with
                | None => Raise KeyError
                | Some nbrs =>
                    match relax h v nbrs st2 with
                    | Ok st3 => dijkstra_loop fuel' h G target st3
                    | Raise e => Raise e
                    | OutOfFuel => OutOfFuel
                    end
                end
          end
      end
  end.

(** [dijkstra_path] -> [single_source_dijkstra] -> [multi_source_dijkstra]
    with [sources = {source}]. *)
Definition dijkstra_path_fuel (fuel : nat) (G : DiGraph) (source target : node)
    (h : store) : res (list node) :=
  if negb (contains G source) then Raise NodeNotFound
  else if String.eqb target source then Ok [target]
  else
    let st0 :=
      mkDS ∅ {[ source := 0 ]} {[ source := [source] ]} 1
           (heappush [] (0, 0%nat, source)) in
    match dijkstra_loop fuel h G target st0 with
    | Ok st =>
        match dist st !! target, paths st !! target with
        | Some _, Some p => Ok p
        | _, _ => Raise NetworkXNoPath
        end
    | Raise e => Raise e
    | OutOfFuel => OutOfFuel
    end.

(** Every iteration pops one entry and there is at most one push per edge
    besides the source's, so this many iterations always suffice
    (see [dijkstra_loop_terminates]). *)
Definition dijkstra_budget (G : DiGraph) : nat := 2 + length (edges G).

Definition dijkstra_path (G : DiGraph) (source target : node)
  : M (list node) :=
  fun h => (dijkstra_path_fuel (dijkstra_budget G) G source target h, h).

(** ** [find_critical_path] *)

(** [sum(G.nodes[task]['duration'] for task in path)] *)
Fixpoint sum_durations (G : DiGraph) (acc : Z) (path : list node) : M Z :=
  match path with
  | [] => ret acc
  | task :: path' =>
      d <- node_attr G task "duration" ;;
      sum_durations G (acc + d) path'
  end.

Definition find_critical_path (G : DiGraph) : M (list node * Z) :=
  G_neg <- negated_copy G ;;
  path <- dijkstra_path G_neg "Start" "End" ;;
  total_duration <- sum_durations G 0 path ;;
  ret (path, total_duration).

(** ** [perform_bfs]: [list(nx.bfs_edges(G, start))] *)

(** [G.neighbors(n)], the iterator over the successors of [n]. *)
Definition neighbors (G : DiGraph) (n : node) : res (list node) :=
  match assoc n (_adj G) with
  | Some nbrs => Ok nbrs.*1
  | None => Raise NetworkXError
  end.

(** The variables of [generic_bfs_edges]; [yielded] collects the edges the
    generator has produced so far. *)
Record bfs_state : Type := mkBFS {
  bfs_seen : gset node;
  next_parents_children : list (node * list node);
  yielded : list (node * node)
}.

(** [for child in children: ...] *)
Fixpoint bfs_children (G : DiGraph) (parent : node) (children : list node)
    (st : bfs_state) : res bfs_state :=
  match children with
  | [] => Ok st
  | child :: children' =>
      if decide (child ∈ bfs_seen st) then bfs_children G parent children' st
      else
        match neighbors G child with
        | Ok nb =>
            bfs_children G parent children'
              (mkBFS ({[ child ]} ∪ bfs_seen st)
                     (next_parents_children st ++ [(child, nb)])
                     (yielded st ++ [(parent, child)]))
        | Raise e => Raise e
        | OutOfFuel => OutOfFuel
        end
  end.

(** [for parent, children in this_parents_children: ...]; the flag tells
    whether the generator returned because every node has been seen. *)
Fixpoint bfs_level (G : DiGraph) (n : nat) (this : list (node * list node))
    (st : bfs_state) : res (bool * bfs_state) :=
  match this with
  | [] => Ok (false, st)
  | (parent, children) :: this' =>
      match bfs_children G parent children st with
      | Ok st' =>
          if (size (bfs_seen st') =? n)%nat then Ok (true, st')
          else bfs_level G n this' st'
      | Raise e => Raise e
      | OutOfFuel => OutOfFuel
      end
  end.

(** [while next_parents_children and depth < depth_limit: ...]; the
    argument [remaining] is [depth_limit - depth]. *)
Fixpoint bfs_while (G : DiGraph) (n : nat) (remaining : nat) (st : bfs_state)
  : res (list (node * node)) :=
  match remaining with
  | O => Ok (yielded st)
  | S remaining' =>
      match next_parents_children st with
      | [] => Ok (yielded st)
      | this =>
          match bfs_level G n this (mkBFS (bfs_seen st) [] (yielded st)) with
          | Ok (true, st') => Ok (yielded st')
          | Ok (false, st') => bfs_while G n remaining' st'
          | Raise e => Raise e
          | OutOfFuel => OutOfFuel
          end
      end
  end.

(** [generic_bfs_edges(G, source, G.neighbors, depth_limit=len(G))] *)
Definition bfs_edges (G : DiGraph) (source : node) : res (list (node * node)) :=
  match neighbors G source with
  | Ok nb => bfs_while G (len G) (len G) (mkBFS {[ source ]} [(source, nb)] [])
  | Raise e => Raise e
  | OutOfFuel => OutOfFuel
  end.

(** The value [perform_bfs] returns; its printing is left out. *)
Definition perform_bfs (G : DiGraph) (start : node) : res (list (node * node)) :=
  bfs_edges G start.

(** ** [analyze_centrality]: [nx.betweenness_centrality(G)]

    networkx computes the scores in binary64 floating point.  The routines
    are given twice: here in exact rational arithmetic, which decides
    whether the computation succeeds and which scores are zero, and in
    [Binary64] below in binary64 itself, for the values of the scores. *)

Record sssp_state : Type := mkSSSP {
  sS : list node;
  sP : gmap node (list node);
  sigma : gmap node Qc;
  sD : gmap node nat;
  sQ : list node
}.

(** [for w in G[v]: ...] inside [_single_source_shortest_path_basic] *)
Fixpoint sssp_neighbors (v : node) (Dv : nat) (sigmav : Qc) (ws : list node)
    (st : sssp_state) : res sssp_state :=
  match ws with
  | [] => Ok st
  | w :: ws' =>
      let st1 :=
        match sD st !! w with
        | None => mkSSSP (sS st) (sP st) (sigma st) (<[w := S Dv]> (sD st))
                         (sQ st ++ [w])
        | Some _ => st
        end in
      if bool_decide (sD st1 !! w = Some (S Dv)) then
        match sigma st1 !! w, sP st1 !! w with
        | Some sigma_w, Some P_w =>
            sssp_neighbors v Dv sigmav ws'
              (mkSSSP (sS st1) (<[w := P_w ++ [v]]> (sP st1))
                      (<[w := (sigma_w + sigmav)%Qc]> (sigma st1))
                      (sD st1) (sQ st1))
        | _, _ => Raise KeyError
        end
      else sssp_neighbors v Dv sigmav ws' st1
  end.

(** [while Q: ...] of [_single_source_shortest_path_basic] *)
Fixpoint sssp_loop (fuel : nat) (G : DiGraph) (st : sssp_state)
  : res sssp_state :=
  match fuel with
  | O => OutOfFuel
  | S fuel' =>
      match sQ st with
      | [] => Ok st
      | v :: Q' =>
          match sD st !! v, sigma st !! v, assoc v (_adj G) with
          | Some Dv, Some sigmav, Some nbrs =>
              match sssp_neighbors v Dv sigmav nbrs.*1
                      (mkSSSP (sS st ++ [v]) (sP st) (sigma st) (sD st) Q') with
              | Ok st' => sssp_loop fuel' G st'
              | Raise e => Raise e
              | OutOfFuel => OutOfFuel
              end
          | _, _, _ => Raise KeyError
          end
      end
  end.

(** [dict.fromkeys(keys, v)] *)
Definition fromkeys {V} (keys : list node) (v : V) : gmap node V :=
  list_to_map (map (fun k => (k, v)) keys).

Definition _single_source_shortest_path_basic (G : DiGraph) (s : node)
  : res sssp_state :=
  sssp_loop (S (len G)) G
    (mkSSSP [] (fromkeys (node_names G) [])
            (<[s := 1%Qc]> (fromkeys (node_names G) 0%Qc))
            {[ s := O ]} [s]).

(** [for v in P[w]: delta[v] += sigma[v] * coeff] *)
Fixpoint accumulate_preds (sig : gmap node Qc) (coeff : Qc) (vs : list node)
    (delta : gmap node Qc) : res (gmap node Qc) :=
  match vs with
  | [] => Ok delta
  | v :: vs' =>
      match delta !! v, sig !! v with
      | Some delta_v, Some sigma_v =>
          accumulate_preds sig coeff vs'
            (<[v := (delta_v + sigma_v * coeff)%Qc]> delta)
      | _, _ => Raise KeyError
      end
  end.

(** [while S: w = S.pop(); ...] of [_accumulate_basic]; [rS] is [S] read
    from its end. *)
Fixpoint accumulate_loop (s : node) (P : gmap node (list node))
    (sig : gmap node Qc) (rS : list node)
    (betweenness delta : gmap node Qc) : res (gmap node Qc) :=
  match rS with
  | [] => Ok betweenness
  | w :: rS' =>
      match delta !! w, sig !! w, P !! w with
      | Some delta_w, Some sigma_w, Some P_w =>
          if bool_decide (sigma_w = 0%Qc) then Raise ZeroDivisionError
          else
            let coeff := ((1 + delta_w) / sigma_w)%Qc in
            match accumulate_preds sig coeff P_w delta with
            | Ok delta' =>
                if String.eqb w s then
                  accumulate_loop s P sig rS' betweenness delta'
                else
                  match betweenness !! w, delta' !! w with
                  | Some b_w, Some d_w =>
                      accumulate_loop s P sig rS'
                        (<[w := (b_w + d_w)%Qc]> betweenness) delta'
                  | _, _ => Raise KeyError
                  end
            | Raise e => Raise e
            | OutOfFuel => OutOfFuel
            end
      | _, _, _ => Raise KeyError
      end
  end.

Definition _accumulate_basic (betweenness : gmap node Qc) (st : sssp_state)
    (s : node) : res (gmap node Qc) :=
  accumulate_loop s (sP st) (sigma st) (rev (sS st)) betweenness
    (fromkeys (sS st) 0%Qc).

(** [for s in G: ...] of [betweenness_centrality] *)
Fixpoint betweenness_sources (G : DiGraph) (srcs : list node)
    (betweenness : gmap node Qc) : res (gmap node Qc) :=
  match srcs with
  | [] => Ok betweenness
  | s :: srcs' =>
      match _single_source_shortest_path_basic G s with
      | Ok st =>
          match _accumulate_basic betweenness st s with
          | Ok b' => betweenness_sources G srcs' b'
          | Raise e => Raise e
          | OutOfFuel => OutOfFuel
          end
      | Raise e => Raise e
      | OutOfFuel => OutOfFuel
      end
  end.

Definition Qc_of_nat (n : nat) : Qc := Q2Qc (inject_Z (Z.of_nat n)).

(** [_rescale] with [normalized=True], [directed=True], [k=None],
    [endpoints=False]. *)
Definition _rescale (betweenness : gmap node Qc) (n : nat) : gmap node Qc :=
  if (n <=? 2)%nat then betweenness
  else
    let scale := (1 / Qc_of_nat ((n - 1) * (n - 2)))%Qc in
    (fun b => (b * scale)%Qc) <$> betweenness.

Definition betweenness_centrality (G : DiGraph) : res (gmap node Qc) :=
  match betweenness_sources G (node_names G) (fromkeys (node_names G) 0%Qc) with
  | Ok b => Ok (_rescale b (len G))
  | Raise e => Raise e
  | OutOfFuel => OutOfFuel
  end.

(** ** Notions used in the statements *)

(** [v] is offered to the relaxation step of [u]. *)
Definition successor (G : DiGraph) (u v : node) : Prop :=
  exists nbrs, assoc u (_adj G) = Some nbrs /\ v ∈ nbrs.*1.

(** [path_to G s t p]: [p] lists the nodes of a directed walk from [s] to
    [t], both included. *)
Inductive path_to (G : DiGraph) (s : node) : node -> list node -> Prop :=
| path_here : path_to G s s [s]
| path_snoc v u p :
    path_to G s v p -> successor G v u -> path_to G s u (p ++ [u]).

(** A computation that cannot run out of fuel. *)
Definition total {A} (m : M A) : Prop := forall h, (m h).1 <> OutOfFuel.

(** The [duration] attribute of a task of [G], read in store [h]. *)
Definition duration_of (h : store) (G : DiGraph) (n : node) : option Z :=
  l ← assoc n (_node G); dict_at h l !! "duration".

(** The sum of the durations of the tasks listed in [p], when each has one. *)
Fixpoint path_duration (h : store) (G : DiGraph) (p : list node) : option Z :=
  match p with
  | [] => Some 0
  | n :: p' => d ← duration_of h G n; s ← path_duration h G p'; Some (d + s)
  end.

(** The script's graph and store, taken apart. *)
Definition G_task : DiGraph :=
  Eval vm_compute in
    match (build tasks task_edges []).1 with Ok G => G | _ => empty_graph end.
Definition h_task : store := (build tasks task_edges []).2.

(** [framed n0 m Q]: run in a store of at least [n0] dictionaries, [m]
    leaves the first [n0] of them as they were, and a value it returns
    satisfies [Q]. *)
Definition framed {A} (n0 : nat) (m : M A) (Q : A -> Prop) : Prop :=
  forall h, (n0 <= length h)%nat ->
    take n0 (m h).2 = take n0 h /\ (n0 <= length (m h).2)%nat /\
    forall a, (m h).1 = Ok a -> Q a.

(** Every attribute dictionary a graph refers to was created at or after
    position [n0] of the store. *)
Definition handles_from (n0 : nat) (G : DiGraph) : Prop :=
  Forall (fun x => (n0 <= x.2)%nat) (_node G) /\
  Forall (fun x => Forall (fun y => (n0 <= y.2)%nat) x.2) (_adj G).

(** [t] can be reached from [s] along directed edges. *)
Definition reachable (G : DiGraph) (s t : node) : Prop :=
  exists p, path_to G s t p.

(** Some node lies on a directed cycle. *)
Definition cyclic (G : DiGraph) : Prop :=
  exists u v, successor G u v /\ reachable G v u.

(** Run a computation on the graph built from a task list and an edge
    list, in the store the construction leaves. *)
Definition run_built {A} (ts : list (node * Z)) (es : list (node * node))
    (f : DiGraph -> M A) : res A :=
  (bind (build ts es) f []).1.

(** Two routes from start to end, the second one longer. *)
Definition two_route_tasks : list (node * Z) :=
  [ ("Start", 0); ("A", 1); ("B", 5); ("End", 0) ].
Definition two_route_edges : list (node * node) :=
  [ ("Start", "A"); ("Start", "B"); ("A", "End"); ("B", "End") ].

(** A graph with the cycle A -> B -> A. *)
Definition cycle_tasks : list (node * Z) :=
  [ ("Start", 0); ("A", 3); ("B", 2); ("End", 0) ].
Definition cycle_edges : list (node * node) :=
  [ ("Start", "A"); ("A", "End"); ("A", "B"); ("B", "A") ].

(** A graph whose end task has no incoming edge. *)
Definition cut_tasks : list (node * Z) :=
  [ ("Start", 0); ("A", 1); ("B", 5); ("End", 0) ].
Definition cut_edges : list (node * node) :=
  [ ("Start", "A"); ("Start", "B"); ("B", "A") ].

(** The three small graphs, built the way the script builds its own. *)
Definition G_two_route : DiGraph :=
  Eval vm_compute in
    match (build two_route_tasks two_route_edges []).1 with
    | Ok G => G | _ => empty_graph end.
Definition h_two_route : store :=
  (build two_route_tasks two_route_edges []).2.

Definition G_cycle : DiGraph :=
  Eval vm_compute in
    match (build cycle_tasks cycle_edges []).1 with
    | Ok G => G | _ => empty_graph end.
Definition h_cycle : store := (build cycle_tasks cycle_edges []).2.

Definition G_cut : DiGraph :=
  Eval vm_compute in
    match (build cut_tasks cut_edges []).1 with
    | Ok G => G | _ => empty_graph end.
Definition h_cut : store := (build cut_tasks cut_edges []).2.

(** A rank for the tasks of a graph, given as a table; 0 elsewhere. *)
Definition rank_of (tbl : list (node * nat)) (n : node) : nat :=
  default O (assoc n tbl).

(** Every edge goes from a lower to a higher rank. *)
Definition ranked (G : DiGraph) (rank : node -> nat) : Prop :=
  Forall (fun e => (rank e.1 < rank e.2)%nat) (edge_pairs G).

(** What holds of the traversal's variables: the targets of the edges
    produced so far are pairwise distinct, have all been seen and exclude
    the source; the edges produced and the children still to be visited
    follow edges of the graph. *)
Record bfs_inv (G : DiGraph) (source : node) (st : bfs_state) : Prop := {
  bfs_targets_nodup : NoDup (yielded st).*2;
  bfs_targets_seen : forall v, v ∈ (yielded st).*2 -> v ∈ bfs_seen st;
  bfs_source_seen : source ∈ bfs_seen st;
  bfs_source_not_target : source ∉ (yielded st).*2;
  bfs_yielded_edges : forall e, e ∈ yielded st -> successor G e.1 e.2;
  bfs_next_edges : forall pc c,
    pc ∈ next_parents_children st -> c ∈ pc.2 -> successor G pc.1 c
}.

(** The edges the traversal returns on the script's graph (line 131). *)
Definition bfs_of_dataset : list (node * node) :=
  Eval vm_compute in
    match perform_bfs G_task "Start" with Ok es => es | _ => [] end.

(** The invariants networkx keeps of a graph object that lives in store
    [h]: the node table and the successor table have the same keys in the
    same order, without repetition; every row of successors is without
    repetition and names nodes of the graph; every attribute dictionary
    the tables refer to is in the store. *)
Definition wf_graph (h : store) (G : DiGraph) : Prop :=
  NoDup (node_names G) /\
  (_adj G).*1 = node_names G /\
  Forall (fun row : node * list (node * loc) =>
            NoDup row.2.*1 /\ row.2.*1 ⊆ node_names G /\
            Forall (fun y : node * loc => (y.2 < length h)%nat) row.2)
         (_adj G) /\
  Forall (fun x : node * loc => (x.2 < length h)%nat) (_node G).

#[global] Instance wf_graph_dec h G : Decision (wf_graph h G).
Proof. unfold wf_graph. apply _. Defined.

(** The same keys, with the handles [k], [k+1], ... in table order. *)
Fixpoint relabel (k : nat) (l : list (node * loc)) : list (node * loc) :=
  match l with
  | [] => []
  | (x, _) :: l' => (x, k) :: relabel (S k) l'
  end.

Fixpoint relabel_adj (k : nat) (adj : list (node * list (node * loc)))
  : list (node * list (node * loc)) :=
  match adj with
  | [] => []
  | (u, nbrs) :: adj' =>
      (u, relabel k nbrs) :: relabel_adj (k + length nbrs) adj'
  end.

Fixpoint renumber (k : nat) (es : list (node * node * loc))
  : list (node * node * loc) :=
  match es with
  | [] => []
  | (u, v, _) :: es' => (u, v, k) :: renumber (S k) es'
  end.

(** The edges of a successor table, as [edges] lists them. *)
Definition adj_edges (adj : list (node * list (node * loc)))
  : list (node * node * loc) :=
  flat_map (fun '(u, nbrs) => map (fun '(v, e) => (u, v, e)) nbrs) adj.

(** ** Chains *)

(** The successor table of the chain [x0 -> x1 -> ... ], by name. *)
Fixpoint chain_adj (l : list node) : list (node * list node) :=
  match l with
  | [] => []
  | x :: l' => (x, match l' with [] => [] | y :: _ => [y] end) :: chain_adj l'
  end.

(** The successors of [x] in [G], by name. *)
Definition row_names (G : DiGraph) (x : node) : option (list node) :=
  (fun nbrs : list (node * loc) => nbrs.*1) <$> assoc x (_adj G).

(** [G] is the single directed chain through the distinct tasks [l]: its
    tasks are those of [l], added in any order, and each task has the next
    one of [l] as its only successor, the last task none. *)
Definition is_chain (l : list node) (G : DiGraph) : Prop :=
  NoDup l /\ node_names G ≡ₚ l /\
  map (fun x => (x, row_names G x)) l
  = map (fun row : node * list node => (row.1, Some row.2)) (chain_adj l).

(** The score of a task in a result, as a fraction. *)
Definition score (r : res (gmap node Qc)) (x : node) : option Q :=
  match r with
  | Ok b => this <$> b !! x
  | _ => None
  end.

(** A chain of five tasks, built the way the script builds its graph. *)
Definition five_tasks : list (node * Z) :=
  [ ("A", 1); ("B", 1); ("C", 1); ("D", 1); ("E", 1) ].
Definition five_edges : list (node * node) :=
  [ ("A", "B"); ("B", "C"); ("C", "D"); ("D", "E") ].
Definition G_five : DiGraph :=
  Eval vm_compute in
    match (build five_tasks five_edges []).1 with
    | Ok G => G | _ => empty_graph end.

(** Every recorded path is a walk from the source without repetition
    whose nodes before the last are settled; settled and queued nodes
    have a recorded path. *)
Record search_inv (G : DiGraph) (source : node) (st : dijkstra_state)
  : Prop := {
  inv_paths : forall u p, paths st !! u = Some p ->
    path_to G source u p /\ NoDup p /\
    (forall x, x ∈ p -> x <> u -> is_Some (dist st !! x));
  inv_dist : forall u, is_Some (dist st !! u) -> is_Some (paths st !! u);
  inv_fringe : forall x, x ∈ fringe st -> is_Some (paths st !! x.2)
}.

(** The edges out of nodes that are not settled yet. *)
Fixpoint unsettled (dst : gmap node Z) (adj : list (node * list (node * loc)))
  : nat :=
  match adj with
  | [] => O
  | (k, nbrs) :: adj' =>
      ((match dst !! k with Some _ => O | None => length nbrs end)
       + unsettled dst adj')%nat
  end.

(** What bounds the iterations the search has left. *)
Definition measure (G : DiGraph) (st : dijkstra_state) : nat :=
  (length (fringe st) + unsettled (dist st) (_adj G))%nat.

(** [m] holds, at the task of position [i] of [l], the value [f i]. *)
Definition tab (l : list node) {V} (m : gmap node V) (f : nat -> option V)
  : Prop :=
  forall i x, l !! i = Some x -> m !! x = f i.

(** The task just before position [i] of [l], as the list [P] holds it. *)
Definition prev (l : list node) (i : nat) : list node :=
  match l !! (i - 1)%nat with Some y => [y] | None => [] end.

(** ** Graphs as the builder leaves them *)

(** Besides networkx's table invariants, no two nodes share an attribute
    dictionary. *)
Definition graph_ok (h : store) (G : DiGraph) : Prop :=
  wf_graph h G /\ NoDup (_node G).*2.

(** What [build] has made of the tasks [ts] and the edges [es] fed to it so
    far: the graph's nodes are the names seen in either list, its edges are
    the edges seen, and a node's duration is the one given last for it. *)
Definition built_from (ts : list (node * Z)) (es : list (node * node))
    (h : store) (G : DiGraph) : Prop :=
  graph_ok h G /\
  (forall n, n ∈ node_names G <-> n ∈ ts.*1 \/ n ∈ es.*1 \/ n ∈ es.*2) /\
  (forall e, e ∈ edge_pairs G <-> e ∈ es) /\
  (forall n, duration_of h G n = assoc n (reverse ts)).


(** Every edge leaves a task that has a duration: what line 90 needs. *)
Definition sources_have_durations (h : store) (G : DiGraph) : Prop :=
  Forall (fun e : node * node => is_Some (duration_of h G e.1)) (edge_pairs G).

(** The successor table by name: who precedes whom, in table order. *)
Definition topology (G : DiGraph) : list (node * list node) :=
  map (fun row : node * list (node * loc) => (row.1, row.2.*1)) (_adj G).

(** The successor table with the weight the search reads on each edge. *)
Definition weighted (h : store) (G : DiGraph) : list (node * list (node * Z)) :=
  map (fun row : node * list (node * loc) =>
         (row.1, map (fun y : node * loc => (y.1, weight_of h y.2)) row.2))
      (_adj G).


(** The traversal's variables in good order: the seen nodes are the start
    node and the targets of the edges produced so far, they are nodes of
    the graph that can be reached from the start node, every parent still
    to be visited has been seen and comes with all its successors, and
    every edge produced leaves the start node or the target of an earlier
    edge. *)
Record bfs_good (G : DiGraph) (start : node) (st : bfs_state) : Prop := {
  good_names : forall u, u ∈ bfs_seen st -> u ∈ node_names G;
  good_reach : forall u, u ∈ bfs_seen st -> reachable G start u;
  good_targets : forall u,
    u ∈ bfs_seen st <-> u = start \/ u ∈ (yielded st).*2;
  good_entries :
    Forall (fun pc : node * list node =>
              neighbors G pc.1 = Ok pc.2 /\ pc.1 ∈ bfs_seen st)
           (next_parents_children st);
  good_tree : forall i e, yielded st !! i = Some e ->
    e.1 = start \/ e.1 ∈ (take i (yielded st)).*2
}.

(** Every seen node has all its successors seen, or is still to be
    visited. *)
Definition pending_closed (G : DiGraph) (seen : gset node)
    (pend : list node) : Prop :=
  forall u, u ∈ seen -> (forall v, successor G u v -> v ∈ seen) \/ u ∈ pend.


(** Every task the search has seen is settled or waits in the fringe, and
    the successors of every settled task other than [cur], the one whose
    edges are being relaxed, have been seen. *)
Record search_closed (G : DiGraph) (source : node) (cur : option node)
    (st : dijkstra_state) : Prop := {
  closed_source : is_Some (seen st !! source);
  closed_seen : forall u, is_Some (seen st !! u) ->
    is_Some (dist st !! u) \/ u ∈ (fringe st).*2;
  closed_dist : forall u, is_Some (dist st !! u) -> is_Some (seen st !! u);
  closed_fringe : forall x, x ∈ fringe st -> is_Some (seen st !! x.2);
  closed_succ : forall v u, is_Some (dist st !! v) -> cur <> Some v ->
    successor G v u -> is_Some (seen st !! u)
}.

(** A start and an end task with nothing between them. *)
Definition lone_tasks : list (node * Z) := [("Start", 0); ("End", 0)].
Definition G_lone : DiGraph :=
  Eval vm_compute in
    match (build lone_tasks [] []).1 with Ok G => G | _ => empty_graph end.
Definition h_lone : store := (build lone_tasks [] []).2.


(** What [_single_source_shortest_path_basic] keeps true while it searches
    from [s]: every task has its entry in [P] and in [sigma], and [sigma]
    counts paths; the tasks with a distance are tasks of the graph, [s]
    or entered by an edge, with a positive count, and they are the ones
    on the stack or in the queue; whoever is listed in [P] has been moved
    to the stack and precedes the task it is listed for. *)
Record sssp_inv (G : DiGraph) (s : node) (st : sssp_state) : Prop := {
  sssp_P_keys : forall u, u ∈ node_names G -> is_Some (sP st !! u);
  sssp_sigma : forall u, u ∈ node_names G ->
    exists k, sigma st !! u = Some (Qc_of_nat k) /\
              (is_Some (sD st !! u) -> (0 < k)%nat);
  sssp_D_names : forall u, is_Some (sD st !! u) -> u ∈ node_names G;
  sssp_D_entered : forall u, is_Some (sD st !! u) ->
    u = s \/ exists v, successor G v u;
  sssp_SQ_D : forall u, u ∈ sS st ++ sQ st -> is_Some (sD st !! u);
  sssp_count : (length (sS st) + length (sQ st))%nat = size (sD st);
  sssp_P_S : forall w P_w v, sP st !! w = Some P_w -> v ∈ P_w ->
    v ∈ sS st /\ successor G v w
}.


(** The exceptions the finder can end with. *)
Definition finder_exn (e : exn) : Prop :=
  e = NodeNotFound \/ e = NetworkXNoPath \/ e = ValueError \/ e = KeyError.

(** A computation that raises no exception outside [E]. *)
Definition raises_only {A} (E : exn -> Prop) (m : M A) : Prop :=
  forall h e, (m h).1 = Raise e -> E e.


(** ** [nx.betweenness_centrality(G)] in binary64 *)

(** Python's [float] is IEEE 754 binary64 with rounding to nearest, ties to
    even; the Standard Library's [SpecFloat] specifies its operations on
    integers, so they can be run.  The routines are those given above for
    exact fractions, statement by statement. *)
Module Binary64.

Definition float : Type := SpecFloat.spec_float.

#[global] Instance float_eq_dec : EqDecision float.
Proof. unfold float. solve_decision. Defined.

Definition add : float -> float -> float := SpecFloat.SFadd 53 1024.
Definition mul : float -> float -> float := SpecFloat.SFmul 53 1024.
Definition div : float -> float -> float := SpecFloat.SFdiv 53 1024.
Definition ltb : float -> float -> bool := SpecFloat.SFltb.

(** [float(n)] for an [int] [n >= 0]. *)
Definition of_nat (n : nat) : float :=
  SpecFloat.binary_normalize 53 1024 (Z.of_nat n) 0 false.

Definition zero : float := of_nat 0.
Definition one : float := of_nat 1.

Arguments add : simpl never.
Arguments mul : simpl never.
Arguments div : simpl never.
Arguments of_nat : simpl never.
Arguments zero : simpl never.
Arguments one : simpl never.

(** [x == 0], the case in which [/ x] raises [ZeroDivisionError]. *)
Definition is_zero (x : float) : bool :=
  match x with SpecFloat.S754_zero _ => true | _ => false end.

Record sssp_state : Type := mkSSSP {
  sS : list node;
  sP : gmap node (list node);
  sigma : gmap node float;
  sD : gmap node nat;
  sQ : list node
}.

(** [for w in G[v]: ...] inside [_single_source_shortest_path_basic] *)
Fixpoint sssp_neighbors (v : node) (Dv : nat) (sigmav : float)
    (ws : list node) (st : sssp_state) : res sssp_state :=
  match ws with
  | [] => Ok st
  | w :: ws' =>
      let st1 :=
        match sD st !! w with
        | None => mkSSSP (sS st) (sP st) (sigma st) (<[w := S Dv]> (sD st))
                         (sQ st ++ [w])
        | Some _ => st
        end in
      if bool_decide (sD st1 !! w = Some (S Dv)) then
        match sigma st1 !! w, sP st1 !! w with
        | Some sigma_w, Some P_w =>
            sssp_neighbors v Dv sigmav ws'
              (mkSSSP (sS st1) (<[w := P_w ++ [v]]> (sP st1))
                      (<[w := add sigma_w sigmav]> (sigma st1))
                      (sD st1) (sQ st1))
        | _, _ => Raise KeyError
        end
      else sssp_neighbors v Dv sigmav ws' st1
  end.

(** [while Q: ...] of [_single_source_shortest_path_basic] *)
Fixpoint sssp_loop (fuel : nat) (G : DiGraph) (st : sssp_state)
  : res sssp_state :=
  match fuel with
  | O => OutOfFuel
  | S fuel' =>
      match sQ st with
      | [] => Ok st
      | v :: Q' =>
          match sD st !! v, sigma st !! v, assoc v (_adj G) with
          | Some Dv, Some sigmav, Some nbrs =>
              match sssp_neighbors v Dv sigmav nbrs.*1
                      (mkSSSP (sS st ++ [v]) (sP st) (sigma st) (sD st) Q') with
              | Ok st' => sssp_loop fuel' G st'
              | Raise e => Raise e
              | OutOfFuel => OutOfFuel
              end
          | _, _, _ => Raise KeyError
          end
      end
  end.

Definition _single_source_shortest_path_basic (G : DiGraph) (s : node)
  : res sssp_state :=
  sssp_loop (S (len G)) G
    (mkSSSP [] (fromkeys (node_names G) [])
            (<[s := one]> (fromkeys (node_names G) zero))
            {[ s := O ]} [s]).

(** [for v in P[w]: delta[v] += sigma[v] * coeff] *)
Fixpoint accumulate_preds (sig : gmap node float) (coeff : float)
    (vs : list node) (delta : gmap node float) : res (gmap node float) :=
  match vs with
  | [] => Ok delta
  | v :: vs' =>
      match delta !! v, sig !! v with
      | Some delta_v, Some sigma_v =>
          accumulate_preds sig coeff vs'
            (<[v := add delta_v (mul sigma_v coeff)]> delta)
      | _, _ => Raise KeyError
      end
  end.

(** [while S: w = S.pop(); coeff = (1 + delta[w]) / sigma[w]; ...] of
    [_accumulate_basic]; [rS] is [S] read from its end.  [delta] starts
    from the [int] 0, which Python converts to 0.0 where it meets a
    float. *)
Fixpoint accumulate_loop (s : node) (P : gmap node (list node))
    (sig : gmap node float) (rS : list node)
    (betweenness delta : gmap node float) : res (gmap node float) :=
  match rS with
  | [] => Ok betweenness
  | w :: rS' =>
      match delta !! w, sig !! w, P !! w with
      | Some delta_w, Some sigma_w, Some P_w =>
          if is_zero sigma_w then Raise ZeroDivisionError
          else
            let coeff := div (add one delta_w) sigma_w in
            match accumulate_preds sig coeff P_w delta with
            | Ok delta' =>
                if String.eqb w s then
                  accumulate_loop s P sig rS' betweenness delta'
                else
                  match betweenness !! w, delta' !! w with
                  | Some b_w, Some d_w =>
                      accumulate_loop s P sig rS'
                        (<[w := add b_w d_w]> betweenness) delta'
                  | _, _ => Raise KeyError
                  end
            | Raise e => Raise e
            | OutOfFuel => OutOfFuel
            end
      | _, _, _ => Raise KeyError
      end
  end.

Definition _accumulate_basic (betweenness : gmap node float)
    (st : sssp_state) (s : node) : res (gmap node float) :=
  accumulate_loop s (sP st) (sigma st) (rev (sS st)) betweenness
    (fromkeys (sS st) zero).

(** [for s in G: ...] of [betweenness_centrality] *)
Fixpoint betweenness_sources (G : DiGraph) (srcs : list node)
    (betweenness : gmap node float) : res (gmap node float) :=
  match srcs with
  | [] => Ok betweenness
  | s :: srcs' =>
      match _single_source_shortest_path_basic G s with
      | Ok st =>
          match _accumulate_basic betweenness st s with
          | Ok b' => betweenness_sources G srcs' b'
          | Raise e => Raise e
          | OutOfFuel => OutOfFuel
          end
      | Raise e => Raise e
      | OutOfFuel => OutOfFuel
      end
  end.

(** [scale = 1 / ((n - 1) * (n - 2))], the quotient of two [int]s rounded
    once; for a divisor below 2^53 that is the quotient of the two
    floats. *)
Definition scale (n : nat) : float := div one (of_nat ((n - 1) * (n - 2))).

(** [_rescale] with [normalized=True], [directed=True], [k=None],
    [endpoints=False]: [betweenness[v] *= scale]. *)
Definition _rescale (betweenness : gmap node float) (n : nat)
  : gmap node float :=
  if (n <=? 2)%nat then betweenness
  else (fun b => mul b (scale n)) <$> betweenness.

Definition betweenness_centrality (G : DiGraph) : res (gmap node float) :=
  match betweenness_sources G (node_names G)
          (fromkeys (node_names G) zero) with
  | Ok b => Ok (_rescale b (len G))
  | Raise e => Raise e
  | OutOfFuel => OutOfFuel
  end.

(** The score of the task at position [i] (from 0) of a chain of [n]
    tasks: [i * (n - 1 - i)] pairs of other tasks have it between them,
    and that count is multiplied by the scale. *)
Definition chain_score (n i : nat) : float :=
  mul (of_nat (i * (n - 1 - i))) (scale n).

(** Binary64 does not round the counts up to [B]: the sum of two of them,
    the quotient of one by 1.0 and its product with 1.0. *)
Definition exact_upto (B : nat) : Prop :=
  Forall (fun a =>
            div (of_nat a) one = of_nat a /\
            mul one (of_nat a) = of_nat a /\
            Forall (fun b => add (of_nat a) (of_nat b) = of_nat (a + b))
                   (seq 0 (S B - a)))
         (seq 0 (S B)).

(** Multiplied by [s], the counts up to [B] stay strictly ordered. *)
Definition scaling_strict (B : nat) (s : float) : Prop :=
  Forall (fun a =>
            Forall (fun b => ltb (mul (of_nat a) s) (mul (of_nat b) s) = true)
                   (seq (S a) (B - a)))
         (seq 0 B).

(** Binary64 is adequate for a chain of [n] tasks: it neither rounds the
    pair counts, which stay within [n * n / 4], nor merges two of them
    when they are scaled.  Both parts can be checked by running the
    operations; they hold for every [n] a graph in memory can have, and
    fail once the counts pass 2^53. *)
Definition adequate (n : nat) : Prop :=
  exact_upto (n * n / 4) /\ scaling_strict (n * n / 4) (scale n).

(** The state of the shortest-path pass from the task at position [k] of
    the chain [l] when the task at position [j] is the one in the queue. *)
Definition sssp_at (l : list node) (k j : nat) (st : sssp_state) : Prop :=
  sS st = take (j - k) (drop k l) /\
  (exists v, l !! j = Some v /\ sQ st = [v]) /\
  tab l (sP st)
    (fun i => Some (if decide (k < i <= j)%nat then prev l i else [])) /\
  tab l (sigma st)
    (fun i => Some (if decide (k <= i <= j)%nat then one else zero)) /\
  tab l (sD st)
    (fun i => if decide (k <= i <= j)%nat then Some (i - k)%nat else None).

(** The state that pass ends in. *)
Definition sssp_done (l : list node) (k : nat) (st : sssp_state) : Prop :=
  sS st = drop k l /\
  tab l (sP st) (fun i => Some (if decide (k < i)%nat then prev l i else [])) /\
  tab l (sigma st)
    (fun i => Some (if decide (k <= i)%nat then one else zero)).

End Binary64.

(** A chain of six tasks, A -> B -> C -> D -> E -> F, whose tasks and
    edges are given in another order than the chain's. *)
Definition six_tasks : list (node * Z) :=
  [ ("D", 1); ("A", 1); ("F", 1); ("C", 1); ("B", 1); ("E", 1) ].
Definition six_edges : list (node * node) :=
  [ ("C", "D"); ("A", "B"); ("E", "F"); ("B", "C"); ("D", "E") ].
Definition G_six : DiGraph :=
  Eval vm_compute in
    match (build six_tasks six_edges []).1 with
    | Ok G => G | _ => empty_graph end.

(** * Properties *)

(** ** Association lists *)

Lemma assoc_None {V} k (l : list (node * V)) : assoc k l = None <-> k ∉ l.*1.
Proof.
  induction l as [|[k' v] l IH]; simpl.
  - split; [intros _; apply not_elem_of_nil | done].
  - destruct (String.eqb_spec k k') as [->|Hne].
    + split; [done | intros H; exfalso; apply H; left].
    + rewrite IH, not_elem_of_cons. tauto.
Qed.

Lemma assoc_Some_elem {V} k (v : V) l : assoc k l = Some v -> (k, v) ∈ l.
Proof.
  induction l as [|[k' v'] l IH]; simpl; [done|].
  destruct (String.eqb_spec k k') as [->|Hne].
  - intros [= ->]. left.
  - intros H. right. auto.
Qed.

Lemma assoc_is_Some {V} k (l : list (node * V)) : is_Some (assoc k l) <-> k ∈ l.*1.
Proof.
  destruct (assoc k l) eqn:E.
  - split; [intros _ | eauto].
    apply assoc_Some_elem in E. apply list_elem_of_fmap. by exists (k, v).
  - apply assoc_None in E. split; [intros [? [=]] | done].
Qed.

(** ** Paths of the graph the search runs on *)

Lemma path_to_ends G s t p :
  path_to G s t p -> head p = Some s /\ last p = Some t.
Proof.
  induction 1 as [|v u p Hp [IHh IHl] Hs]; [done|].
  split; [|apply last_snoc].
  destruct p; [done|]. exact IHh.
Qed.

Lemma path_to_shape G s t p :
  path_to G s t p -> s <> t -> exists mid, p = s :: mid ++ [t].
Proof.
  intros Hp Hne. destruct Hp as [|v u p Hp Hs]; [done|].
  apply path_to_ends in Hp as [Hh _].
  destruct p as [|x p]; [done|]. simpl in Hh. injection Hh as ->.
  by exists p.
Qed.

(** ** The search: what [paths] holds *)

Section Search.
Context (h : store) (G : DiGraph) (source target : node).

Lemma heappop_elem fr x fr' :
  heappop fr = Some (x, fr') -> x ∈ fr /\ (forall y, y ∈ fr' -> y ∈ fr).
Proof.
  revert x fr'. induction fr as [|a fr IH]; intros x fr'; simpl; [done|].
  destruct (heappop fr) as [[m rest]|] eqn:E.
  - destruct (IH _ _ eq_refl) as [Hm Hrest].
    destruct (item_lt a m); intros [= <- <-].
    + split; [left|]. intros y [->|Hy]%elem_of_cons; [by right|right; auto].
    + split; [by right|]. intros y [->|Hy]%elem_of_cons; [left|right; auto].
  - intros [= <- <-]. split; [left|]. intros y Hy. by apply elem_of_nil in Hy.
Qed.

Lemma heappop_None fr : heappop fr = None -> fr = [].
Proof.
  destruct fr as [|a fr]; simpl; [done|].
  destruct (heappop fr) as [[m rest]|]; [destruct (item_lt a m)|]; done.
Qed.

Lemma heappop_length fr x fr' :
  heappop fr = Some (x, fr') -> length fr = S (length fr').
Proof.
  revert x fr'. induction fr as [|a fr IH]; intros x fr'; simpl; [done|].
  destruct (heappop fr) as [[m rest]|] eqn:E.
  - specialize (IH _ _ eq_refl).
    destruct (item_lt a m); intros [= <- <-]; simpl; by rewrite IH.
  - apply heappop_None in E as ->. by intros [= <- <-].
Qed.

Lemma relax_inv v nbrs st st' :
  (forall u, u ∈ nbrs.*1 -> successor G v u) ->
  is_Some (dist st !! v) ->
  search_inv G source st ->
  relax h v nbrs st = Ok st' ->
  search_inv G source st' /\ dist st' = dist st.
Proof.
  revert st. induction nbrs as [|[u e] nbrs IH]; intros st Hsucc Hv Hinv; simpl.
  { by intros [= <-]. }
  assert (Hsucc' : forall u0, u0 ∈ nbrs.*1 -> successor G v u0).
  { intros u0 Hu0. apply Hsucc. simpl. by right. }
  destruct (dist st !! v) as [dv|] eqn:Edv; [|done].
  destruct (dist st !! u) as [du|] eqn:Edu.
  { destruct (_ <? _); [done|]. apply IH; auto. }
  match goal with |- context [if ?b then _ else _] => destruct b end.
  2:{ apply IH; auto. }
  destruct (paths st !! v) as [pv|] eqn:Epv; [|done].
  intros Hrun. apply IH in Hrun as [Hinv' Hd]; simpl; auto.
  destruct Hinv as [Hp Hdist Hfr].
  destruct (Hp _ _ Epv) as (Hpath & Hnd & Hsettled).
  assert (Hupv : u ∉ pv).
  { intros Hin. destruct (decide (u = v)) as [->|Hne]; [congruence|].
    destruct (Hsettled _ Hin Hne) as [? ?]. congruence. }
  constructor; simpl.
  - intros u0 p. destruct (decide (u = u0)) as [<-|Hne].
    + rewrite lookup_insert_eq. intros [= <-]. split; [|split].
      * eapply path_snoc; [exact Hpath|]. apply Hsucc. simpl. left.
      * apply NoDup_app. split; [done|]. split; [|apply NoDup_singleton].
        intros x Hx ->%list_elem_of_singleton. done.
      * intros x [Hx|Hx%list_elem_of_singleton]%elem_of_app Hxu; [|done].
        destruct (decide (x = v)) as [->|Hxv]; [by rewrite Edv|].
        by apply Hsettled.
    + rewrite lookup_insert_ne by done. apply Hp.
  - intros u0 Hu0. destruct (decide (u = u0)) as [<-|Hne].
    + rewrite lookup_insert_eq. eauto.
    + rewrite lookup_insert_ne by done. by apply Hdist.
  - intros x [->|Hx]%elem_of_cons; simpl.
    + rewrite lookup_insert_eq. eauto.
    + destruct (decide (u = x.2)) as [<-|Hne].
      * rewrite lookup_insert_eq. eauto.
      * rewrite lookup_insert_ne by done. by apply Hfr.
Qed.

Lemma dijkstra_loop_inv fuel st st' :
  search_inv G source st ->
  dijkstra_loop fuel h G target st = Ok st' ->
  search_inv G source st'.
Proof.
  revert st. induction fuel as [|fuel IH]; intros st Hinv; simpl; [done|].
  destruct (heappop (fringe st)) as [[[[d k] v] fr]|] eqn:Epop.
  2:{ by intros [= <-]. }
  apply heappop_elem in Epop as [Hin Hsub].
  destruct Hinv as [Hp Hdist Hfr].
  destruct (dist st !! v) as [dv|] eqn:Edv.
  { apply IH. constructor; simpl; auto. }
  assert (Hinv2 : search_inv G source
    (mkDS (<[v := d]> (dist st)) (seen st) (paths st) (c st) fr)).
  { constructor; simpl.
    - intros u p Hup. destruct (Hp _ _ Hup) as (? & ? & Hs).
      split; [done|]. split; [done|]. intros x Hx Hxu.
      destruct (decide (v = x)) as [<-|Hne].
      + rewrite lookup_insert_eq. eauto.
      + rewrite lookup_insert_ne by done. auto.
    - intros u. destruct (decide (v = u)) as [<-|Hne].
      + intros _. apply (Hfr (d, k, v) Hin).
      + rewrite lookup_insert_ne by done. auto.
    - auto. }
  destruct (String.eqb v target); [by intros [= <-]|].
  destruct (assoc v (_adj G)) as [nbrs|] eqn:Eadj; [|done].
  destruct (relax h v nbrs _) as [st3| |] eqn:Erel; [|done|done].
  apply relax_inv in Erel as [Hinv3 _]; [by apply IH| |by simpl; rewrite lookup_insert_eq|done].
  intros u Hu. by exists nbrs.
Qed.

Lemma dijkstra_path_fuel_sound fuel p :
  dijkstra_path_fuel fuel G source target h = Ok p ->
  path_to G source target p /\ NoDup p.
Proof.
  unfold dijkstra_path_fuel.
  destruct (negb (contains G source)); [done|].
  destruct (String.eqb_spec target source) as [->|Hne].
  { intros [= <-]. split; [constructor|apply NoDup_singleton]. }
  destruct (dijkstra_loop _ _ _ _ _) as [st| |] eqn:Eloop; [|done|done].
  apply dijkstra_loop_inv in Eloop.
  - destruct (dist st !! target); [|done].
    destruct (paths st !! target) as [p'|] eqn:Ep; [|done].
    intros [= <-]. destruct (inv_paths _ _ _ Eloop _ _ Ep) as (? & ? & _). done.
  - constructor; simpl.
    + intros u p0. destruct (decide (source = u)) as [<-|Hsu].
      * rewrite lookup_singleton_eq. intros [= <-].
        split; [constructor|]. split; [apply NoDup_singleton|].
        intros x ->%list_elem_of_singleton. done.
      * rewrite lookup_singleton_ne by done. done.
    + intros u [? Hu]. by rewrite lookup_empty in Hu.
    + intros x ->%list_elem_of_singleton. simpl.
      rewrite lookup_singleton_eq. eauto.
Qed.
End Search.

(** ** The monad *)

Lemma bind_Ok {A B} (m : M A) (k : A -> M B) h b h' :
  bind m k h = (Ok b, h') ->
  exists a h1, m h = (Ok a, h1) /\ k a h1 = (Ok b, h').
Proof.
  unfold bind. destruct (m h) as [[a|e|] h1]; [eauto|done|done].
Qed.

Lemma total_bind {A B} (m : M A) (k : A -> M B) :
  total m -> (forall a, total (k a)) -> total (bind m k).
Proof.
  intros Hm Hk h. unfold bind. specialize (Hm h).
  destruct (m h) as [[a|e|] h1]; simpl in *; [apply Hk|done|done].
Qed.

Lemma total_ret {A} (a : A) : total (ret a).
Proof. by intros h. Qed.

Lemma total_raise {A} e : total (@raise A e).
Proof. by intros h. Qed.

Lemma total_alloc d : total (alloc d).
Proof. by intros h. Qed.

Lemma total_read l : total (read l).
Proof. by intros h. Qed.

Lemma total_update l d : total (update l d).
Proof. by intros h. Qed.

Lemma total_setitem l k v : total (setitem l k v).
Proof. by intros h. Qed.

Lemma total_getitem l k : total (getitem l k).
Proof. intros h. unfold getitem. by destruct (_ !! _). Qed.

Lemma total_node_attr G n k : total (node_attr G n k).
Proof.
  unfold node_attr. destruct (assoc _ _); [apply total_getitem|apply total_raise].
Qed.

Create HintDb total discriminated.
#[local] Hint Resolve total_ret total_raise total_alloc total_read total_update
  total_setitem total_getitem total_node_attr : total.

Ltac total_step :=
  repeat first
    [ apply total_bind; [|intros ?]
    | progress auto with total
    | match goal with
      | |- total (match ?x with _ => _ end) => destruct x
      end ].

Lemma total_ensure_node G n : total (ensure_node G n).
Proof. unfold ensure_node. total_step. Qed.
#[local] Hint Resolve total_ensure_node : total.

Lemma total_add_node G n d : total (add_node G n d).
Proof. unfold add_node. total_step. Qed.
#[local] Hint Resolve total_add_node : total.

Lemma total_add_edge G u v dd : total (add_edge G u v dd).
Proof. unfold add_edge. total_step. Qed.
#[local] Hint Resolve total_add_edge : total.

Lemma total_copy_nodes ns : forall G, total (copy_nodes G ns).
Proof. induction ns as [|[n l] ns IH]; intros G; simpl; total_step. Qed.

Lemma total_copy_edges es : forall G, total (copy_edges G es).
Proof. induction es as [|[[u v] l] es IH]; intros G; simpl; total_step. Qed.
#[local] Hint Resolve total_copy_nodes total_copy_edges : total.

Lemma total_copy G : total (copy G).
Proof. unfold copy. total_step. Qed.
#[local] Hint Resolve total_copy : total.

Lemma total_set_weights G es : total (set_weights G es).
Proof. induction es as [|[[u v] l] es IH]; simpl; total_step. Qed.
#[local] Hint Resolve total_set_weights : total.

Lemma total_negated_copy G : total (negated_copy G).
Proof. unfold negated_copy. total_step. Qed.

Lemma total_sum_durations G path : forall acc, total (sum_durations G acc path).
Proof. induction path as [|n p IH]; intros acc; simpl; total_step. Qed.
#[local] Hint Resolve total_negated_copy total_sum_durations : total.

(** ** The search terminates *)

Section Termination.
Context (h : store) (G : DiGraph) (target : node).

Lemma unsettled_empty adj :
  unsettled ∅ adj = length (flat_map
    (fun '(u, nbrs) => map (fun '(v, e) => (u, v, e)) nbrs) adj).
Proof.
  induction adj as [|[k nbrs] adj IH]; simpl; [done|].
  rewrite lookup_empty, length_app, length_map, IH. done.
Qed.

Lemma unsettled_insert_le dst v d adj :
  (unsettled (<[v := d]> dst) adj <= unsettled dst adj)%nat.
Proof.
  induction adj as [|[k nbrs] adj IH]; simpl; [done|].
  destruct (decide (v = k)) as [<-|Hne].
  - rewrite lookup_insert_eq. destruct (dst !! v); lia.
  - rewrite lookup_insert_ne by done. lia.
Qed.

Lemma unsettled_settle dst v d adj nbrs :
  dst !! v = None -> assoc v adj = Some nbrs ->
  (unsettled (<[v := d]> dst) adj + length nbrs <= unsettled dst adj)%nat.
Proof.
  intros Hv. induction adj as [|[k nb] adj IH]; simpl; [done|].
  destruct (String.eqb_spec v k) as [<-|Hne].
  - intros [= ->]. rewrite lookup_insert_eq, Hv.
    pose proof (unsettled_insert_le dst v d adj). lia.
  - intros Ha. rewrite lookup_insert_ne by done. specialize (IH Ha). lia.
Qed.

Lemma relax_fringe v nbrs st st' :
  relax h v nbrs st = Ok st' ->
  dist st' = dist st /\
  (length (fringe st') <= length (fringe st) + length nbrs)%nat.
Proof.
  revert st. induction nbrs as [|[u e] nbrs IH]; intros st; simpl.
  { intros [= <-]. split; [done|lia]. }
  destruct (dist st !! v) as [dv|]; [|done].
  destruct (dist st !! u) as [du|].
  { destruct (_ <? _); [done|]. intros [? ?]%IH. split; [done|lia]. }
  match goal with |- context [if ?b then _ else _] => destruct b end.
  2:{ intros [? ?]%IH. split; [done|lia]. }
  destruct (paths st !! v) as [pv|]; [|done].
  intros [Hd Hl]%IH. simpl in *. split; [done|lia].
Qed.

Lemma dijkstra_loop_terminates fuel st :
  (measure G st < fuel)%nat ->
  dijkstra_loop fuel h G target st <> OutOfFuel.
Proof.
  revert st. induction fuel as [|fuel IH]; intros st Hm; [lia|]. simpl.
  destruct (heappop (fringe st)) as [[[[d k] v] fr]|] eqn:Epop; [|done].
  apply heappop_length in Epop. unfold measure in Hm.
  destruct (dist st !! v) as [dv|] eqn:Edv.
  { apply IH. unfold measure. simpl. lia. }
  destruct (String.eqb v target); [done|].
  destruct (assoc v (_adj G)) as [nbrs|] eqn:Eadj; [|done].
  destruct (relax h v nbrs _) as [st3| |] eqn:Erel; [|done|].
  - apply relax_fringe in Erel as [Hd Hl]. simpl in *.
    apply IH. unfold measure. rewrite Hd.
    pose proof (unsettled_settle (dist st) v d _ _ Edv Eadj). lia.
  - exfalso. clear -Erel. revert Erel. generalize
      (mkDS (<[v:=d]> (dist st)) (seen st) (paths st) (c st) fr).
    induction nbrs as [|[u e] nbrs IHn]; intros s; simpl; [done|].
    destruct (dist s !! v); [|done].
    destruct (dist s !! u); [destruct (_ <? _); [done|apply IHn]|].
    match goal with |- context [if ?b then _ else _] => destruct b end;
      [|apply IHn].
    destruct (paths s !! v); [apply IHn|done].
Qed.

Lemma dijkstra_path_fuel_terminates source :
  dijkstra_path_fuel (dijkstra_budget G) G source target h <> OutOfFuel.
Proof.
  unfold dijkstra_path_fuel.
  destruct (negb _); [done|]. destruct (String.eqb _ _); [done|].
  match goal with |- context [dijkstra_loop ?f ?a ?b ?t ?s] =>
    pose proof (dijkstra_loop_terminates f s) as Hl;
    destruct (dijkstra_loop f a b t s) as [st| |] end.
  - destruct (dist st !! target), (paths st !! target); done.
  - done.
  - exfalso. apply Hl; [|done]. unfold measure, dijkstra_budget, edges.
    simpl. rewrite unsettled_empty. lia.
Qed.
End Termination.

Lemma total_dijkstra_path G s t : total (dijkstra_path G s t).
Proof. intros h. apply dijkstra_path_fuel_terminates. Qed.
#[local] Hint Resolve total_dijkstra_path : total.

Lemma total_find_critical_path G : total (find_critical_path G).
Proof. unfold find_critical_path. total_step. Qed.

(** ** The finder's result *)

Lemma sum_durations_spec G p : forall acc h,
  sum_durations G acc p h =
    (match path_duration h G p with
     | Some s => Ok (acc + s)
     | None => Raise KeyError
     end, h).
Proof.
  induction p as [|n p IH]; intros acc h; simpl.
  { unfold ret. by rewrite Z.add_0_r. }
  unfold bind, node_attr, duration_of.
  destruct (assoc n (_node G)) as [l|]; simpl; [|done].
  unfold getitem. destruct (dict_at h l !! "duration") as [d|]; simpl; [|done].
  rewrite IH. destruct (path_duration h G p) as [s|]; simpl; [|done].
  by rewrite Z.add_assoc.
Qed.

(** What a successful run of the finder went through. *)
Lemma find_critical_path_Ok G h p t h' :
  find_critical_path G h = (Ok (p, t), h') ->
  exists G_neg,
    negated_copy G h = (Ok G_neg, h') /\
    dijkstra_path_fuel (dijkstra_budget G_neg) G_neg "Start" "End" h' = Ok p /\
    path_duration h' G p = Some t.
Proof.
  unfold find_critical_path.
  intros (G_neg & h1 & Hneg & Hrest)%bind_Ok.
  apply bind_Ok in Hrest as (p' & h2 & Hdij & Hrest).
  apply bind_Ok in Hrest as (t' & h3 & Hsum & Hret).
  unfold ret in Hret. injection Hret as -> -> ->.
  unfold dijkstra_path in Hdij. injection Hdij as Hdij <-.
  rewrite sum_durations_spec in Hsum.
  destruct (path_duration h1 G p) as [s|] eqn:Es; [|done].
  injection Hsum as <- <-. exists G_neg. by rewrite Z.add_0_l in *.
Qed.

(** C6: when the finder succeeds, the sequence it returns begins with the
    start task and ends with the end task. *)
Theorem critical_path_endpoints G h p t h' :
  find_critical_path G h = (Ok (p, t), h') ->
  exists mid, p = "Start" :: mid ++ ["End"].
Proof.
  intros (G_neg & _ & Hdij & _)%find_critical_path_Ok.
  apply dijkstra_path_fuel_sound in Hdij as [Hpath _].
  by apply path_to_shape in Hpath.
Qed.

(** C7: when the finder succeeds, no task name occurs twice in the returned
    sequence, and the returned total is the sum of the durations of the
    listed tasks, so each task's duration is counted once. *)
Theorem critical_path_counts_once G h p t h' :
  find_critical_path G h = (Ok (p, t), h') ->
  NoDup p /\ path_duration h' G p = Some t.
Proof.
  intros (G_neg & _ & Hdij & Hsum)%find_critical_path_Ok.
  by apply dijkstra_path_fuel_sound in Hdij as [_ Hnd].
Qed.

(** ** What the finder can raise *)

Section Raises.
Context (E : exn -> Prop) (HKey : E KeyError).

Lemma only_bind {A B} (m : M A) (k : A -> M B) :
  raises_only E m -> (forall a, raises_only E (k a)) ->
  raises_only E (bind m k).
Proof.
  intros Hm Hk h e. unfold bind. specialize (Hm h).
  destruct (m h) as [[a|e'|] h1]; simpl in *; [apply Hk| |done].
  intros [= ->]. by apply Hm.
Qed.

Lemma only_ret {A} (a : A) : raises_only E (ret a).
Proof. by intros h e. Qed.

Lemma only_raise_key {A} : raises_only E (@raise A KeyError).
Proof. by intros h e [= <-]. Qed.

Lemma only_alloc d : raises_only E (alloc d).
Proof. by intros h e. Qed.

Lemma only_read l : raises_only E (read l).
Proof. by intros h e. Qed.

Lemma only_update l d : raises_only E (update l d).
Proof. by intros h e. Qed.

Lemma only_setitem l k v : raises_only E (setitem l k v).
Proof. by intros h e. Qed.

Lemma only_getitem l k : raises_only E (getitem l k).
Proof.
  intros h e. unfold getitem. destruct (_ !! _); [done|]. by intros [= <-].
Qed.

Lemma only_node_attr G n k : raises_only E (node_attr G n k).
Proof.
  unfold node_attr.
  destruct (assoc _ _); [apply only_getitem|apply only_raise_key].
Qed.

Ltac only_step :=
  repeat first
    [ apply only_bind; [|intros ?]
    | apply only_ret | apply only_raise_key | apply only_alloc
    | apply only_read | apply only_update | apply only_setitem
    | apply only_getitem | apply only_node_attr
    | assumption
    | match goal with
      | |- raises_only _ (match ?x with _ => _ end) => destruct x
      end ].

Lemma only_ensure_node G n : raises_only E (ensure_node G n).
Proof. unfold ensure_node. only_step. Qed.

Lemma only_add_node G n d : raises_only E (add_node G n d).
Proof.
  unfold add_node. apply only_bind; [apply only_ensure_node|intros G'].
  only_step.
Qed.

Lemma only_add_edge G u v dd : raises_only E (add_edge G u v dd).
Proof.
  unfold add_edge. apply only_bind; [apply only_ensure_node|intros G1].
  apply only_bind; [apply only_ensure_node|intros G2]. only_step.
Qed.

Lemma only_copy_nodes ns : forall G, raises_only E (copy_nodes G ns).
Proof.
  induction ns as [|[n l] ns IH]; intros G; simpl; [apply only_ret|].
  apply only_bind; [apply only_read|intros d].
  apply only_bind; [apply only_add_node|intros G'']. apply IH.
Qed.

Lemma only_copy_edges es : forall G, raises_only E (copy_edges G es).
Proof.
  induction es as [|[[u v] l] es IH]; intros G; simpl; [apply only_ret|].
  apply only_bind; [apply only_read|intros d].
  apply only_bind; [apply only_add_edge|intros G'']. apply IH.
Qed.

Lemma only_set_weights G es : raises_only E (set_weights G es).
Proof.
  induction es as [|[[u v] l] es IH]; simpl; [apply only_ret|].
  apply only_bind; [apply only_node_attr|intros d].
  apply only_bind; [apply only_setitem|intros []]. apply IH.
Qed.

Lemma only_negated_copy G : raises_only E (negated_copy G).
Proof.
  unfold negated_copy, copy. apply only_bind; [|intros G_neg].
  - apply only_bind; [apply only_copy_nodes|intros G1].
    apply only_copy_edges.
  - apply only_bind; [apply only_set_weights|intros []]. apply only_ret.
Qed.

Lemma only_sum_durations G path : forall acc,
  raises_only E (sum_durations G acc path).
Proof.
  induction path as [|n p IH]; intros acc; simpl; [apply only_ret|].
  apply only_bind; [apply only_node_attr|intros d]. apply IH.
Qed.
End Raises.

Lemma relax_raises h v nbrs : forall st e,
  relax h v nbrs st = Raise e -> e = KeyError \/ e = ValueError.
Proof.
  induction nbrs as [|[u d] nbrs IH]; intros st e; simpl; [done|].
  destruct (dist st !! v); [|intros [= <-]; by left].
  destruct (dist st !! u).
  { destruct (_ <? _); [intros [= <-]; by right|apply IH]. }
  destruct (match seen st !! u with
            | Some seen_u => _ | None => true end); [|apply IH].
  destruct (paths st !! v); [apply IH|intros [= <-]; by left].
Qed.

Lemma dijkstra_loop_raises fuel h G target : forall st e,
  dijkstra_loop fuel h G target st = Raise e ->
  e = KeyError \/ e = ValueError.
Proof.
  induction fuel as [|fuel IH]; intros st e; simpl; [done|].
  destruct (heappop (fringe st)) as [[[[d n] v] fr]|]; [|done].
  destruct (dist st !! v); [apply IH|].
  destruct (String.eqb v target); [done|].
  destruct (assoc v (_adj G)) as [nbrs|]; [|intros [= <-]; by left].
  destruct (relax h v nbrs _) as [st3|e'|] eqn:Erel; [apply IH| |done].
  intros [= ->]. by apply relax_raises in Erel.
Qed.

Lemma only_dijkstra_path G s t : raises_only finder_exn (dijkstra_path G s t).
Proof.
  intros h e.
  change ((dijkstra_path G s t h).1)
    with (dijkstra_path_fuel (dijkstra_budget G) G s t h).
  generalize (dijkstra_budget G). intros fuel.
  unfold dijkstra_path_fuel, finder_exn.
  destruct (negb _); [intros [= <-]; tauto|].
  destruct (String.eqb _ _); [done|].
  destruct (dijkstra_loop _ _ _ _ _) as [st|e'|] eqn:Eloop; [| |done].
  - destruct (dist st !! t), (paths st !! t); try done;
      intros [= <-]; tauto.
  - intros [= ->]. apply dijkstra_loop_raises in Eloop. tauto.
Qed.

Lemma only_find_critical_path G :
  raises_only finder_exn (find_critical_path G).
Proof.
  assert (HKey : finder_exn KeyError) by (unfold finder_exn; tauto).
  unfold find_critical_path.
  apply only_bind; [by apply only_negated_copy|intros G_neg].
  apply only_bind; [apply only_dijkstra_path|intros path].
  apply only_bind; [by apply only_sum_durations|intros t].
  apply only_ret.
Qed.

(** C3 as the code has it: on every graph, cyclic or not, the finder
    terminates; it returns a path with its total or raises one of four
    exceptions of the library, [NodeNotFound], [NetworkXNoPath],
    [ValueError] or [KeyError], and there is no cycle check among them. *)
Theorem find_critical_path_terminates G h :
  (exists p t, (find_critical_path G h).1 = Ok (p, t)) \/
  (exists e, (find_critical_path G h).1 = Raise e /\
     (e = NodeNotFound \/ e = NetworkXNoPath \/ e = ValueError \/
      e = KeyError)).
Proof.
  pose proof (total_find_critical_path G h) as Hoof.
  pose proof (only_find_critical_path G h) as Honly.
  destruct (find_critical_path G h).1 as [[p t]|e|]; [left|right|done].
  - eauto.
  - exists e. split; [done|]. by apply Honly.
Qed.

(** ** The finder leaves the caller's dictionaries alone *)

Section Frame.
Context (n0 : nat).

Lemma framed_bind {A B} (m : M A) (k : A -> M B) Q R :
  framed n0 m Q -> (forall a, Q a -> framed n0 (k a) R) ->
  framed n0 (bind m k) R.
Proof.
  intros Hm Hk h Hh. destruct (Hm h Hh) as (Ht & Hl & HQ). unfold bind.
  destruct (m h) as [[a|e|] h1]; simpl in *; [|done|done].
  destruct (Hk a (HQ a eq_refl) h1 Hl) as (Ht' & Hl' & HR).
  split; [congruence|]. done.
Qed.

Lemma framed_weaken {A} (m : M A) (Q R : A -> Prop) :
  framed n0 m Q -> (forall a, Q a -> R a) -> framed n0 m R.
Proof.
  intros Hm HQR h Hh. destruct (Hm h Hh) as (? & ? & HQ). naive_solver.
Qed.

Lemma framed_ret {A} (a : A) (Q : A -> Prop) : Q a -> framed n0 (ret a) Q.
Proof. intros HQ h Hh. simpl. split; [done|]. split; [done|]. by intros ? [= <-]. Qed.

Lemma framed_raise {A} e (Q : A -> Prop) : framed n0 (raise e) Q.
Proof. by intros h Hh. Qed.

Lemma framed_alloc d : framed n0 (alloc d) (fun l => (n0 <= l)%nat).
Proof.
  intros h Hh. simpl. rewrite take_app_le, length_app by done.
  split; [done|]. split; [lia|]. by intros ? [= <-].
Qed.

Lemma framed_read l : framed n0 (read l) (fun _ => True).
Proof. by intros h Hh. Qed.

Lemma framed_update l d :
  (n0 <= l)%nat -> framed n0 (update l d) (fun _ => True).
Proof.
  intros Hl h Hh. simpl. rewrite take_insert_ge, length_insert by done. done.
Qed.

Lemma framed_setitem l k v :
  (n0 <= l)%nat -> framed n0 (setitem l k v) (fun _ => True).
Proof.
  intros Hl h Hh. simpl. rewrite take_insert_ge, length_insert by done. done.
Qed.

Lemma framed_getitem l k : framed n0 (getitem l k) (fun _ => True).
Proof. intros h Hh. unfold getitem. by destruct (_ !! _). Qed.

Lemma framed_node_attr G n k : framed n0 (node_attr G n k) (fun _ => True).
Proof.
  unfold node_attr. destruct (assoc _ _);
    [apply framed_getitem|apply framed_raise].
Qed.

Lemma Forall_assoc_set {V} (P : node * V -> Prop) k v l :
  Forall P l -> P (k, v) -> Forall P (assoc_set k v l).
Proof.
  intros Hl Hkv. induction Hl as [|[k' v'] l Hx Hl IH]; simpl.
  - by constructor.
  - destruct (String.eqb k k'); by constructor.
Qed.

Lemma Forall_assoc {V} (P : node * V -> Prop) k v l :
  Forall P l -> assoc k l = Some v -> P (k, v).
Proof.
  intros Hl Ha%assoc_Some_elem. rewrite Forall_forall in Hl. by apply Hl.
Qed.

Lemma handles_from_empty : handles_from n0 empty_graph.
Proof. split; constructor. Qed.

Lemma framed_ensure_node G n :
  handles_from n0 G -> framed n0 (ensure_node G n) (handles_from n0).
Proof.
  intros [Hn Ha]. unfold ensure_node. destruct (assoc n (_adj G)).
  { by apply framed_ret. }
  eapply framed_bind; [apply framed_alloc|]. intros l Hl.
  apply framed_ret. split; simpl; apply Forall_assoc_set; auto.
Qed.

Lemma framed_add_node G n d :
  handles_from n0 G -> framed n0 (add_node G n d) (handles_from n0).
Proof.
  intros HG. unfold add_node.
  eapply framed_bind; [by apply framed_ensure_node|]. intros G' HG'.
  destruct (assoc n (_node G')) as [l|] eqn:El; [|apply framed_raise].
  eapply framed_bind; [|intros _ _; by apply framed_ret].
  apply framed_update. destruct HG' as [Hn _].
  apply (Forall_assoc _ _ _ _ Hn El).
Qed.

Lemma framed_add_edge G u v dd :
  handles_from n0 G -> framed n0 (add_edge G u v dd) (handles_from n0).
Proof.
  intros HG. unfold add_edge.
  eapply framed_bind; [by apply framed_ensure_node|]. intros G1 HG1.
  eapply framed_bind; [by apply framed_ensure_node|]. intros G2 [Hn Ha].
  destruct (assoc u (_adj G2)) as [nbrs|] eqn:Eu; [|apply framed_raise].
  pose proof (Forall_assoc _ _ _ _ Ha Eu) as Hnbrs. simpl in Hnbrs.
  eapply framed_bind with (Q := fun l => (n0 <= l)%nat).
  { destruct (assoc v nbrs) as [e|] eqn:Ev; [|apply framed_alloc].
    apply framed_ret. apply (Forall_assoc _ _ _ _ Hnbrs Ev). }
  intros e He. eapply framed_bind; [by apply framed_update|]. intros _ _.
  apply framed_ret. split; simpl; [done|].
  apply Forall_assoc_set; [done|]. simpl. by apply Forall_assoc_set.
Qed.

Lemma framed_copy_nodes ns : forall G,
  handles_from n0 G -> framed n0 (copy_nodes G ns) (handles_from n0).
Proof.
  induction ns as [|[n l] ns IH]; intros G HG; simpl.
  { by apply framed_ret. }
  eapply framed_bind; [apply framed_read|]. intros d _.
  eapply framed_bind; [by apply framed_add_node|]. auto.
Qed.

Lemma framed_copy_edges es : forall G,
  handles_from n0 G -> framed n0 (copy_edges G es) (handles_from n0).
Proof.
  induction es as [|[[u v] l] es IH]; intros G HG; simpl.
  { by apply framed_ret. }
  eapply framed_bind; [apply framed_read|]. intros d _.
  eapply framed_bind; [by apply framed_add_edge|]. auto.
Qed.

Lemma framed_copy G : framed n0 (copy G) (handles_from n0).
Proof.
  unfold copy. eapply framed_bind.
  - apply framed_copy_nodes, handles_from_empty.
  - intros G1 HG1. by apply framed_copy_edges.
Qed.

Lemma framed_set_weights G es :
  Forall (fun x => (n0 <= x.2)%nat) es ->
  framed n0 (set_weights G es) (fun _ => True).
Proof.
  induction 1 as [|[[u v] data] es Hx Hes IH]; simpl.
  { by apply framed_ret. }
  eapply framed_bind; [apply framed_node_attr|]. intros d _.
  eapply framed_bind; [by apply framed_setitem|]. auto.
Qed.

Lemma handles_from_edges G :
  handles_from n0 G -> Forall (fun x => (n0 <= x.2)%nat) (edges G).
Proof.
  intros [_ Ha]. unfold edges. induction Ha as [|[u nbrs] adj Hx Ha IH]; simpl.
  { constructor. }
  apply Forall_app. split; [|done]. simpl in Hx.
  induction Hx as [|[v e] nbrs Hy Hx IHx]; simpl; by constructor.
Qed.

Lemma framed_negated_copy G : framed n0 (negated_copy G) (handles_from n0).
Proof.
  unfold negated_copy. eapply framed_bind; [apply framed_copy|].
  intros G_neg HG. eapply framed_bind.
  - by apply framed_set_weights, handles_from_edges.
  - intros _ _. by apply framed_ret.
Qed.

Lemma framed_sum_durations G p : forall acc,
  framed n0 (sum_durations G acc p) (fun _ => True).
Proof.
  induction p as [|n p IH]; intros acc; simpl.
  { by apply framed_ret. }
  eapply framed_bind; [apply framed_node_attr|]. auto.
Qed.

Lemma framed_find_critical_path G :
  framed n0 (find_critical_path G) (fun _ => True).
Proof.
  unfold find_critical_path.
  eapply framed_bind; [apply framed_negated_copy|]. intros G_neg _.
  eapply framed_bind with (Q := fun _ => True).
  { by intros h Hh. }
  intros path _. eapply framed_bind; [apply framed_sum_durations|].
  intros t _. by apply framed_ret.
Qed.
End Frame.

(** C9: the finder does not mutate its input.  It calls no mutator on [G],
    whose tables are the value [G] throughout, and every attribute
    dictionary that was in the store before the call is in the same place
    with the same contents after it: the store only grows, by the
    dictionaries of the internal copy, and the weights are written there.
    In particular every task has the duration it had. *)
Theorem find_critical_path_preserves_input G h :
  h `prefix_of` (find_critical_path G h).2 /\
  forall n d, duration_of h G n = Some d ->
    duration_of (find_critical_path G h).2 G n = Some d.
Proof.
  destruct (framed_find_critical_path (length h) G h) as (Ht & Hl & _); [done|].
  rewrite (take_ge h) in Ht by done.
  assert (Hpre : h `prefix_of` (find_critical_path G h).2).
  { rewrite <- Ht at 1. apply prefix_take. }
  split; [done|]. intros n d. unfold duration_of.
  destruct (assoc n (_node G)) as [l|]; simpl; [|done].
  unfold dict_at. destruct (h !! l) as [x|] eqn:Ex; simpl.
  - by rewrite (prefix_lookup_Some _ _ _ _ Ex Hpre).
  - by rewrite lookup_empty.
Qed.

(** ** Edges, ranks and cycles *)

Lemma successor_edge G u v : successor G u v -> (u, v) ∈ edge_pairs G.
Proof.
  intros (nbrs & Ha%assoc_Some_elem & Hv). unfold edge_pairs, edges.
  apply list_elem_of_fmap in Hv as [[v' e] [-> Hve]].
  apply list_elem_of_fmap. exists (u, v', e). split; [done|].
  apply list_elem_of_In, in_flat_map. exists (u, nbrs).
  split; [by apply list_elem_of_In|].
  apply list_elem_of_In, list_elem_of_fmap. by exists (v', e).
Qed.

Lemma path_to_target G s t p :
  path_to G s t p -> t = s \/ t ∈ (edge_pairs G).*2.
Proof.
  destruct 1 as [|v u p _ Hs]; [by left|right].
  apply successor_edge in Hs. apply list_elem_of_fmap. by exists (v, u).
Qed.

Lemma ranked_path G rank s t p :
  ranked G rank -> path_to G s t p -> (rank s <= rank t)%nat.
Proof.
  intros Hr. induction 1 as [|v u p _ IH Hs]; [done|].
  apply successor_edge in Hs. unfold ranked in Hr.
  rewrite Forall_forall in Hr. specialize (Hr _ Hs). simpl in Hr. lia.
Qed.

Lemma ranked_acyclic G rank : ranked G rank -> ~ cyclic G.
Proof.
  intros Hr (u & v & Hs & p & Hp).
  pose proof (ranked_path _ _ _ _ _ Hr Hp) as Hle.
  apply successor_edge in Hs. unfold ranked in Hr.
  rewrite Forall_forall in Hr. specialize (Hr _ Hs). simpl in Hr. lia.
Qed.

(** ** The finder on concrete graphs *)

Lemma pair_of_fst {A B} (x : A * B) (a : A) : x.1 = a -> x = (a, x.2).
Proof. destruct x. simpl. by intros ->. Qed.

Lemma build_task_graph : build tasks task_edges [] = (Ok G_task, h_task).
Proof. unfold h_task. apply pair_of_fst. vm_compute. reflexivity. Qed.

Lemma build_two_route :
  build two_route_tasks two_route_edges [] = (Ok G_two_route, h_two_route).
Proof. unfold h_two_route. apply pair_of_fst. vm_compute. reflexivity. Qed.

Lemma build_cycle : build cycle_tasks cycle_edges [] = (Ok G_cycle, h_cycle).
Proof. unfold h_cycle. apply pair_of_fst. vm_compute. reflexivity. Qed.

Lemma build_cut : build cut_tasks cut_edges [] = (Ok G_cut, h_cut).
Proof. unfold h_cut. apply pair_of_fst. vm_compute. reflexivity. Qed.

(** C1 fails on the code.  The graph has the two routes Start -> A -> End
    (durations 0, 1, 0) and Start -> B -> End (durations 0, 5, 0); it is
    acyclic, with one start and one end task of duration 0.  The finder
    returns the first route with total 1, although the second is a path
    from start to end with total 5. *)
Theorem critical_path_not_longest :
  build two_route_tasks two_route_edges [] = (Ok G_two_route, h_two_route) /\
  ~ cyclic G_two_route /\
  (find_critical_path G_two_route h_two_route).1
    = Ok (["Start"; "A"; "End"], 1) /\
  path_to G_two_route "Start" "End" ["Start"; "B"; "End"] /\
  path_duration h_two_route G_two_route ["Start"; "B"; "End"] = Some 5.
Proof.
  split; [exact build_two_route|]. split; [|split; [|split]].
  - apply (ranked_acyclic _
      (rank_of [("Start", 0); ("A", 1); ("B", 1); ("End", 2)]%nat)).
    unfold ranked. vm_compute. repeat constructor.
  - vm_compute. reflexivity.
  - apply (path_snoc _ _ "B" "End" ["Start"; "B"]).
    + apply (path_snoc _ _ "Start" "B" ["Start"]); [constructor|].
      exists [("A", 4%nat); ("B", 5%nat)]. split; [reflexivity|].
      simpl. right. left.
    + exists [("End", 7%nat)]. split; [reflexivity|]. simpl. left.
  - vm_compute. reflexivity.
Qed.

(** C2: on the script's 23 tasks and 26 edges the finder returns a total
    of 94, and its sequence lists Calendar Rubber Sheets, then Injection
    Molding Operation, then Paint & Finishing. *)
Theorem critical_path_of_dataset :
  length tasks = 23%nat /\ length task_edges = 26%nat /\
  exists G h p l1 l2 l3 l4,
    build tasks task_edges [] = (Ok G, h) /\
    (find_critical_path G h).1 = Ok (p, 94) /\
    p = l1 ++ "Calendar Rubber Sheets" :: l2 ++
        "Injection Molding Operation" :: l3 ++ "Paint & Finishing" :: l4.
Proof.
  split; [reflexivity|]. split; [reflexivity|].
  exists G_task, h_task,
    ["Start"; "Create Work Order"; "Process Rubber Blending"; "Mill Rubber";
     "Calendar Rubber Sheets"; "Assemble Components for Injection Molding";
     "Injection Molding Operation"; "Bond Testing"; "Paint & Finishing";
     "Final Inspection"; "Packaging"; "Shipping"; "End"],
    ["Start"; "Create Work Order"; "Process Rubber Blending"; "Mill Rubber"],
    ["Assemble Components for Injection Molding"],
    ["Bond Testing"],
    ["Final Inspection"; "Packaging"; "Shipping"; "End"].
  split; [exact build_task_graph|]. split; [|reflexivity].
  vm_compute. reflexivity.
Qed.

(** C3 as stated fails: this graph has the cycle A -> B -> A, and the
    finder returns a path and a total for it. *)
Lemma cyclic_graph_gets_a_path :
  build cycle_tasks cycle_edges [] = (Ok G_cycle, h_cycle) /\
  cyclic G_cycle /\
  (find_critical_path G_cycle h_cycle).1 = Ok (["Start"; "A"; "End"], 3).
Proof.
  split; [exact build_cycle|]. split; [|vm_compute; reflexivity].
  exists "A", "B". split.
  - exists [("End", 5%nat); ("B", 6%nat)]. split; [reflexivity|].
    simpl. right. left.
  - exists ["B"; "A"]. apply (path_snoc _ _ "B" "A" ["B"]); [constructor|].
    exists [("A", 7%nat)]. split; [reflexivity|]. simpl. left.
Qed.

(** C4 fails on the code.  In this graph no edge enters the end task, so
    it cannot be reached from the start task; the finder does fail, but
    with the search's [ValueError] (B, settled after A, offers A a shorter
    distance through its negated duration) and not with the no-path
    error. *)
Theorem unreachable_end_raises_value_error :
  build cut_tasks cut_edges [] = (Ok G_cut, h_cut) /\
  ~ reachable G_cut "Start" "End" /\
  (find_critical_path G_cut h_cut).1 = Raise ValueError.
Proof.
  split; [exact build_cut|]. split; [|vm_compute; reflexivity].
  intros [p Hp]. apply path_to_target in Hp as [[=]|Hin].
  vm_compute in Hin. repeat (apply elem_of_cons in Hin as [[=]|Hin]).
  by apply elem_of_nil in Hin.
Qed.

(** C6 on the script's graph. *)
Lemma critical_path_endpoints_witness :
  exists mid,
    ["Start"; "Create Work Order"; "Process Rubber Blending"; "Mill Rubber";
     "Calendar Rubber Sheets"; "Assemble Components for Injection Molding";
     "Injection Molding Operation"; "Bond Testing"; "Paint & Finishing";
     "Final Inspection"; "Packaging"; "Shipping"; "End"]
    = "Start" :: mid ++ ["End"].
Proof.
  apply (critical_path_endpoints G_task h_task _ 94
           (find_critical_path G_task h_task).2).
  apply pair_of_fst. vm_compute. reflexivity.
Defined.

(** C7 on the script's graph. *)
Lemma critical_path_counts_once_witness :
  NoDup
    ["Start"; "Create Work Order"; "Process Rubber Blending"; "Mill Rubber";
     "Calendar Rubber Sheets"; "Assemble Components for Injection Molding";
     "Injection Molding Operation"; "Bond Testing"; "Paint & Finishing";
     "Final Inspection"; "Packaging"; "Shipping"; "End"] /\
  path_duration (find_critical_path G_task h_task).2 G_task
    ["Start"; "Create Work Order"; "Process Rubber Blending"; "Mill Rubber";
     "Calendar Rubber Sheets"; "Assemble Components for Injection Molding";
     "Injection Molding Operation"; "Bond Testing"; "Paint & Finishing";
     "Final Inspection"; "Packaging"; "Shipping"; "End"] = Some 94.
Proof.
  apply (critical_path_counts_once G_task h_task _ 94
           (find_critical_path G_task h_task).2).
  apply pair_of_fst. vm_compute. reflexivity.
Defined.

(** ** The traversal *)

Lemma neighbors_successor G n nb c :
  neighbors G n = Ok nb -> c ∈ nb -> successor G n c.
Proof.
  unfold neighbors. destruct (assoc n (_adj G)) as [nbrs|] eqn:E; [|done].
  intros [= <-] Hc. by exists nbrs.
Qed.

Lemma bfs_children_inv G source parent children : forall st st',
  (forall c, c ∈ children -> successor G parent c) ->
  bfs_inv G source st ->
  bfs_children G parent children st = Ok st' ->
  bfs_inv G source st'.
Proof.
  induction children as [|child children IH]; intros st st' Hch Hinv; simpl.
  { by intros [= <-]. }
  assert (Hch' : forall c, c ∈ children -> successor G parent c).
  { intros c Hc. apply Hch. by right. }
  destruct (decide (child ∈ bfs_seen st)) as [Hseen|Hnew]; [by apply IH|].
  destruct (neighbors G child) as [nb| |] eqn:Enb; [|done|done].
  apply IH; [done|]. destruct Hinv as [Hnd Hts Hss Hst Hye Hne].
  constructor; simpl.
  - rewrite fmap_app. apply NoDup_app. split; [done|].
    split; [|apply NoDup_singleton].
    intros x Hx ->%list_elem_of_singleton. auto.
  - intros v. rewrite fmap_app, elem_of_app. simpl.
    rewrite list_elem_of_singleton.
    intros [Hv| ->]; [apply elem_of_union_r; auto|].
    apply elem_of_union_l. by apply elem_of_singleton.
  - by apply elem_of_union_r.
  - rewrite fmap_app.
    intros [Hv| ->%list_elem_of_singleton]%elem_of_app; [done|]. auto.
  - intros e [He| ->%list_elem_of_singleton]%elem_of_app; [auto|].
    apply Hch. left.
  - intros pc c [Hpc| ->%list_elem_of_singleton]%elem_of_app Hc; [auto|].
    by eapply neighbors_successor.
Qed.

Lemma bfs_level_inv G source n this : forall st b st',
  (forall pc c, pc ∈ this -> c ∈ pc.2 -> successor G pc.1 c) ->
  bfs_inv G source st ->
  bfs_level G n this st = Ok (b, st') ->
  bfs_inv G source st'.
Proof.
  induction this as [|[parent children] this IH]; intros st b st' Hthis Hinv;
    simpl.
  { by intros [= <- <-]. }
  destruct (bfs_children G parent children st) as [st1| |] eqn:Ech;
    [|done|done].
  apply bfs_children_inv with (source := source) in Ech; [|  |done].
  2:{ intros c Hc. apply (Hthis (parent, children) c); [left|done]. }
  destruct (_ =? _)%nat; [by intros [= <- <-]|].
  apply IH; [|done]. intros pc c Hpc. apply Hthis. by right.
Qed.

Lemma bfs_while_inv G source n remaining : forall st es,
  bfs_inv G source st ->
  bfs_while G n remaining st = Ok es ->
  NoDup es.*2 /\ (source ∉ es.*2) /\
  forall e, e ∈ es -> successor G e.1 e.2.
Proof.
  induction remaining as [|remaining IH]; intros st es Hinv; simpl.
  { intros [= <-]. by destruct Hinv. }
  destruct (next_parents_children st) as [|pc this] eqn:Enext.
  { intros [= <-]. by destruct Hinv. }
  intros Hrun.
  assert (Hrun' :
    match bfs_level G n (pc :: this)
            (mkBFS (bfs_seen st) [] (yielded st)) with
    | Ok (true, st') => Ok (yielded st')
    | Ok (false, st') => bfs_while G n remaining st'
    | Raise e => Raise e
    | OutOfFuel => OutOfFuel
    end = Ok es) by exact Hrun.
  clear Hrun. destruct (bfs_level G n (pc :: this) _) as [[b st1]| |] eqn:Elev;
    [|done|done].
  apply bfs_level_inv with (source := source) in Elev.
  - destruct b; [|by eapply IH]. injection Hrun' as <-. by destruct Elev.
  - intros pc' c' Hpc'. rewrite <- Enext in Hpc'.
    by apply (bfs_next_edges _ _ _ Hinv).
  - destruct Hinv. constructor; simpl; try done. intros ? ? []%elem_of_nil.
Qed.

(** C10: the edges returned by the breadth-first traversal have pairwise
    distinct targets and none of them targets the start node, so a node is
    entered by at most one returned edge and an edge into a node that was
    already visited is never returned; every returned edge is an edge of
    the graph. *)
Theorem bfs_one_edge_per_node G start es :
  perform_bfs G start = Ok es ->
  NoDup es.*2 /\ (start ∉ es.*2) /\ forall e, e ∈ es -> e ∈ edge_pairs G.
Proof.
  unfold perform_bfs, bfs_edges.
  destruct (neighbors G start) as [nb| |] eqn:Enb; [|done|done].
  intros Hrun. apply bfs_while_inv with (source := start) in Hrun.
  - destruct Hrun as (Hnd & Hs & He). split; [done|]. split; [done|].
    intros [u v] Huv. apply successor_edge. by apply (He (u, v)).
  - constructor; simpl.
    + constructor.
    + intros v []%elem_of_nil.
    + set_solver.
    + intros []%elem_of_nil.
    + intros e []%elem_of_nil.
    + intros pc c ->%list_elem_of_singleton Hc.
      by eapply neighbors_successor.
Qed.

(** C10 on the script's graph: 22 edges, one into each task but the start,
    out of the 26 edges of the graph. *)
Lemma bfs_one_edge_per_node_witness :
  NoDup bfs_of_dataset.*2 /\ ("Start" ∉ bfs_of_dataset.*2) /\
  forall e, e ∈ bfs_of_dataset -> e ∈ edge_pairs G_task.
Proof.
  apply (bfs_one_edge_per_node G_task "Start" bfs_of_dataset).
  vm_compute. reflexivity.
Defined.

(** ** The copy: same tables, new dictionaries *)

Lemma bind_eq {A B} (m : M A) (k : A -> M B) h a h1 :
  m h = (Ok a, h1) -> bind m k h = k a h1.
Proof. unfold bind. by intros ->. Qed.

Lemma assoc_set_new {V} k (v : V) l :
  k ∉ l.*1 -> assoc_set k v l = l ++ [(k, v)].
Proof.
  induction l as [|[k' v'] l IH]; simpl; [done|].
  intros [Hne Hl]%not_elem_of_cons.
  destruct (String.eqb_spec k k'); [done|]. by rewrite IH.
Qed.

Lemma assoc_set_middle {V} k (v v' : V) l1 l2 :
  k ∉ l1.*1 -> assoc_set k v' (l1 ++ (k, v) :: l2) = l1 ++ (k, v') :: l2.
Proof.
  induction l1 as [|[k1 v1] l1 IH]; simpl.
  - intros _. by rewrite String.eqb_refl.
  - intros [Hne Hl]%not_elem_of_cons.
    destruct (String.eqb_spec k k1); [done|]. by rewrite IH.
Qed.

Lemma assoc_middle {V} k (v : V) l1 l2 :
  k ∉ l1.*1 -> assoc k (l1 ++ (k, v) :: l2) = Some v.
Proof.
  induction l1 as [|[k1 v1] l1 IH]; simpl.
  - intros _. by rewrite String.eqb_refl.
  - intros [Hne Hl]%not_elem_of_cons.
    destruct (String.eqb_spec k k1); [done|]. by rewrite IH.
Qed.

Lemma assoc_assoc_set {V} k (v : V) l : assoc k (assoc_set k v l) = Some v.
Proof.
  induction l as [|[k' v'] l IH]; simpl.
  - by rewrite String.eqb_refl.
  - destruct (String.eqb_spec k k') as [->|Hne]; simpl.
    + by rewrite String.eqb_refl.
    + destruct (String.eqb_spec k k'); [done|]. exact IH.
Qed.

Lemma assoc_set_keys {V} k (v : V) l j :
  is_Some (assoc j l) -> is_Some (assoc j (assoc_set k v l)).
Proof.
  induction l as [|[k' v'] l IH]; simpl; [by intros [? [=]]|].
  destruct (String.eqb_spec k k') as [->|Hne]; simpl.
  - destruct (String.eqb j k'); eauto.
  - destruct (String.eqb j k'); eauto.
Qed.

Lemma assoc_set_twice {V} k (v v' : V) l :
  assoc_set k v' (assoc_set k v l) = assoc_set k v' l.
Proof.
  induction l as [|[k1 v1] l IH]; simpl.
  - by rewrite String.eqb_refl.
  - destruct (String.eqb_spec k k1) as [->|Hne]; simpl.
    + by rewrite String.eqb_refl.
    + destruct (String.eqb_spec k k1); [done|]. by rewrite IH.
Qed.

Lemma dict_at_app_l (h ext : store) l :
  (l < length h)%nat -> dict_at (h ++ ext) l = dict_at h l.
Proof. intros Hl. unfold dict_at. by rewrite lookup_app_l. Qed.

Lemma update_new (h : store) d :
  update (length h) d (h ++ [∅]) = (Ok tt, h ++ [d]).
Proof.
  unfold update, dict_at.
  rewrite lookup_app_r, Nat.sub_diag by done. simpl.
  rewrite (right_id_L ∅ (∪)).
  replace (length h) with (length h + 0)%nat at 1 by lia.
  by rewrite insert_app_r.
Qed.

Lemma ensure_node_old G n h :
  is_Some (assoc n (_adj G)) -> ensure_node G n h = (Ok G, h).
Proof. unfold ensure_node. by intros [? ->]. Qed.

Lemma add_node_new G n d h :
  n ∉ (_adj G).*1 -> n ∉ (_node G).*1 ->
  add_node G n d h =
    (Ok (mkDiGraph (_node G ++ [(n, length h)]) (_adj G ++ [(n, [])])),
     h ++ [d]).
Proof.
  intros Ha Hn. unfold add_node, ensure_node.
  rewrite (proj2 (assoc_None _ _) Ha).
  unfold bind at 1 2. simpl. rewrite assoc_assoc_set.
  unfold bind. rewrite update_new, !assoc_set_new by done. done.
Qed.

Lemma add_edge_new G u v dd cur h :
  assoc u (_adj G) = Some cur -> is_Some (assoc v (_adj G)) ->
  v ∉ cur.*1 ->
  add_edge G u v dd h =
    (Ok (mkDiGraph (_node G)
           (assoc_set u (cur ++ [(v, length h)]) (_adj G))),
     h ++ [dd]).
Proof.
  intros Hu Hv Hcur. unfold add_edge.
  rewrite (bind_eq _ _ _ _ _ (ensure_node_old G u h ltac:(by rewrite Hu))).
  rewrite (bind_eq _ _ _ _ _ (ensure_node_old G v h Hv)).
  rewrite Hu, (proj2 (assoc_None _ _) Hcur).
  unfold bind at 1. simpl. unfold bind.
  rewrite update_new, (assoc_set_new v _ cur) by done. done.
Qed.

Lemma copy_nodes_spec h0 ns : forall acc_n acc_a ext,
  acc_a.*1 = acc_n.*1 -> NoDup (acc_n.*1 ++ ns.*1) ->
  Forall (fun x : node * loc => (x.2 < length h0)%nat) ns ->
  copy_nodes (mkDiGraph acc_n acc_a) ns (h0 ++ ext) =
    (Ok (mkDiGraph (acc_n ++ relabel (length (h0 ++ ext)) ns)
                   (acc_a ++ map (fun x => (x.1, [])) ns)),
     (h0 ++ ext) ++ map (fun x => dict_at h0 x.2) ns).
Proof.
  induction ns as [|[n l] ns IH]; intros acc_n acc_a ext Hkeys Hnd Hh; simpl.
  { by rewrite !app_nil_r. }
  apply Forall_cons in Hh as [Hl Hh]. simpl in Hl.
  assert (Hn : n ∉ acc_n.*1).
  { intros Hin. apply NoDup_app in Hnd as (_ & Hdisj & _).
    apply (Hdisj n Hin). left. }
  unfold bind at 1. unfold read. rewrite dict_at_app_l by done.
  rewrite (bind_eq _ _ _ _ _
    (add_node_new (mkDiGraph acc_n acc_a) n _ _
       ltac:(by simpl; rewrite Hkeys) Hn)).
  simpl. rewrite <- (app_assoc h0 ext).
  rewrite IH; [| |  |done].
  - replace (length (h0 ++ ext ++ [dict_at h0 l]))
      with (S (length (h0 ++ ext))) by (rewrite !length_app; simpl; lia).
    by rewrite <- !app_assoc.
  - rewrite !fmap_app, Hkeys. done.
  - rewrite fmap_app, <- app_assoc. exact Hnd.
Qed.

Lemma assoc_set_same {V} k (v : V) l : assoc k l = Some v -> assoc_set k v l = l.
Proof.
  induction l as [|[k' v'] l IH]; simpl; [done|].
  destruct (String.eqb_spec k k') as [->|Hne].
  - by intros [= ->].
  - intros Ha. by rewrite IH.
Qed.

Lemma copy_row_spec h0 u nbrs : forall cur G' ext rest,
  assoc u (_adj G') = Some cur ->
  NoDup (cur.*1 ++ nbrs.*1) ->
  (forall v, v ∈ nbrs.*1 -> is_Some (assoc v (_adj G'))) ->
  Forall (fun y : node * loc => (y.2 < length h0)%nat) nbrs ->
  copy_edges G' (map (fun '(v, e) => (u, v, e)) nbrs ++ rest) (h0 ++ ext) =
  copy_edges
    (mkDiGraph (_node G')
       (assoc_set u (cur ++ relabel (length (h0 ++ ext)) nbrs) (_adj G')))
    rest ((h0 ++ ext) ++ map (fun y => dict_at h0 y.2) nbrs).
Proof.
  induction nbrs as [|[v e] nbrs IH]; intros cur G' ext rest Hu Hnd Hkeys Hh;
    simpl.
  { rewrite !app_nil_r, (assoc_set_same _ _ _ Hu). by destruct G'. }
  apply Forall_cons in Hh as [He Hh]. simpl in He.
  assert (Hv : v ∉ cur.*1).
  { intros Hin. apply NoDup_app in Hnd as (_ & Hdisj & _).
    apply (Hdisj v Hin). left. }
  unfold bind at 1. unfold read. rewrite dict_at_app_l by done.
  rewrite (bind_eq _ _ _ _ _
    (add_edge_new G' u v _ cur _ Hu (Hkeys v ltac:(left)) Hv)).
  rewrite <- (app_assoc h0 ext).
  rewrite (IH (cur ++ [(v, length (h0 ++ ext))])); simpl.
  - rewrite assoc_set_twice.
    replace (length (h0 ++ ext ++ [dict_at h0 e]))
      with (S (length (h0 ++ ext))) by (rewrite !length_app; simpl; lia).
    by rewrite <- !app_assoc.
  - apply assoc_assoc_set.
  - rewrite fmap_app, <- app_assoc. exact Hnd.
  - intros v' Hv'. apply assoc_set_keys, Hkeys. by right.
  - done.
Qed.

Lemma copy_rows_spec h0 nodes names rows : forall done ext,
  NoDup (done.*1 ++ rows.*1) ->
  (forall v, v ∈ names -> v ∈ done.*1 ++ rows.*1) ->
  Forall (fun row : node * list (node * loc) =>
            NoDup row.2.*1 /\ row.2.*1 ⊆ names /\
            Forall (fun y : node * loc => (y.2 < length h0)%nat) row.2) rows ->
  copy_edges (mkDiGraph nodes (done ++ map (fun x => (x.1, [])) rows))
    (adj_edges rows) (h0 ++ ext) =
  (Ok (mkDiGraph nodes (done ++ relabel_adj (length (h0 ++ ext)) rows)),
   (h0 ++ ext) ++ map (fun x => dict_at h0 x.2) (adj_edges rows)).
Proof.
  induction rows as [|[u nbrs] rows IH]; intros done ext Hnd Hnames Hrows;
    simpl.
  { by rewrite !app_nil_r. }
  apply Forall_cons in Hrows as [(Hnbrs & Hsub & Hh) Hrows]. simpl in *.
  assert (Hu : u ∉ done.*1).
  { intros Hin. apply NoDup_app in Hnd as (_ & Hdisj & _).
    apply (Hdisj u Hin). left. }
  rewrite (copy_row_spec h0 u nbrs []); simpl.
  - rewrite assoc_set_middle by done.
    rewrite map_app, <- (app_assoc h0 ext).
    rewrite (cons_middle _ done), app_assoc.
    rewrite IH.
    + rewrite <- !app_assoc. simpl.
      replace (length (h0 ++ ext ++ map (fun y : node * loc => dict_at h0 y.2) nbrs))
        with (length (h0 ++ ext) + length nbrs)%nat
        by (rewrite !length_app, length_map; lia).
      rewrite map_map. do 4 f_equal.
      apply List.map_ext. by intros [v e].
    + rewrite fmap_app, <- app_assoc. exact Hnd.
    + intros v Hv. rewrite fmap_app, <- app_assoc. by apply Hnames.
    + done.
  - by apply assoc_middle.
  - exact Hnbrs.
  - intros v Hv. apply assoc_is_Some.
    rewrite fmap_app, fmap_cons, <- list_fmap_compose. simpl.
    apply Hnames, Hsub, Hv.
  - done.
Qed.

Lemma map_key_const {V W} (c : W) (l : list (node * V)) :
  map (fun x => (x.1, c)) l = map (fun k => (k, c)) l.*1.
Proof. by rewrite <- list_fmap_compose. Qed.

(** [G.copy()] on a well-formed graph: the same tables, each entry with a
    new dictionary that holds what the original one held. *)
Lemma copy_spec h G :
  wf_graph h G ->
  copy G h =
    (Ok (mkDiGraph (relabel (length h) (_node G))
           (relabel_adj (length h + length (_node G)) (_adj G))),
     (h ++ map (fun x => dict_at h x.2) (_node G)) ++
       map (fun x => dict_at h x.2) (edges G)).
Proof.
  intros (Hnd & Hkeys & Hrows & Hh). unfold copy, node_names in *.
  pose proof (copy_nodes_spec h (_node G) [] [] [] eq_refl) as Hn.
  simpl in Hn. rewrite !app_nil_r in Hn.
  rewrite (bind_eq _ _ _ _ _ (Hn Hnd Hh)). clear Hn.
  rewrite map_key_const, <- Hkeys, <- map_key_const.
  pose proof (copy_rows_spec h (relabel (length h) (_node G))
                (_node G).*1 (_adj G) []) as Hr.
  simpl in Hr. unfold edges. fold (adj_edges (_adj G)).
  rewrite Hr; [|by rewrite Hkeys|by intros v; rewrite Hkeys|done].
  by rewrite length_app, length_map.
Qed.

Lemma relabel_keys k l : (relabel k l).*1 = l.*1.
Proof.
  revert k. induction l as [|[x e] l IH]; intros k; simpl; [done|].
  by rewrite IH.
Qed.

Lemma renumber_app k es1 es2 :
  renumber k (es1 ++ es2) = renumber k es1 ++ renumber (k + length es1) es2.
Proof.
  revert k. induction es1 as [|[[u v] e] es1 IH]; intros k; simpl.
  - by rewrite Nat.add_0_r.
  - by rewrite IH, Nat.add_succ_r.
Qed.

Lemma renumber_row k u nbrs :
  map (fun '(v, e) => (u, v, e)) (relabel k nbrs) =
  renumber k (map (fun '(v, e) => (u, v, e)) nbrs).
Proof.
  revert k. induction nbrs as [|[v e] nbrs IH]; intros k; simpl; [done|].
  by rewrite IH.
Qed.

Lemma adj_edges_relabel k adj :
  adj_edges (relabel_adj k adj) = renumber k (adj_edges adj).
Proof.
  revert k. induction adj as [|[u nbrs] adj IH]; intros k; simpl; [done|].
  by rewrite renumber_app, length_map, IH, renumber_row.
Qed.

Lemma renumber_pairs k es : (renumber k es).*1 = es.*1.
Proof.
  revert k. induction es as [|[[u v] e] es IH]; intros k; simpl; [done|].
  by rewrite IH.
Qed.

Lemma renumber_elem k es x :
  x ∈ renumber k es ->
  exists i u v e, es !! i = Some (u, v, e) /\ x = (u, v, (k + i)%nat).
Proof.
  revert k. induction es as [|[[u v] e] es IH]; intros k; simpl.
  { by intros ?%elem_of_nil. }
  intros [->|Hx]%elem_of_cons.
  - exists O, u, v, e. by rewrite Nat.add_0_r.
  - apply IH in Hx as (i & u' & v' & e' & Hi & ->).
    exists (S i), u', v', e'. split; [done|]. f_equal. lia.
Qed.

Lemma node_attr_duration G n h :
  node_attr G n "duration" h =
    (match duration_of h G n with
     | Some d => Ok d
     | None => Raise KeyError
     end, h).
Proof.
  unfold node_attr, duration_of. destruct (assoc n (_node G)) as [l|]; [|done].
  simpl. unfold getitem. by destruct (dict_at h l !! "duration").
Qed.

Lemma duration_of_agree G k (h1 h2 : store) n :
  Forall (fun x : node * loc => (x.2 < k)%nat) (_node G) ->
  (forall l, (l < k)%nat -> h1 !! l = h2 !! l) ->
  duration_of h1 G n = duration_of h2 G n.
Proof.
  intros Hk Hagree. unfold duration_of.
  destruct (assoc n (_node G)) as [l|] eqn:El; [|done]. simpl.
  pose proof (Forall_assoc _ _ _ _ Hk El) as Hl. simpl in Hl.
  unfold dict_at. by rewrite Hagree.
Qed.

(** The weight loop over edges whose dictionaries are the consecutive
    handles from [k] on, all past the handles of [G]'s own nodes. *)
Lemma set_weights_spec G es : forall k (h h' : store),
  Forall (fun x : node * loc => (x.2 < k)%nat) (_node G) ->
  (k + length es <= length h)%nat ->
  set_weights G (renumber k es) h = (Ok tt, h') ->
  length h' = length h /\
  (forall l, (l < k)%nat -> h' !! l = h !! l) /\
  forall i u v e, es !! i = Some (u, v, e) ->
    exists d, duration_of h G u = Some d /\
      dict_at h' (k + i) !! "weight" = Some (- d).
Proof.
  induction es as [|[[u v] e] es IH]; intros k h h' HG Hlen; simpl.
  { intros [= <-]. split; [done|]. split; [done|]. by intros i ? ? ? ?. }
  simpl in Hlen. unfold bind at 1. rewrite node_attr_duration.
  destruct (duration_of h G u) as [d|] eqn:Ed; [|done].
  unfold bind at 1. simpl. intros Hrun.
  apply IH in Hrun as (Hl & Hlow & Hw).
  2:{ eapply Forall_impl; [exact HG|]. simpl. intros; lia. }
  2:{ rewrite length_insert. lia. }
  rewrite length_insert in Hl. split; [done|].
  assert (Hlow' : forall l, (l < k)%nat -> h' !! l = h !! l).
  { intros l Hlk. rewrite Hlow by lia. apply list_lookup_insert_ne. lia. }
  split; [done|]. intros [|i] u' v' e'; simpl.
  - intros [= <- <- <-]. exists d. split; [done|].
    rewrite Nat.add_0_r. unfold dict_at at 1. rewrite Hlow by lia.
    rewrite list_lookup_insert_eq by lia. simpl. apply lookup_insert_eq.
  - intros Hi. destruct (Hw _ _ _ _ Hi) as (d' & Hd' & Hw').
    exists d'. rewrite Nat.add_succ_r. split; [|done].
    rewrite <- Hd'. symmetry. apply (duration_of_agree G k); [done|].
    intros l Hlk. apply list_lookup_insert_ne. lia.
Qed.

(** C5: for a well-formed graph, when the transformation completes, the
    transformed graph has the node names and the edges of the input graph,
    in the same order, and every edge [(u, v)] of it carries the weight
    [- duration(u)], read from the input graph. *)
Theorem negated_copy_same_topology_negated_weights h G G_neg h' :
  wf_graph h G ->
  negated_copy G h = (Ok G_neg, h') ->
  node_names G_neg = node_names G /\
  edge_pairs G_neg = edge_pairs G /\
  forall u v e, (u, v, e) ∈ edges G_neg ->
    exists d, duration_of h G u = Some d /\
      dict_at h' e !! "weight" = Some (- d).
Proof.
  intros Hwf. pose proof Hwf as (_ & _ & _ & Hh).
  unfold negated_copy. rewrite (bind_eq _ _ _ _ _ (copy_spec h G Hwf)).
  intros (x & h2 & Hset & Hret)%bind_Ok. destruct x.
  unfold ret in Hret. injection Hret as <- <-.
  unfold node_names, edge_pairs, edges in *. simpl in *.
  fold (adj_edges (_adj G)) in *.
  fold (adj_edges (relabel_adj (length h + length (_node G)) (_adj G))) in *.
  rewrite adj_edges_relabel in *.
  split; [apply relabel_keys|]. split; [apply renumber_pairs|].
  apply set_weights_spec in Hset as (_ & _ & Hw).
  - intros u v e (i & u' & v' & e' & Hi & [= -> -> ->])%renumber_elem.
    destruct (Hw _ _ _ _ Hi) as (d & Hd & Hwd). exists d. split; [|done].
    rewrite <- Hd. symmetry. apply (duration_of_agree G (length h)); [done|].
    intros l Hl. rewrite <- app_assoc. by apply lookup_app_l.
  - eapply Forall_impl; [exact Hh|]. simpl. intros; lia.
  - rewrite !length_app, !length_map. lia.
Qed.

(** C5 on the script's graph. *)
Lemma negated_copy_same_topology_negated_weights_witness :
  node_names (mkDiGraph (relabel 49 (_node G_task))
                        (relabel_adj 72 (_adj G_task))) = node_names G_task /\
  edge_pairs (mkDiGraph (relabel 49 (_node G_task))
                        (relabel_adj 72 (_adj G_task))) = edge_pairs G_task /\
  forall u v e,
    (u, v, e) ∈ edges (mkDiGraph (relabel 49 (_node G_task))
                                 (relabel_adj 72 (_adj G_task))) ->
    exists d, duration_of h_task G_task u = Some d /\
      dict_at (negated_copy G_task h_task).2 e !! "weight" = Some (- d).
Proof.
  apply (negated_copy_same_topology_negated_weights h_task G_task).
  - apply (bool_decide_unpack _). vm_compute. reflexivity.
  - apply pair_of_fst. vm_compute. reflexivity.
Defined.

(** ** Betweenness on a chain *)


Section Chain.
Context (l : list node) (G : DiGraph) (Hchain : is_chain l G).

Lemma chain_nodup : NoDup l.
Proof. by destruct Hchain. Qed.

Lemma chain_index i j x : l !! i = Some x -> l !! j = Some x -> i = j.
Proof. intros Hi Hj. by apply (NoDup_lookup l i j x chain_nodup). Qed.

Lemma tab_insert {V} (m : gmap node V) f j w v :
  tab l m f -> l !! j = Some w ->
  tab l (<[w := v]> m) (fun i => if decide (i = j) then Some v else f i).
Proof.
  intros Hm Hj i x Hi. destruct (decide (i = j)) as [->|Hne].
  - assert (x = w) as -> by congruence. apply lookup_insert_eq.
  - rewrite lookup_insert_ne; [by apply Hm|].
    intros <-. apply Hne. by apply (chain_index i j w).
Qed.

Lemma tab_ext {V} (m : gmap node V) f g :
  tab l m f -> (forall i, (i < length l)%nat -> f i = g i) -> tab l m g.
Proof.
  intros Hm Hfg i x Hi. rewrite (Hm i x Hi). apply Hfg.
  by apply lookup_lt_Some in Hi.
Qed.

Lemma fromkeys_elem {V} keys (v : V) x :
  x ∈ keys -> fromkeys keys v !! x = Some v.
Proof.
  unfold fromkeys. induction keys as [|k keys IH]; simpl.
  { by intros ?%elem_of_nil. }
  intros Hin. destruct (decide (k = x)) as [->|Hne].
  - apply lookup_insert_eq.
  - rewrite lookup_insert_ne by done. apply IH.
    by apply elem_of_cons in Hin as [->|].
Qed.

Lemma fromkeys_not_elem {V} keys (v : V) x :
  x ∉ keys -> fromkeys keys v !! x = None.
Proof.
  unfold fromkeys. induction keys as [|k keys IH]; simpl.
  { intros _. apply lookup_empty. }
  intros [Hne Hin]%not_elem_of_cons.
  rewrite lookup_insert_ne by done. by apply IH.
Qed.

Lemma tab_fromkeys {V} (v : V) : tab l (fromkeys l v) (fun _ => Some v).
Proof.
  intros i x Hi. apply fromkeys_elem. by eapply list_elem_of_lookup_2.
Qed.

Lemma assoc_map_row x (adj : list (node * list (node * loc))) :
  assoc x (map (fun row : node * list (node * loc) => (row.1, row.2.*1)) adj)
    = (fun nbrs : list (node * loc) => nbrs.*1) <$> assoc x adj.
Proof.
  induction adj as [|[k nbrs] adj IH]; simpl; [done|].
  by destruct (String.eqb x k).
Qed.

Lemma chain_adj_lookup l0 : forall i x,
  l0 !! i = Some x ->
  chain_adj l0 !! i
  = Some (x, match l0 !! S i with Some y => [y] | None => [] end).
Proof.
  induction l0 as [|a l0 IH]; intros i x Hi; [done|].
  destruct i as [|i]; simpl in *.
  - injection Hi as ->. by destruct l0.
  - by apply IH.
Qed.

Lemma chain_succ i x :
  l !! i = Some x ->
  exists nbrs, assoc x (_adj G) = Some nbrs /\
    nbrs.*1 = match l !! S i with Some y => [y] | None => [] end.
Proof.
  intros Hi. destruct Hchain as (_ & _ & Hadj).
  apply (f_equal (fun t => t !! i)) in Hadj.
  rewrite !list_lookup_fmap, Hi, (chain_adj_lookup l i x Hi) in Hadj.
  simpl in Hadj. injection Hadj as Hadj. unfold row_names in Hadj.
  destruct (assoc x (_adj G)) as [nbrs|]; [|done].
  injection Hadj as Hadj. by exists nbrs.
Qed.

Lemma chain_elem x : x ∈ node_names G <-> x ∈ l.
Proof. destruct Hchain as (_ & Hp & _). by rewrite Hp. Qed.

Lemma chain_len : len G = length l.
Proof.
  destruct Hchain as (_ & Hp & _). unfold len.
  rewrite <- (length_fmap fst (_node G)). by apply Permutation_length.
Qed.

Lemma chain_fromkeys {V} (v : V) :
  fromkeys (node_names G) v = fromkeys l v.
Proof.
  apply map_eq. intros x. destruct (decide (x ∈ l)) as [Hx|Hx].
  - rewrite !fromkeys_elem; [done|done|by apply chain_elem].
  - rewrite !fromkeys_not_elem; [done|done|by rewrite chain_elem].
Qed.

Lemma Qc_of_nat_add a b : Qc_of_nat (a + b) = (Qc_of_nat a + Qc_of_nat b)%Qc.
Proof.
  unfold Qc_of_nat, Qcplus. apply Qc_is_canon. simpl.
  rewrite !Qred_correct, Nat2Z.inj_add, inject_Z_plus. reflexivity.
Qed.

(** *** The scores in binary64 *)

Lemma four_mul_le a b n : (a + b <= n -> 4 * (a * b) <= n * n)%nat.
Proof.
  intros H. assert (H2 : ((a + b) * (a + b) <= n * n)%nat).
  { apply Nat.mul_le_mono; exact H. }
  destruct (Nat.le_ge_cases a b) as [Hab|Hab].
  - assert (exists d, b = (a + d)%nat) as [d ->] by (exists (b - a)%nat; lia).
    nia.
  - assert (exists d, a = (b + d)%nat) as [d ->] by (exists (a - b)%nat; lia).
    nia.
Qed.

Import Binary64.

Lemma exact_upto_at B a :
  exact_upto B -> (a <= B)%nat ->
  div (of_nat a) one = of_nat a /\ mul one (of_nat a) = of_nat a /\
  forall b, (a + b <= B)%nat -> add (of_nat a) (of_nat b) = of_nat (a + b).
Proof.
  unfold exact_upto. rewrite Forall_forall. intros HB Ha.
  destruct (HB a) as (Hd & Hm & Hadd); [apply elem_of_seq; lia|].
  split; [done|]. split; [done|]. intros b Hb.
  rewrite Forall_forall in Hadd. apply Hadd, elem_of_seq. lia.
Qed.

Lemma exact_add B a b :
  exact_upto B -> (a + b <= B)%nat ->
  add (of_nat a) (of_nat b) = of_nat (a + b).
Proof.
  intros HB Hab. destruct (exact_upto_at B a HB) as (_ & _ & H); [lia|].
  by apply H.
Qed.

(** [delta[v] += sigma[v] * coeff] with [delta[v] = 0], [sigma[v] = 1.0]
    and [coeff = (1 + delta[w]) / 1.0]. *)
Lemma exact_coeff B d :
  exact_upto B -> (S d <= B)%nat ->
  add zero (mul one (div (add one (of_nat d)) one)) = of_nat (S d).
Proof.
  intros HB Hd. unfold one at 2, zero.
  rewrite (exact_add B 1 d HB) by lia.
  destruct (exact_upto_at B (1 + d) HB) as (-> & -> & _); [lia|].
  by rewrite (exact_add B 0 (1 + d) HB) by lia.
Qed.

Lemma sssp_chain_loop k : forall m j st fuel,
  (j + m = length l - 1)%nat -> (k <= j)%nat -> (S m < fuel)%nat ->
  sssp_at l k j st ->
  exists st', sssp_loop fuel G st = Ok st' /\ sssp_done l k st'.
Proof.
  induction m as [|m IH]; intros j st fuel Hjm Hkj Hfuel
    (HS & (v & Hv & HQ) & HP & Hsig & HD).
  - destruct fuel as [|[|fuel]]; [lia|lia|].
    cbn [sssp_loop]. rewrite HQ.
    rewrite (HD j v Hv), (Hsig j v Hv).
    destruct (chain_succ j v Hv) as (nbrs & -> & Hn).
    pose proof (lookup_lt_Some _ _ _ Hv) as Hlt.
    rewrite (lookup_ge_None_2 l (S j)) in Hn by lia. rewrite Hn.
    rewrite !decide_True by lia. cbn.
    eexists. split; [reflexivity|]. split; [|split]; simpl.
    + rewrite HS. rewrite <- (take_drop (j - k) (drop k l)) at 2.
      f_equal. rewrite drop_drop.
      replace (k + (j - k))%nat with j by lia.
      rewrite (drop_S l v j Hv). rewrite drop_ge by lia. done.
    + eapply tab_ext; [exact HP|]. intros i Hi. simpl.
      destruct (decide (k < i <= j)%nat), (decide (k < i)%nat); try done; lia.
    + eapply tab_ext; [exact Hsig|]. intros i Hi. simpl.
      destruct (decide (k <= i <= j)%nat), (decide (k <= i)%nat); try done; lia.
  - destruct fuel as [|fuel]; [lia|].
    cbn [sssp_loop]. rewrite HQ.
    rewrite (HD j v Hv), (Hsig j v Hv).
    destruct (chain_succ j v Hv) as (nbrs & -> & Hn).
    destruct (l !! S j) as [w|] eqn:Hw.
    2:{ apply lookup_ge_None_1 in Hw. lia. }
    rewrite Hn. rewrite !decide_True by lia.
    cbn [sssp_neighbors sD sS sP sigma sQ].
    rewrite (HD (S j) w Hw). rewrite decide_False by lia.
    cbn [sssp_neighbors sD sS sP sigma sQ].
    rewrite lookup_insert_eq, bool_decide_true by done.
    rewrite (Hsig (S j) w Hw), (HP (S j) w Hw).
    rewrite !decide_False by lia.
    apply (IH (S j)); [lia|lia|lia|].
    split; [|split; [|split; [|split]]]; simpl.
    + rewrite HS. replace (S j - k)%nat with (S (j - k)) by lia.
      rewrite (take_S_r _ _ v); [done|].
      rewrite lookup_drop. by replace (k + (j - k))%nat with j by lia.
    + by exists w.
    + eapply tab_ext; [by apply tab_insert|]. intros i Hi. simpl.
      destruct (decide (i = S j)) as [->|Hne].
      * rewrite decide_True by lia. unfold prev. simpl.
        by rewrite Nat.sub_0_r, Hv.
      * destruct (decide (k < i <= j)%nat), (decide (k < i <= S j)%nat);
          try done; lia.
    + eapply tab_ext; [by apply tab_insert|]. intros i Hi. simpl.
      destruct (decide (i = S j)) as [->|Hne].
      * by rewrite decide_True by lia.
      * destruct (decide (k <= i <= j)%nat), (decide (k <= i <= S j)%nat);
          try done; lia.
    + eapply tab_ext; [by apply tab_insert|]. intros i Hi. simpl.
      destruct (decide (i = S j)) as [->|Hne].
      * rewrite decide_True by lia. f_equal; lia.
      * destruct (decide (k <= i <= j)%nat), (decide (k <= i <= S j)%nat);
          try done; lia.
Qed.

Lemma sssp_chain k s :
  l !! k = Some s ->
  exists st, _single_source_shortest_path_basic G s = Ok st /\ sssp_done l k st.
Proof.
  intros Hk. unfold _single_source_shortest_path_basic.
  rewrite !chain_fromkeys, chain_len.
  pose proof (lookup_lt_Some _ _ _ Hk) as Hlt.
  apply (sssp_chain_loop k (length l - 1 - k) k); [lia|lia|lia|].
  split; [|split; [|split; [|split]]]; simpl.
  - by rewrite Nat.sub_diag.
  - by exists s.
  - eapply tab_ext; [apply tab_fromkeys|]. intros i _. simpl.
    by rewrite decide_False by lia.
  - eapply tab_ext; [apply tab_insert; [apply tab_fromkeys|exact Hk]|].
    intros i _. simpl. destruct (decide (i = k)) as [->|Hne].
    + by rewrite decide_True by lia.
    + by rewrite decide_False by lia.
  - intros i x Hi. destruct (decide (i = k)) as [->|Hne].
    + assert (x = s) as -> by congruence.
      rewrite lookup_singleton_eq, decide_True by lia. f_equal. lia.
    + rewrite decide_False by lia. apply lookup_singleton_ne.
      intros <-. apply Hne. by apply (chain_index i k s).
Qed.

(** The accumulation pass for the source at position [k], from the task at
    position [j = k + m] down to the source. *)
Lemma accumulate_chain_loop B k s P sig :
  exact_upto B -> (length l - 1 <= B)%nat ->
  l !! k = Some s ->
  tab l P (fun i => Some (if decide (k < i)%nat then prev l i else [])) ->
  tab l sig (fun i => Some (if decide (k <= i)%nat then one else zero)) ->
  forall m j w b delta (f : nat -> float),
    j = (k + m)%nat -> l !! j = Some w ->
    delta !! w = Some (of_nat (length l - 1 - j)) ->
    (forall i x, l !! i = Some x -> (k <= i < j)%nat ->
       delta !! x = Some zero) ->
    tab l b (fun i => Some (f i)) ->
    exists b',
      accumulate_loop s P sig (rev (take (S m) (drop k l))) b delta = Ok b' /\
      tab l b' (fun i => Some (if decide (k < i <= j)%nat
                               then add (f i) (of_nat (length l - 1 - i))
                               else f i)).
Proof.
  intros HB HN Hk HP Hsig.
  induction m as [|m IH]; intros j w b delta f Hj Hw Hdw Hlow Hb.
  - rewrite Nat.add_0_r in Hj. subst j.
    assert (w = s) as -> by congruence.
    rewrite (take_S_r _ _ s) by (by rewrite lookup_drop, Nat.add_0_r).
    simpl. rewrite Hdw, (Hsig k s Hk), (HP k s Hk).
    rewrite decide_True, decide_False by lia.
    change (is_zero one) with false. simpl.
    rewrite String.eqb_refl. eexists. split; [reflexivity|].
    eapply tab_ext; [exact Hb|]. intros i _. simpl.
    by rewrite decide_False by lia.
  - pose proof (lookup_lt_Some _ _ _ Hw) as Hlt.
    rewrite (take_S_r _ _ w) by (by rewrite lookup_drop, <- Hj).
    rewrite rev_app_distr. simpl.
    rewrite Hdw, (Hsig j w Hw), (HP j w Hw).
    rewrite !decide_True by lia.
    change (is_zero one) with false.
    unfold prev. destruct (l !! (j - 1)%nat) as [v|] eqn:Hv.
    2:{ apply lookup_ge_None_1 in Hv. lia. }
    cbn [accumulate_preds]. rewrite (Hlow (j - 1)%nat v Hv) by lia.
    rewrite (Hsig (j - 1)%nat v Hv), decide_True by lia.
    assert (Hvw : v <> w).
    { intros ->. pose proof (chain_index _ _ _ Hv Hw). lia. }
    assert (Hws : w <> s).
    { intros ->. pose proof (chain_index _ _ _ Hk Hw). lia. }
    destruct (String.eqb_spec w s) as [|_]; [done|].
    rewrite (Hb j w Hw), lookup_insert_ne, Hdw by done.
    rewrite (exact_coeff B (length l - 1 - j) HB) by lia.
    destruct (IH (j - 1)%nat v
                (<[w := add (f j) (of_nat (length l - 1 - j))]> b)
                (<[v := of_nat (S (length l - 1 - j))]> delta)
                (fun i => if decide (i = j)
                          then add (f j) (of_nat (length l - 1 - j))
                          else f i))
      as (b' & Hrun & Hb'); [lia|done| | | |].
    + rewrite lookup_insert_eq. do 2 f_equal. lia.
    + intros i x Hi Hik. rewrite lookup_insert_ne; [apply (Hlow i x Hi); lia|].
      intros <-. pose proof (chain_index _ _ _ Hv Hi). lia.
    + eapply tab_ext; [by apply tab_insert|]. intros i _. simpl.
      by destruct (decide (i = j)).
    + exists b'. split; [exact Hrun|].
      eapply tab_ext; [exact Hb'|]. intros i _. simpl.
      destruct (decide (i = j)) as [->|Hne].
      * by rewrite decide_False, decide_True by lia.
      * destruct (decide (k < i <= j - 1)%nat), (decide (k < i <= j)%nat);
          try done; lia.
Qed.

Lemma filter_all {A} (P : A -> Prop) `{forall x, Decision (P x)}
    (xs : list A) :
  (forall x, x ∈ xs -> P x) -> filter P xs = xs.
Proof.
  induction xs as [|a xs IH]; intros HP; [done|].
  rewrite filter_cons_True by (apply HP; left).
  f_equal. apply IH. intros x Hx. apply HP. by right.
Qed.

Lemma filter_none {A} (P : A -> Prop) `{forall x, Decision (P x)}
    (xs : list A) :
  (forall x, x ∈ xs -> ~ P x) -> filter P xs = [].
Proof.
  induction xs as [|a xs IH]; intros HP; [done|].
  rewrite filter_cons_False by (apply HP; left).
  apply IH. intros x Hx. apply HP. by right.
Qed.

(** The task at position [k] is among the first [i] tasks of the chain
    exactly when [k < i], and [i] tasks of the chain are. *)
Lemma before_pos k s i : l !! k = Some s -> (s ∈ take i l <-> (k < i)%nat).
Proof.
  intros Hk. rewrite elem_of_take. split.
  - intros (k' & Hk' & Hlt). by rewrite (chain_index k k' s).
  - intros Hlt. by exists k.
Qed.

Lemma before_all i :
  (i <= length l)%nat -> length (filter (fun s => s ∈ take i l) l) = i.
Proof.
  intros Hi. pose proof chain_nodup as Hnd.
  rewrite <- (take_drop i l) in Hnd. apply NoDup_app in Hnd as (_ & Hdis & _).
  transitivity (length (filter (fun s => s ∈ take i l)
                               (take i l ++ drop i l)));
    [by rewrite take_drop|].
  rewrite filter_app, length_app.
  rewrite filter_all by done. rewrite filter_none.
  - rewrite length_take. simpl. lia.
  - intros x Hx Hin. by apply (Hdis x).
Qed.

(** The loop over the sources, in whatever order the graph lists them,
    when the sources [done] have been dealt with. *)
Lemma sources_chain B :
  exact_upto B -> (length l * length l / 4 <= B)%nat ->
  forall srcs done b,
    done ++ srcs ≡ₚ l ->
    tab l b (fun i => Some (of_nat
      (length (filter (fun s => s ∈ take i l) done) * (length l - 1 - i)))) ->
    exists b',
      betweenness_sources G srcs b = Ok b' /\
      tab l b' (fun i => Some (of_nat (i * (length l - 1 - i)))).
Proof.
  intros HB HN. induction srcs as [|s srcs IH]; intros done b Hperm Hb.
  - rewrite app_nil_r in Hperm. exists b. split; [done|].
    eapply tab_ext; [exact Hb|]. intros i Hi. simpl.
    rewrite Hperm, before_all by lia. done.
  - assert (Hs : s ∈ l).
    { rewrite <- Hperm. apply elem_of_app. right. left. }
    apply list_elem_of_lookup_1 in Hs as [k Hk].
    pose proof (lookup_lt_Some _ _ _ Hk) as Hlt.
    pose proof (Permutation_length Hperm) as Hlen.
    rewrite length_app in Hlen. simpl in Hlen.
    destruct (lookup_lt_is_Some_2 l (length l - 1) ltac:(lia)) as [w Hw].
    cbn [betweenness_sources].
    destruct (sssp_chain k s Hk) as (st & -> & HS & HP & Hsig).
    unfold _accumulate_basic. rewrite HS.
    rewrite <- (take_ge (drop k l) (S (length l - 1 - k)))
      by (rewrite length_drop; lia).
    assert (HN1 : (length l - 1 <= B)%nat).
    { etransitivity; [|exact HN]. apply Nat.div_le_lower_bound; [done|].
      pose proof (four_mul_le (length l - 1) 1 (length l)).
      pose proof (four_mul_le (length l - 2) 2 (length l)). nia. }
    destruct (accumulate_chain_loop B k s (sP st) (sigma st) HB HN1
                Hk HP Hsig (length l - 1 - k) (length l - 1) w b
                (fromkeys (take (S (length l - 1 - k)) (drop k l)) zero)
                (fun i => of_nat
                   (length (filter (fun s => s ∈ take i l) done)
                    * (length l - 1 - i))))
      as (b' & -> & Hb'); [lia|done| | |done|].
    + rewrite Nat.sub_diag. apply fromkeys_elem.
      rewrite take_ge by (rewrite length_drop; lia).
      apply (list_elem_of_lookup_2 _ (length l - 1 - k)).
      rewrite lookup_drop. by replace (k + (length l - 1 - k))%nat
        with (length l - 1)%nat by lia.
    + intros i x Hi Hki. apply fromkeys_elem.
      rewrite take_ge by (rewrite length_drop; lia).
      apply (list_elem_of_lookup_2 _ (i - k)).
      rewrite lookup_drop. by replace (k + (i - k))%nat with i by lia.
    + apply (IH (done ++ [s])); [by rewrite <- app_assoc|].
      eapply tab_ext; [exact Hb'|]. intros i Hi. simpl. f_equal.
      rewrite filter_app, length_app.
      destruct (decide (k < i <= length l - 1)%nat) as [Hin|Hout].
      * assert (Hsi : s ∈ take i l) by (apply (before_pos k); [done|lia]).
        pose proof (before_all i ltac:(lia)) as Hc.
        rewrite <- Hperm, filter_app, length_app in Hc.
        rewrite filter_cons_True in Hc by done. simpl in Hc.
        rewrite (filter_all _ [s]) by (by intros x ->%list_elem_of_singleton).
        assert (Him : (i + (length l - 1 - i) <= length l)%nat) by lia.
        set (c := length (filter (fun s0 => s0 ∈ take i l) done)) in *.
        set (m := (length l - 1 - i)%nat) in *.
        assert (Hci : (c + 1 <= i)%nat) by lia.
        clearbody c m.
        assert (Hcm : (c * m + m <= length l * length l / 4)%nat).
        { apply Nat.div_le_lower_bound; [done|].
          pose proof (four_mul_le i m (length l) Him).
          assert (c * m + m <= i * m)%nat by nia. lia. } rewrite (exact_add B _ _ HB) by lia.
        f_equal. simpl. nia.
      * rewrite (filter_none _ [s]).
        2:{ intros x ->%list_elem_of_singleton Hx.
            apply (before_pos k) in Hx; [|done]. lia. }
        simpl. by rewrite Nat.add_0_r.
Qed.

Lemma chain_scores B :
  exact_upto B -> (length l * length l / 4 <= B)%nat -> (3 <= length l)%nat ->
  exists b, betweenness_centrality G = Ok b /\
    forall i x, l !! i = Some x -> b !! x = Some (chain_score (length l) i).
Proof.
  intros HB HN H3. unfold betweenness_centrality.
  rewrite chain_fromkeys, chain_len.
  destruct (sources_chain B HB HN (node_names G) [] (fromkeys l zero))
    as (b & Hrun & Hb).
  { destruct Hchain as (_ & Hp & _). done. }
  { eapply tab_ext; [apply tab_fromkeys|]. by intros i _. }
  rewrite Hrun. eexists. split; [reflexivity|].
  intros i x Hi. unfold _rescale.
  destruct (Nat.leb_spec (length l) 2) as [|_]; [lia|].
  rewrite lookup_fmap, (Hb i x Hi). reflexivity.
Qed.
End Chain.

Lemma scaling_strict_lt B s a b :
  Binary64.scaling_strict B s -> (a < b <= B)%nat ->
  Binary64.ltb (Binary64.mul (Binary64.of_nat a) s)
               (Binary64.mul (Binary64.of_nat b) s) = true.
Proof.
  unfold Binary64.scaling_strict. rewrite Forall_forall. intros HB Hab.
  specialize (HB a ltac:(apply elem_of_seq; lia)).
  rewrite Forall_forall in HB. apply HB, elem_of_seq. lia.
Qed.

(** Binary64 is adequate for every chain of three to sixteen tasks. *)
Lemma adequate_small n : (3 <= n <= 16)%nat -> Binary64.adequate n.
Proof.
  intros Hn.
  assert (Hall : Forall Binary64.adequate (seq 3 14)).
  { unfold Binary64.adequate. apply (bool_decide_unpack _).
    vm_compute. reflexivity. }
  rewrite Forall_forall in Hall. apply Hall, elem_of_seq. lia.
Qed.




Lemma Qc_of_nat_lt a b : (a < b)%nat -> (Qc_of_nat a < Qc_of_nat b)%Qc.
Proof.
  intros Hab. unfold Qclt, Qc_of_nat. simpl. rewrite !Qred_correct.
  unfold Qlt. simpl. lia.
Qed.

(** ** An unreachable end task *)

Lemma relabel_adj_names k adj :
  map (fun row : node * list (node * loc) => (row.1, row.2.*1))
      (relabel_adj k adj)
  = map (fun row : node * list (node * loc) => (row.1, row.2.*1)) adj.
Proof.
  revert k. induction adj as [|[u nbrs] adj IH]; intros k; simpl; [done|].
  by rewrite relabel_keys, IH.
Qed.

Lemma successor_same_names G1 G2 u v :
  map (fun row : node * list (node * loc) => (row.1, row.2.*1)) (_adj G1)
  = map (fun row : node * list (node * loc) => (row.1, row.2.*1)) (_adj G2) ->
  successor G1 u v -> successor G2 u v.
Proof.
  intros Hadj (nbrs & Hu & Hv).
  pose proof (assoc_map_row u (_adj G1)) as H1.
  rewrite Hadj, assoc_map_row, Hu in H1. simpl in H1.
  destruct (assoc u (_adj G2)) as [nbrs2|] eqn:E2; [|done].
  simpl in H1. injection H1 as H1. exists nbrs2. split; [done|].
  by rewrite H1.
Qed.

Lemma path_to_same_names G1 G2 s t p :
  map (fun row : node * list (node * loc) => (row.1, row.2.*1)) (_adj G1)
  = map (fun row : node * list (node * loc) => (row.1, row.2.*1)) (_adj G2) ->
  path_to G1 s t p -> path_to G2 s t p.
Proof.
  intros Hadj. induction 1 as [|v u p Hp IH Hs]; [constructor|].
  eapply path_snoc; [exact IH|]. by eapply successor_same_names.
Qed.

(** Whatever the finder raises when the end task cannot be reached, it
    never returns a path then. *)
Lemma unreachable_end_never_a_path h G p t h' :
  wf_graph h G -> ~ reachable G "Start" "End" ->
  find_critical_path G h <> (Ok (p, t), h').
Proof.
  intros Hwf Hun (G_neg & Hneg & Hdij & _)%find_critical_path_Ok.
  apply dijkstra_path_fuel_sound in Hdij as [Hpath _].
  apply Hun. exists p. eapply path_to_same_names; [|exact Hpath].
  unfold negated_copy in Hneg.
  rewrite (bind_eq _ _ _ _ _ (copy_spec h G Hwf)) in Hneg.
  apply bind_Ok in Hneg as (x & h2 & _ & Hret).
  unfold ret in Hret. injection Hret as <- _. simpl.
  apply relabel_adj_names.
Qed.

(** * Further properties *)

(** ** The builder *)

Lemma wf_graph_longer (h h' : store) G :
  wf_graph h G -> (length h <= length h')%nat -> wf_graph h' G.
Proof.
  intros (Hnd & Hk & Hrows & Hn) Hle. split; [done|]. split; [done|].
  split.
  - eapply Forall_impl; [exact Hrows|]. intros row (? & ? & Hh).
    split; [done|]. split; [done|].
    eapply Forall_impl; [exact Hh|]. simpl. intros; lia.
  - eapply Forall_impl; [exact Hn|]. simpl. intros; lia.
Qed.

Lemma wf_adj_key h G n :
  wf_graph h G -> (is_Some (assoc n (_adj G)) <-> n ∈ node_names G).
Proof. intros (_ & Hk & _). by rewrite assoc_is_Some, Hk. Qed.

Lemma wf_node_key h G n :
  wf_graph h G -> (is_Some (assoc n (_node G)) <-> n ∈ node_names G).
Proof. intros _. by rewrite assoc_is_Some. Qed.

Lemma adj_edges_app a1 a2 : adj_edges (a1 ++ a2) = adj_edges a1 ++ adj_edges a2.
Proof. unfold adj_edges. by rewrite flat_map_app. Qed.

Lemma assoc_app_l {V} k (l1 l2 : list (node * V)) :
  is_Some (assoc k l1) -> assoc k (l1 ++ l2) = assoc k l1.
Proof.
  induction l1 as [|[k' v] l1 IH]; simpl; [by intros [? [=]]|].
  destruct (String.eqb k k'); [done|]. exact IH.
Qed.

Lemma duration_of_snoc h G n x l :
  n ∈ node_names G ->
  duration_of h (mkDiGraph (_node G ++ [(x, l)]) (_adj G ++ [(x, [])])) n
  = duration_of h G n.
Proof.
  intros Hn. unfold duration_of. simpl.
  by rewrite assoc_app_l by (by apply assoc_is_Some).
Qed.

Lemma duration_of_longer (h ext : store) G n :
  wf_graph h G -> duration_of (h ++ ext) G n = duration_of h G n.
Proof.
  intros (_ & _ & _ & Hn). unfold duration_of.
  destruct (assoc n (_node G)) as [l|] eqn:El; [|done]. simpl.
  pose proof (Forall_assoc _ _ _ _ Hn El) as Hl. simpl in Hl.
  by rewrite dict_at_app_l.
Qed.

(** [ensure_node] on a graph in good order: nothing changes for a node
    that is there; a new node comes last, with an empty dictionary. *)
Lemma ensure_node_ok h G n :
  graph_ok h G ->
  exists G' h',
    ensure_node G n h = (Ok G', h') /\ graph_ok h' G' /\
    (length h <= length h')%nat /\
    (forall x, x ∈ node_names G' <-> x ∈ node_names G \/ x = n) /\
    edge_pairs G' = edge_pairs G /\
    (forall x, x ∈ node_names G -> duration_of h' G' x = duration_of h G x) /\
    (n ∉ node_names G -> duration_of h' G' n = None).
Proof.
  intros [Hwf Hh]. destruct (decide (n ∈ node_names G)) as [Hin|Hnew].
  - exists G, h. rewrite ensure_node_old by (by eapply wf_adj_key).
    split; [done|]. split; [done|]. split; [done|].
    split; [|by split]. intros x. split; [by left|]. by intros [| ->].
  - pose proof Hwf as (Hnd & Hk & Hrows & Hn).
    exists (mkDiGraph (_node G ++ [(n, length h)]) (_adj G ++ [(n, [])])),
           (h ++ [∅]).
    split.
    { unfold ensure_node. rewrite (proj2 (assoc_None _ _)) by (by rewrite Hk).
      unfold bind, alloc, ret. by rewrite !assoc_set_new by (by rewrite ?Hk). }
    assert (Hwf' : wf_graph h G) by done.
    apply (wf_graph_longer h (h ++ [∅])) in Hwf';
      [|rewrite length_app; simpl; lia].
    destruct Hwf' as (_ & _ & Hrows' & Hn').
    split; [split; [split; [|split; [|split]]|]|]; unfold node_names in *;
      simpl.
    + rewrite fmap_app. apply NoDup_app. split; [done|].
      split; [|apply NoDup_singleton].
      intros x Hx ->%list_elem_of_singleton. done.
    + by rewrite !fmap_app, Hk.
    + apply Forall_app. split.
      * eapply Forall_impl; [exact Hrows'|]. intros row (? & Hsub & ?).
        split; [done|]. split; [|done]. intros x Hx. rewrite fmap_app.
        apply elem_of_app. left. by apply Hsub.
      * apply Forall_singleton. simpl. split; [constructor|].
        split; [|constructor]. intros x []%elem_of_nil.
    + apply Forall_app. split; [done|]. apply Forall_singleton. simpl.
      rewrite length_app. simpl. lia.
    + rewrite fmap_app. apply NoDup_app. split; [done|].
      split; [|apply NoDup_singleton].
      intros x Hx ->%list_elem_of_singleton.
      apply list_elem_of_fmap in Hx as [[k l0] [Heq Hkl]].
      rewrite Forall_forall in Hn. specialize (Hn _ Hkl). simpl in *. lia.
    + split; [rewrite length_app; simpl; lia|]. split.
      { intros x. rewrite fmap_app, elem_of_app. simpl.
        by rewrite list_elem_of_singleton. }
      split.
      { unfold edge_pairs, edges. simpl. fold (adj_edges (_adj G ++ [(n, [])])).
        rewrite adj_edges_app. simpl. by rewrite app_nil_r. }
      split.
      * intros x Hx. rewrite (duration_of_snoc _ G) by done.
        by apply duration_of_longer.
      * intros _. unfold duration_of. simpl.
        rewrite (assoc_middle n (length h) (_node G) []) by done. simpl.
        unfold dict_at. rewrite lookup_app_r, Nat.sub_diag by done. simpl.
        apply lookup_empty.
Qed.

Lemma handles_inj (l : list (node * loc)) x n e :
  NoDup l.*2 -> (x, e) ∈ l -> (n, e) ∈ l -> x = n.
Proof.
  induction l as [|[k v] l IH]; simpl; [by intros _ ?%elem_of_nil|].
  intros [Hv Hnd]%NoDup_cons Hx Hn.
  apply elem_of_cons in Hx as [Hx|Hx]; apply elem_of_cons in Hn as [Hn|Hn].
  - congruence.
  - injection Hx as -> ->. exfalso. apply Hv.
    apply list_elem_of_fmap. by exists (n, v).
  - injection Hn as -> ->. exfalso. apply Hv.
    apply list_elem_of_fmap. by exists (x, v).
  - by apply IH.
Qed.

Lemma dict_at_insert_ne (h : store) l l' d :
  l <> l' -> dict_at (<[l := d]> h) l' = dict_at h l'.
Proof. intros Hne. unfold dict_at. by rewrite list_lookup_insert_ne. Qed.

Lemma dict_at_insert_eq (h : store) l d :
  (l < length h)%nat -> dict_at (<[l := d]> h) l = d.
Proof. intros Hl. unfold dict_at. by rewrite list_lookup_insert_eq. Qed.

(** [G.add_node(task, duration=d)] after the tasks [ts]. *)
Lemma add_node_built ts h G n d :
  built_from ts [] h G ->
  exists G' h',
    add_node G n {[ "duration" := d ]} h = (Ok G', h') /\
    built_from (ts ++ [(n, d)]) [] h' G'.
Proof.
  intros (Hok & Hnames & Hedges & Hdur).
  destruct (ensure_node_ok h G n Hok)
    as (G' & h' & Hrun & [Hwf' Hh'] & Hlen & Hnames' & Hedges' & Hold & Hnew).
  assert (Hn : n ∈ node_names G') by (apply Hnames'; by right).
  destruct (proj2 (assoc_is_Some n (_node G')) Hn) as [l Hl].
  assert (Hlt : (l < length h')%nat).
  { destruct Hwf' as (_ & _ & _ & Hnh).
    apply (Forall_assoc _ _ _ _ Hnh Hl). }
  exists G', (<[l := {[ "duration" := d ]} ∪ dict_at h' l]> h').
  split.
  { unfold add_node. rewrite (bind_eq _ _ _ _ _ Hrun), Hl. done. }
  split; [split; [|done]|split; [|split]].
  - apply (wf_graph_longer h'); [done|]. by rewrite length_insert.
  - intros x. rewrite Hnames', Hnames, fmap_app, elem_of_app. simpl.
    rewrite list_elem_of_singleton. tauto.
  - intros e. by rewrite Hedges', Hedges.
  - intros x. rewrite reverse_app. simpl.
    destruct (String.eqb_spec x n) as [->|Hne].
    + unfold duration_of. rewrite Hl. simpl.
      rewrite dict_at_insert_eq by done.
      apply lookup_union_Some_l, lookup_singleton_eq.
    + destruct (assoc x (_node G')) as [lx|] eqn:Elx.
      * assert (Hx : x ∈ node_names G).
        { assert (x ∈ node_names G') as [|]%Hnames'
            by (apply assoc_is_Some; eauto); done. }
        rewrite <- Hdur, <- (Hold x Hx). unfold duration_of. rewrite Elx.
        simpl. rewrite dict_at_insert_ne; [done|]. intros <-.
        apply Hne. apply (handles_inj (_node G') x n l Hh');
          by apply assoc_Some_elem.
      * rewrite <- Hdur. unfold duration_of at 1. rewrite Elx. simpl.
        unfold duration_of.
        destruct (assoc x (_node G)) as [l0|] eqn:E0; [|done].
        exfalso. apply assoc_None in Elx. apply Elx, Hnames'. left.
        apply assoc_is_Some. eauto.
Qed.

Lemma assoc_split {V} k (v : V) l :
  assoc k l = Some v ->
  exists l1 l2, l = l1 ++ (k, v) :: l2 /\ k ∉ l1.*1.
Proof.
  induction l as [|[k' v'] l IH]; simpl; [done|].
  destruct (String.eqb_spec k k') as [->|Hne].
  - intros [= ->]. exists [], l. split; [done|]. apply not_elem_of_nil.
  - intros (l1 & l2 & -> & Hk)%IH. exists ((k', v') :: l1), l2.
    split; [done|]. simpl. by apply not_elem_of_cons.
Qed.

Lemma update_empty (h : store) e :
  (e < length h)%nat -> update e ∅ h = (Ok tt, h).
Proof.
  intros He. unfold update. rewrite (left_id_L ∅ (∪)). f_equal.
  apply list_insert_id. unfold dict_at.
  destruct (lookup_lt_is_Some_2 h e He) as [d ->]. done.
Qed.

Lemma ensure_node_duration h G n G' h' x :
  graph_ok h G -> ensure_node G n h = (Ok G', h') ->
  duration_of h' G' x = duration_of h G x.
Proof.
  intros Hok Hrun.
  destruct (ensure_node_ok h G n Hok)
    as (G1 & h1 & Hrun1 & _ & _ & Hnames & _ & Hold & Hnew).
  rewrite Hrun in Hrun1. injection Hrun1 as <- <-.
  destruct (decide (x ∈ node_names G)) as [Hx|Hx]; [by apply Hold|].
  assert (Hnone : duration_of h G x = None).
  { unfold duration_of. by rewrite (proj2 (assoc_None _ _) Hx). }
  rewrite Hnone. destruct (decide (x = n)) as [->|Hne]; [by apply Hnew|].
  unfold duration_of. rewrite (proj2 (assoc_None x (_node G'))); [done|].
  intros [|]%Hnames; done.
Qed.

Lemma edge_pairs_row a1 a2 u (nbrs : list (node * loc)) :
  (adj_edges (a1 ++ (u, nbrs) :: a2)).*1
  = (adj_edges a1).*1 ++ map (fun y : node * loc => (u, y.1)) nbrs
      ++ (adj_edges a2).*1.
Proof.
  rewrite adj_edges_app, fmap_app. f_equal. simpl. rewrite fmap_app. f_equal.
  rewrite <- list_fmap_compose. apply list_fmap_ext. by intros ? [v e].
Qed.

(** One edge [(u, v)] of [G.add_edges_from(edges)] after the tasks [ts]
    and the edges [es]. *)
Lemma add_edge_built ts es h G u v :
  built_from ts es h G ->
  exists G' h',
    add_edge G u v ∅ h = (Ok G', h') /\
    built_from ts (es ++ [(u, v)]) h' G'.
Proof.
  intros (Hok & Hnames & Hedges & Hdur).
  destruct (ensure_node_ok h G u Hok)
    as (G1 & h1 & Hrun1 & Hok1 & _ & Hnames1 & Hedges1 & _).
  destruct (ensure_node_ok h1 G1 v Hok1)
    as (G2 & h2 & Hrun2 & Hok2 & _ & Hnames2 & Hedges2 & _).
  assert (Hdur2 : forall x, duration_of h2 G2 x = assoc x (reverse ts)).
  { intros x. rewrite <- Hdur.
    rewrite (ensure_node_duration h1 G1 v G2 h2 x Hok1 Hrun2).
    apply (ensure_node_duration h G u G1 h1 x Hok Hrun1). }
  assert (Hnames12 : forall x, x ∈ node_names G2 <->
            x ∈ ts.*1 \/ x ∈ (es ++ [(u, v)]).*1 \/ x ∈ (es ++ [(u, v)]).*2).
  { intros x. rewrite Hnames2, Hnames1, Hnames, !fmap_app, !elem_of_app.
    simpl. rewrite !list_elem_of_singleton. tauto. }
  destruct Hok2 as [Hwf2 Hh2]. pose proof Hwf2 as (Hnd & Hk & Hrows & Hnh).
  assert (Hu : u ∈ node_names G2).
  { apply Hnames2. left. apply Hnames1. by right. }
  assert (Hv : v ∈ node_names G2) by (apply Hnames2; by right).
  destruct (proj2 (wf_adj_key h2 G2 u Hwf2) Hu) as [nbrs Hnbrs].
  destruct (assoc_split _ _ _ Hnbrs) as (a1 & a2 & Hadj & Hua1).
  assert (Hrow : NoDup nbrs.*1 /\ nbrs.*1 ⊆ node_names G2 /\
                 Forall (fun y : node * loc => (y.2 < length h2)%nat) nbrs).
  { rewrite Forall_forall in Hrows.
    apply (Hrows (u, nbrs)). by apply assoc_Some_elem. }
  destruct Hrow as (Hrnd & Hrsub & Hrh).
  assert (Hpairs : forall e, e ∈ edge_pairs G2 <-> e ∈ es).
  { intros e. by rewrite Hedges2, Hedges1, Hedges. }
  unfold add_edge.
  rewrite (bind_eq _ _ _ _ _ Hrun1), (bind_eq _ _ _ _ _ Hrun2), Hnbrs.
  destruct (assoc v nbrs) as [e|] eqn:Ev.
  - exists G2, h2. split.
    { unfold bind at 1. simpl. unfold bind.
      rewrite update_empty by (apply (Forall_assoc _ _ _ _ Hrh Ev)).
      rewrite (assoc_set_same _ _ _ Ev), (assoc_set_same _ _ _ Hnbrs).
      by destruct G2. }
    split; [done|]. split; [done|]. split; [|done].
    intros e'. rewrite elem_of_app, list_elem_of_singleton, <- Hpairs.
    split; [by left|]. intros [| ->]; [done|].
    apply successor_edge. exists nbrs. split; [done|].
    apply assoc_is_Some. eauto.
  - apply assoc_None in Ev.
    exists (mkDiGraph (_node G2)
              (a1 ++ (u, nbrs ++ [(v, length h2)]) :: a2)), (h2 ++ [∅]).
    split.
    { unfold bind at 1. simpl. unfold bind. rewrite update_new.
      rewrite (assoc_set_new v _ nbrs) by done.
      by rewrite Hadj, assoc_set_middle. }
    assert (Hwf2' : wf_graph (h2 ++ [∅]) G2).
    { apply (wf_graph_longer h2); [done|]. rewrite length_app. simpl. lia. }
    destruct Hwf2' as (_ & _ & Hrows' & Hnh').
    rewrite Hadj in Hk, Hrows'. apply Forall_app in Hrows' as [Hr1 Hr2].
    apply Forall_cons in Hr2 as [(_ & _ & Hrh') Hr2].
    split; [split; [split; [|split; [|split]]|]|split; [|split]];
      unfold node_names in *; simpl.
    + done.
    + rewrite <- Hk. by rewrite !fmap_app.
    + apply Forall_app. split; [done|]. apply Forall_cons. split; [|done].
      simpl. split; [|split].
      * rewrite fmap_app. apply NoDup_app. split; [done|].
        split; [|apply NoDup_singleton].
        intros x Hx ->%list_elem_of_singleton. done.
      * intros x. rewrite fmap_app, elem_of_app. simpl.
        rewrite list_elem_of_singleton. intros [Hx| ->]; [by apply Hrsub|done].
      * apply Forall_app. split; [done|]. apply Forall_singleton. simpl.
        rewrite length_app. simpl. lia.
    + done.
    + done.
    + done.
    + intros e'. rewrite elem_of_app, list_elem_of_singleton, <- Hpairs.
      unfold edge_pairs, edges. simpl.
      fold (adj_edges (a1 ++ (u, nbrs ++ [(v, length h2)]) :: a2)).
      fold (adj_edges (_adj G2)). rewrite Hadj, !edge_pairs_row, map_app.
      rewrite !elem_of_app. simpl. rewrite list_elem_of_singleton. tauto.
    + intros x. rewrite <- Hdur2.
      exact (duration_of_longer h2 [∅] G2 x Hwf2).
Qed.

Lemma add_nodes_built ts2 : forall ts1 h G,
  built_from ts1 [] h G ->
  exists G' h',
    add_nodes G ts2 h = (Ok G', h') /\ built_from (ts1 ++ ts2) [] h' G'.
Proof.
  induction ts2 as [|[n d] ts2 IH]; intros ts1 h G Hb; simpl.
  { exists G, h. by rewrite app_nil_r. }
  destruct (add_node_built ts1 h G n d Hb) as (G1 & h1 & Hrun & Hb1).
  destruct (IH _ _ _ Hb1) as (G' & h' & Hrun' & Hb').
  exists G', h'. rewrite (bind_eq _ _ _ _ _ Hrun), Hrun'.
  by rewrite <- app_assoc in Hb'.
Qed.

Lemma add_edges_from_built ts es2 : forall es1 h G,
  built_from ts es1 h G ->
  exists G' h',
    add_edges_from G es2 h = (Ok G', h') /\ built_from ts (es1 ++ es2) h' G'.
Proof.
  induction es2 as [|[u v] es2 IH]; intros es1 h G Hb; simpl.
  { exists G, h. by rewrite app_nil_r. }
  destruct (add_edge_built ts es1 h G u v Hb) as (G1 & h1 & Hrun & Hb1).
  destruct (IH _ _ _ Hb1) as (G' & h' & Hrun' & Hb').
  exists G', h'. rewrite (bind_eq _ _ _ _ _ Hrun), Hrun'.
  by rewrite <- app_assoc in Hb'.
Qed.

Lemma built_from_empty : built_from [] [] [] empty_graph.
Proof.
  split; [split; [split; [|split; [|split]]|]|split; [|split]]; simpl;
    try done; try constructor.
  all: try (by intros ?%elem_of_nil).
  by intros [?%elem_of_nil|[?%elem_of_nil|?%elem_of_nil]].
Qed.

Lemma build_built ts es :
  exists G h, build ts es [] = (Ok G, h) /\ built_from ts es h G.
Proof.
  destruct (add_nodes_built ts [] [] empty_graph built_from_empty)
    as (G1 & h1 & Hrun1 & Hb1).
  destruct (add_edges_from_built ts es [] h1 G1 Hb1) as (G & h & Hrun & Hb).
  exists G, h. unfold build. by rewrite (bind_eq _ _ _ _ _ Hrun1).
Qed.

(** X1: building a graph never fails, whatever the task list and the edge
    list hold (repeated names, edges between names that are no tasks), and
    the graph it leaves satisfies networkx's table invariants, each node
    with an attribute dictionary of its own. *)
Theorem build_well_formed ts es :
  exists G h,
    build ts es [] = (Ok G, h) /\ wf_graph h G /\ NoDup (_node G).*2.
Proof.
  destruct (build_built ts es) as (G & h & Hrun & [Hwf Hh] & _).
  by exists G, h.
Qed.

(** X2: the nodes of the built graph are the names that occur as a task or
    as an end of an edge, and its edges are the listed edges. *)
Theorem build_nodes_and_edges ts es :
  exists G h,
    build ts es [] = (Ok G, h) /\
    (forall n, n ∈ node_names G <-> n ∈ ts.*1 \/ n ∈ es.*1 \/ n ∈ es.*2) /\
    (forall e, e ∈ edge_pairs G <-> e ∈ es).
Proof.
  destruct (build_built ts es) as (G & h & Hrun & _ & Hn & He & _).
  by exists G, h.
Qed.

(** X3: a task's duration in the built graph is the one its last entry in
    the task list gives (a repeated name overwrites), and a node that only
    edges mention has no duration. *)
Theorem build_duration_last_wins ts es :
  exists G h,
    build ts es [] = (Ok G, h) /\
    forall n, duration_of h G n = assoc n (reverse ts).
Proof.
  destruct (build_built ts es) as (G & h & Hrun & _ & _ & _ & Hd).
  by exists G, h.
Qed.

(** ** The finder: errors, and what the result depends on *)

Lemma set_weights_fails G es : forall k (h : store) i u v e,
  Forall (fun x : node * loc => (x.2 < k)%nat) (_node G) ->
  es !! i = Some (u, v, e) -> duration_of h G u = None ->
  (set_weights G (renumber k es) h).1 = Raise KeyError.
Proof.
  induction es as [|[[u0 v0] e0] es IH]; intros k h i u v e HG Hi Hu; [done|].
  simpl. unfold bind at 1. rewrite node_attr_duration.
  destruct (duration_of h G u0) as [d|] eqn:Ed; [|done].
  destruct i as [|i]; simpl in Hi; [congruence|].
  unfold bind at 1. simpl.
  apply (IH (S k) _ i u v e); [|done|].
  - eapply Forall_impl; [exact HG|]. simpl. intros; lia.
  - rewrite <- Hu. apply (duration_of_agree G k); [done|].
    intros l Hl. apply list_lookup_insert_ne. lia.
Qed.

Lemma set_weights_succeeds G es : forall k (h : store),
  Forall (fun x : node * loc => (x.2 < k)%nat) (_node G) ->
  (forall i u v e, es !! i = Some (u, v, e) -> is_Some (duration_of h G u)) ->
  exists h', set_weights G (renumber k es) h = (Ok tt, h').
Proof.
  induction es as [|[[u0 v0] e0] es IH]; intros k h HG Hall; simpl.
  { by eexists. }
  unfold bind at 1. rewrite node_attr_duration.
  destruct (Hall O u0 v0 e0 eq_refl) as [d ->].
  unfold bind at 1. simpl. apply IH.
  - eapply Forall_impl; [exact HG|]. simpl. intros; lia.
  - intros i u v e Hi.
    rewrite (duration_of_agree G k _ h); [by apply (Hall (S i) u v e)|done|].
    intros l Hl. apply list_lookup_insert_ne. lia.
Qed.

Lemma edge_pairs_lookup G u v :
  (u, v) ∈ edge_pairs G <-> exists i e, edges G !! i = Some (u, v, e).
Proof.
  unfold edge_pairs. rewrite list_elem_of_fmap. split.
  - intros ([[u' v'] e] & [= <- <-] & (i & Hi)%list_elem_of_lookup_1). eauto.
  - intros (i & e & Hi). exists (u, v, e). split; [done|].
    by eapply list_elem_of_lookup_2.
Qed.

Lemma wf_handles_below h G :
  wf_graph h G ->
  Forall (fun x : node * loc => (x.2 < length h + length (_node G))%nat)
         (_node G).
Proof.
  intros (_ & _ & _ & Hn). eapply Forall_impl; [exact Hn|]. simpl. intros; lia.
Qed.

(** Lines 88-90 on a well-formed graph: what comes out, and where the
    weights are. *)
Lemma negated_copy_shape h G G_neg h' :
  wf_graph h G ->
  negated_copy G h = (Ok G_neg, h') ->
  G_neg = mkDiGraph (relabel (length h) (_node G))
            (relabel_adj (length h + length (_node G)) (_adj G)) /\
  (forall n, duration_of h' G n = duration_of h G n) /\
  forall i u v e, edges G !! i = Some (u, v, e) ->
    exists d, duration_of h G u = Some d /\
      dict_at h' (length h + length (_node G) + i) !! "weight" = Some (- d).
Proof.
  intros Hwf. pose proof Hwf as (_ & _ & _ & Hh).
  unfold negated_copy. rewrite (bind_eq _ _ _ _ _ (copy_spec h G Hwf)).
  intros (x & h2 & Hset & Hret)%bind_Ok. destruct x.
  unfold ret in Hret. injection Hret as <- <-. split; [done|].
  unfold edges in Hset. simpl in Hset.
  fold (adj_edges (relabel_adj (length h + length (_node G)) (_adj G))) in Hset.
  rewrite adj_edges_relabel in Hset. fold (edges G) in Hset.
  apply set_weights_spec in Hset as (_ & Hlow & Hw).
  - assert (Hagree : forall n, duration_of
        ((h ++ map (fun x : node * loc => dict_at h x.2) (_node G)) ++
         map (fun x : node * node * loc => dict_at h x.2) (edges G)) G n
        = duration_of h G n).
    { intros n. apply (duration_of_agree G (length h)); [done|].
      intros l Hl. rewrite <- app_assoc. by apply lookup_app_l. }
    split.
    + intros n. rewrite <- Hagree.
      apply (duration_of_agree G (length h + length (_node G)));
        [by apply wf_handles_below|done].
    + intros i u v e Hi. destruct (Hw _ _ _ _ Hi) as (d & Hd & Hwd).
      exists d. by rewrite <- Hagree.
  - by apply wf_handles_below.
  - rewrite !length_app, !length_map. unfold edges, adj_edges. lia.
Qed.

Lemma bind_Raise {A B} (m : M A) (k : A -> M B) h e :
  (m h).1 = Raise e -> (bind m k h).1 = Raise e.
Proof. unfold bind. destruct (m h) as [[a|e'|] h1]; simpl; congruence. Qed.

Lemma copy_store_agree h G n :
  wf_graph h G ->
  duration_of
    ((h ++ map (fun x : node * loc => dict_at h x.2) (_node G)) ++
     map (fun x : node * node * loc => dict_at h x.2) (edges G)) G n
  = duration_of h G n.
Proof.
  intros (_ & _ & _ & Hh). apply (duration_of_agree G (length h)); [done|].
  intros l Hl. rewrite <- app_assoc. by apply lookup_app_l.
Qed.

Lemma negated_copy_fails h G u v :
  wf_graph h G -> (u, v) ∈ edge_pairs G -> duration_of h G u = None ->
  (negated_copy G h).1 = Raise KeyError.
Proof.
  intros Hwf (i & e & Hi)%edge_pairs_lookup Hu.
  unfold negated_copy. rewrite (bind_eq _ _ _ _ _ (copy_spec h G Hwf)).
  unfold edges at 1. simpl.
  fold (adj_edges (relabel_adj (length h + length (_node G)) (_adj G))).
  rewrite adj_edges_relabel. fold (edges G).
  apply bind_Raise.
  apply (set_weights_fails G (edges G) _ _ i u v e);
    [by apply wf_handles_below|done|].
  by rewrite copy_store_agree.
Qed.

Lemma negated_copy_succeeds h G :
  wf_graph h G -> sources_have_durations h G ->
  exists G_neg h', negated_copy G h = (Ok G_neg, h').
Proof.
  intros Hwf Hall.
  unfold negated_copy. rewrite (bind_eq _ _ _ _ _ (copy_spec h G Hwf)).
  unfold edges at 1. simpl.
  fold (adj_edges (relabel_adj (length h + length (_node G)) (_adj G))).
  rewrite adj_edges_relabel. fold (edges G).
  destruct (set_weights_succeeds G (edges G)
              (length h + length (_node G))
              ((h ++ map (fun x : node * loc => dict_at h x.2) (_node G)) ++
               map (fun x : node * node * loc => dict_at h x.2) (edges G))
              (wf_handles_below h G Hwf)) as (h2 & Hrun).
  - intros i u v e Hi. rewrite copy_store_agree by done.
    unfold sources_have_durations in Hall. rewrite Forall_forall in Hall.
    apply (Hall (u, v)). apply edge_pairs_lookup. eauto.
  - eexists _, h2. by rewrite (bind_eq _ _ _ _ _ Hrun).
Qed.

Lemma path_duration_ext h1 G1 h2 G2 p :
  (forall n, duration_of h1 G1 n = duration_of h2 G2 n) ->
  path_duration h1 G1 p = path_duration h2 G2 p.
Proof.
  intros Hd. induction p as [|n p IH]; simpl; [done|]. by rewrite Hd, IH.
Qed.

Lemma relabel_names k G :
  node_names (mkDiGraph (relabel k (_node G))
                (relabel_adj (k + length (_node G)) (_adj G)))
  = node_names G.
Proof. unfold node_names. simpl. apply relabel_keys. Qed.

(** X4: on a well-formed graph, a path the finder returns follows
    precedence edges of the input graph from start to end, and the total
    is the sum of the durations the input graph gives its tasks. *)
Theorem critical_path_follows_edges h G p t h' :
  wf_graph h G ->
  find_critical_path G h = (Ok (p, t), h') ->
  path_to G "Start" "End" p /\ path_duration h G p = Some t.
Proof.
  intros Hwf (G_neg & Hneg & Hdij & Hsum)%find_critical_path_Ok.
  destruct (negated_copy_shape h G G_neg h' Hwf Hneg) as (-> & Hd & _).
  apply dijkstra_path_fuel_sound in Hdij as [Hpath _]. split.
  - eapply path_to_same_names; [|exact Hpath]. simpl.
    apply relabel_adj_names.
  - rewrite <- Hsum. symmetry. by apply path_duration_ext.
Qed.

(** X4 on the script's graph. *)
Lemma critical_path_follows_edges_witness :
  path_to G_task "Start" "End"
    ["Start"; "Create Work Order"; "Process Rubber Blending"; "Mill Rubber";
     "Calendar Rubber Sheets"; "Assemble Components for Injection Molding";
     "Injection Molding Operation"; "Bond Testing"; "Paint & Finishing";
     "Final Inspection"; "Packaging"; "Shipping"; "End"] /\
  path_duration h_task G_task
    ["Start"; "Create Work Order"; "Process Rubber Blending"; "Mill Rubber";
     "Calendar Rubber Sheets"; "Assemble Components for Injection Molding";
     "Injection Molding Operation"; "Bond Testing"; "Paint & Finishing";
     "Final Inspection"; "Packaging"; "Shipping"; "End"] = Some 94.
Proof.
  apply (critical_path_follows_edges h_task G_task _ 94
           (find_critical_path G_task h_task).2).
  - apply (bool_decide_unpack _). vm_compute. reflexivity.
  - apply pair_of_fst. vm_compute. reflexivity.
Defined.

(** X5: on a well-formed graph whose edges all leave tasks with a
    duration, the finder raises [NodeNotFound] when there is no task named
    Start. *)
Theorem no_start_node_not_found h G :
  wf_graph h G -> sources_have_durations h G ->
  "Start" ∉ node_names G ->
  (find_critical_path G h).1 = Raise NodeNotFound.
Proof.
  intros Hwf Hall Hstart.
  destruct (negated_copy_succeeds h G Hwf Hall) as (G_neg & h' & Hneg).
  destruct (negated_copy_shape h G G_neg h' Hwf Hneg) as (-> & _ & _).
  unfold find_critical_path. rewrite (bind_eq _ _ _ _ _ Hneg).
  apply bind_Raise. unfold dijkstra_path, dijkstra_path_fuel, contains. simpl.
  rewrite bool_decide_false; [done|].
  rewrite assoc_is_Some. simpl. by rewrite relabel_keys.
Qed.

(** X5 on a graph without a start task: A (1) -> End (0). *)
Lemma no_start_node_not_found_witness :
  (find_critical_path
     (mkDiGraph [("A", 0%nat); ("End", 1%nat)]
                [("A", [("End", 2%nat)]); ("End", [])])
     [ {[ "duration" := 1 ]}; {[ "duration" := 0 ]}; ∅ ]).1
  = Raise NodeNotFound.
Proof.
  apply no_start_node_not_found.
  - apply (bool_decide_unpack _). vm_compute. reflexivity.
  - apply (bool_decide_unpack _). vm_compute. reflexivity.
  - apply (bool_decide_unpack _). vm_compute. reflexivity.
Defined.

Lemma missing_duration_key_error_aux h G u v :
  wf_graph h G -> (u, v) ∈ edge_pairs G -> duration_of h G u = None ->
  (find_critical_path G h).1 = Raise KeyError.
Proof.
  intros Hwf Huv Hu. unfold find_critical_path.
  apply bind_Raise. by apply (negated_copy_fails h G u v).
Qed.

(** X6: on a well-formed graph, the finder raises [KeyError] as soon as
    some edge leaves a task that has no duration: line 90 reads it for
    every edge before any search starts. *)
Theorem missing_duration_key_error h G u v :
  wf_graph h G -> (u, v) ∈ edge_pairs G -> duration_of h G u = None ->
  (find_critical_path G h).1 = Raise KeyError.
Proof.
  intros Hwf Huv Hu. unfold find_critical_path.
  apply bind_Raise. by apply (negated_copy_fails h G u v).
Qed.

(** X6 on Start -> End where Start has an empty attribute dictionary. *)
Lemma missing_duration_key_error_witness :
  (find_critical_path
     (mkDiGraph [("Start", 0%nat); ("End", 1%nat)]
                [("Start", [("End", 2%nat)]); ("End", [])])
     [ ∅; {[ "duration" := 0 ]}; ∅ ]).1
  = Raise KeyError.
Proof.
  apply (missing_duration_key_error _ _ "Start" "End").
  - apply (bool_decide_unpack _). vm_compute. reflexivity.
  - apply (bool_decide_unpack _). vm_compute. reflexivity.
  - vm_compute. reflexivity.
Defined.

(** X7: an edge whose source is not in the task list makes the whole run
    fail: the builder creates that node without a duration, and the finder
    then raises [KeyError]. *)
Theorem edge_from_unknown_task_key_error ts es u v :
  (u, v) ∈ es -> u ∉ ts.*1 ->
  run_built ts es find_critical_path = Raise KeyError.
Proof.
  intros Huv Hu.
  destruct (build_built ts es) as (G & h & Hrun & [Hwf _] & _ & He & Hd).
  unfold run_built. rewrite (bind_eq _ _ _ _ _ Hrun).
  apply (missing_duration_key_error_aux h G u v Hwf).
  - by apply He.
  - rewrite Hd. apply assoc_None. rewrite fmap_reverse.
    by rewrite elem_of_reverse.
Qed.

(** X7 on the tasks Start, End and the edge Ghost -> End. *)
Lemma edge_from_unknown_task_key_error_witness :
  run_built [("Start", 0); ("End", 0)] [("Ghost", "End")] find_critical_path
  = Raise KeyError.
Proof.
  apply (edge_from_unknown_task_key_error _ _ "Ghost" "End").
  - apply (bool_decide_unpack _). vm_compute. reflexivity.
  - apply (bool_decide_unpack _). vm_compute. reflexivity.
Defined.

(** ** The search reads the graph through its weighted successor table *)

Lemma assoc_fmap_row {V W} (f : V -> W) k (l : list (node * V)) :
  assoc k (map (fun row : node * V => (row.1, f row.2)) l) = f <$> assoc k l.
Proof.
  induction l as [|[k' v] l IH]; simpl; [done|].
  by destruct (String.eqb k k').
Qed.

Lemma relax_weighted h1 h2 v nbrs1 : forall nbrs2 st,
  map (fun y : node * loc => (y.1, weight_of h1 y.2)) nbrs1
  = map (fun y : node * loc => (y.1, weight_of h2 y.2)) nbrs2 ->
  relax h1 v nbrs1 st = relax h2 v nbrs2 st.
Proof.
  induction nbrs1 as [|[u1 e1] nbrs1 IH]; intros [|[u2 e2] nbrs2] st Heq;
    simpl in *; try done.
  injection Heq as -> -> Heq.
  destruct (dist st !! v); [|done].
  destruct (dist st !! u2); [destruct (_ <? _); [done|by apply IH]|].
  match goal with |- context [if ?b then _ else _] => destruct b end;
    [|by apply IH].
  destruct (paths st !! v); [by apply IH|done].
Qed.

Lemma dijkstra_loop_weighted h1 G1 h2 G2 target fuel : forall st,
  weighted h1 G1 = weighted h2 G2 ->
  dijkstra_loop fuel h1 G1 target st = dijkstra_loop fuel h2 G2 target st.
Proof.
  intros st Hw. revert st. induction fuel as [|fuel IH]; intros st; [done|].
  simpl. destruct (heappop (fringe st)) as [[[[d k] v] fr]|]; [|done].
  destruct (dist st !! v); [apply IH|].
  destruct (String.eqb v target); [done|].
  pose proof (assoc_fmap_row
    (map (fun y : node * loc => (y.1, weight_of h1 y.2))) v (_adj G1)) as H1.
  pose proof (assoc_fmap_row
    (map (fun y : node * loc => (y.1, weight_of h2 y.2))) v (_adj G2)) as H2.
  fold (weighted h1 G1) in H1. fold (weighted h2 G2) in H2.
  rewrite Hw, H2 in H1.
  destruct (assoc v (_adj G1)) as [nbrs1|], (assoc v (_adj G2)) as [nbrs2|];
    simpl in H1; try done.
  injection H1 as H1. rewrite (relax_weighted h1 h2 v nbrs1 nbrs2) by done.
  destruct (relax h2 v nbrs2 _); [apply IH|done|done].
Qed.

Lemma edges_length_weighted h G :
  length (edges G) = length (flat_map snd (weighted h G)).
Proof.
  unfold edges, weighted. induction (_adj G) as [|[u nbrs] adj IH];
    simpl; [done|].
  by rewrite !length_app, !length_map, IH.
Qed.

Lemma dijkstra_path_fuel_weighted h1 G1 h2 G2 s t :
  node_names G1 = node_names G2 ->
  weighted h1 G1 = weighted h2 G2 ->
  dijkstra_path_fuel (dijkstra_budget G1) G1 s t h1
  = dijkstra_path_fuel (dijkstra_budget G2) G2 s t h2.
Proof.
  intros Hn Hw. unfold dijkstra_path_fuel, dijkstra_budget, contains.
  rewrite (edges_length_weighted h1 G1), (edges_length_weighted h2 G2), Hw.
  assert (Hc : bool_decide (is_Some (assoc s (_node G1)))
             = bool_decide (is_Some (assoc s (_node G2)))).
  { apply bool_decide_ext. rewrite !assoc_is_Some.
    unfold node_names in Hn. by rewrite Hn. }
  rewrite Hc. destruct (negb _); [done|]. destruct (String.eqb t s); [done|].
  by rewrite (dijkstra_loop_weighted h1 G1 h2 G2).
Qed.

Lemma weighted_row (h' : store) (c : Z) nbrs : forall k,
  (forall j y, nbrs !! j = Some y -> weight_of h' (k + j) = c) ->
  map (fun y : node * loc => (y.1, weight_of h' y.2)) (relabel k nbrs)
  = map (fun v : node => (v, c)) nbrs.*1.
Proof.
  induction nbrs as [|[v e] nbrs IH]; intros k Hw; simpl; [done|].
  rewrite <- (Nat.add_0_r k) at 1. rewrite (Hw O (v, e) eq_refl). f_equal.
  apply IH. intros j y Hj. rewrite Nat.add_succ_l, <- Nat.add_succ_r.
  by apply (Hw (S j) y).
Qed.

Lemma weighted_rows (h' : store) (dur : node -> Z) adj : forall k,
  (forall i u v e, adj_edges adj !! i = Some (u, v, e) ->
     weight_of h' (k + i) = dur u) ->
  map (fun row : node * list (node * loc) =>
         (row.1, map (fun y : node * loc => (y.1, weight_of h' y.2)) row.2))
      (relabel_adj k adj)
  = map (fun row : node * list node =>
           (row.1, map (fun v : node => (v, dur row.1)) row.2))
        (map (fun row : node * list (node * loc) => (row.1, row.2.*1)) adj).
Proof.
  induction adj as [|[u nbrs] adj IH]; intros k Hw; simpl; [done|].
  f_equal.
  - f_equal. apply weighted_row. intros j [v e] Hj. apply (Hw j u v e).
    simpl. apply lookup_app_l_Some. by rewrite list_lookup_fmap, Hj.
  - apply IH. intros i u' v' e' Hi. rewrite <- Nat.add_assoc.
    apply (Hw (length nbrs + i)%nat u' v' e'). simpl.
    rewrite lookup_app_r; rewrite length_map; [|lia].
    by replace (length nbrs + i - length nbrs)%nat with i by lia.
Qed.

(** The weighted table the search runs on, from the input graph alone. *)
Lemma weighted_negated_copy h G G_neg h' :
  wf_graph h G ->
  negated_copy G h = (Ok G_neg, h') ->
  node_names G_neg = node_names G /\
  (forall n, duration_of h' G n = duration_of h G n) /\
  weighted h' G_neg
  = map (fun row : node * list node =>
           (row.1, map (fun v : node =>
              (v, - default 0 (duration_of h G row.1))) row.2))
        (topology G).
Proof.
  intros Hwf Hneg.
  destruct (negated_copy_shape h G G_neg h' Hwf Hneg) as (-> & Hd & Hw).
  split; [apply relabel_names|]. split; [done|].
  unfold weighted, topology. simpl.
  apply (weighted_rows h' (fun u => - default 0 (duration_of h G u))).
  intros i u v e Hi. destruct (Hw i u v e) as (d & -> & Hwd); [exact Hi|].
  unfold weight_of. by rewrite Hwd.
Qed.

Lemma find_critical_path_unfold G h G_neg h' :
  negated_copy G h = (Ok G_neg, h') ->
  (find_critical_path G h).1 =
    match dijkstra_path_fuel (dijkstra_budget G_neg) G_neg "Start" "End" h' with
    | Ok p =>
        match path_duration h' G p with
        | Some t => Ok (p, t)
        | None => Raise KeyError
        end
    | Raise e => Raise e
    | OutOfFuel => OutOfFuel
    end.
Proof.
  intros Hneg. unfold find_critical_path.
  rewrite (bind_eq _ _ _ _ _ Hneg). unfold bind at 1, dijkstra_path.
  destruct (dijkstra_path_fuel _ _ _ _ _) as [p| |]; [|done|done].
  unfold bind. rewrite sum_durations_spec.
  destruct (path_duration h' G p); [|done]. simpl. by rewrite Z.add_0_l.
Qed.

Lemma edge_pairs_topology G :
  edge_pairs G
  = flat_map (fun row : node * list node =>
                map (fun v : node => (row.1, v)) row.2) (topology G).
Proof.
  unfold edge_pairs, edges, topology.
  induction (_adj G) as [|[u nbrs] adj IH]; simpl; [done|].
  rewrite fmap_app, IH. f_equal.
  rewrite <- !list_fmap_compose. apply list_fmap_ext. by intros ? [v e].
Qed.

(** The finder's result is a function of who precedes whom and of the
    durations: the same on two well-formed graphs that agree on both. *)
Lemma finder_ext h1 G1 h2 G2 :
  wf_graph h1 G1 -> wf_graph h2 G2 ->
  topology G1 = topology G2 ->
  (forall n, duration_of h1 G1 n = duration_of h2 G2 n) ->
  (find_critical_path G1 h1).1 = (find_critical_path G2 h2).1.
Proof.
  intros Hwf1 Hwf2 Htop Hdur.
  assert (Hpairs : edge_pairs G1 = edge_pairs G2).
  { by rewrite !edge_pairs_topology, Htop. }
  destruct (decide (sources_have_durations h1 G1)) as [Hall|Hnot].
  - assert (Hall2 : sources_have_durations h2 G2).
    { unfold sources_have_durations in *. rewrite <- Hpairs.
      eapply Forall_impl; [exact Hall|]. intros e He. simpl in *.
      by rewrite <- Hdur. }
    destruct (negated_copy_succeeds h1 G1 Hwf1 Hall) as (N1 & k1 & Hn1).
    destruct (negated_copy_succeeds h2 G2 Hwf2 Hall2) as (N2 & k2 & Hn2).
    rewrite (find_critical_path_unfold _ _ _ _ Hn1).
    rewrite (find_critical_path_unfold _ _ _ _ Hn2).
    destruct (weighted_negated_copy _ _ _ _ Hwf1 Hn1) as (Hnm1 & Hd1 & Hw1).
    destruct (weighted_negated_copy _ _ _ _ Hwf2 Hn2) as (Hnm2 & Hd2 & Hw2).
    rewrite (dijkstra_path_fuel_weighted k1 N1 k2 N2).
    + destruct (dijkstra_path_fuel _ _ _ _ _) as [p| |]; [|done|done].
      rewrite (path_duration_ext k1 G1 k2 G2); [done|].
      intros n. by rewrite Hd1, Hd2.
    + rewrite Hnm1, Hnm2.
      destruct Hwf1 as (_ & <- & _), Hwf2 as (_ & <- & _).
      unfold topology in Htop.
      apply (f_equal (fun l : list (node * list node) => l.*1)) in Htop.
      by rewrite <- !list_fmap_compose in Htop.
    + rewrite Hw1, Hw2, Htop. apply list_fmap_ext. intros _ row _. simpl.
      by rewrite Hdur.
  - apply not_Forall_Exists in Hnot; [|apply _].
    apply Exists_exists in Hnot as ([u v] & Huv & Hu). simpl in Hu.
    assert (Hu1 : duration_of h1 G1 u = None).
    { destruct (duration_of h1 G1 u); [|done]. exfalso. apply Hu. eauto. }
    rewrite (missing_duration_key_error_aux h1 G1 u v) by done.
    rewrite (missing_duration_key_error_aux h2 G2 u v); [done|done| |].
    + by rewrite <- Hpairs.
    + by rewrite <- Hdur.
Qed.

Lemma duration_of_not_node h G n :
  n ∉ node_names G -> duration_of h G n = None.
Proof.
  intros Hn. unfold duration_of.
  by rewrite (proj2 (assoc_None n (_node G)) Hn).
Qed.

Lemma topology_names h G : wf_graph h G -> (topology G).*1 = node_names G.
Proof.
  intros (_ & <- & _). unfold topology. by rewrite <- list_fmap_compose.
Qed.

(** X8: the finder's result depends only on who precedes whom and on the
    durations.  Two well-formed graphs with the same successor table by
    name and the same duration for every task get the same result, path
    or error, wherever their attribute dictionaries lie in the store. *)
Theorem critical_path_depends_on_edges_and_durations h1 G1 h2 G2 :
  wf_graph h1 G1 -> wf_graph h2 G2 ->
  topology G1 = topology G2 ->
  Forall (fun n => duration_of h1 G1 n = duration_of h2 G2 n)
         (node_names G1) ->
  (find_critical_path G1 h1).1 = (find_critical_path G2 h2).1.
Proof.
  intros Hwf1 Hwf2 Htop Hdur. apply finder_ext; [done|done|done|].
  intros n. destruct (decide (n ∈ node_names G1)) as [Hn|Hn].
  - rewrite Forall_forall in Hdur. by apply Hdur.
  - rewrite !duration_of_not_node; [done| |done].
    by rewrite <- (topology_names h2 G2), <- Htop, (topology_names h1 G1).
Qed.

(** X8 on the script's graph and a copy of it with other handles. *)
Lemma critical_path_depends_on_edges_and_durations_witness :
  (find_critical_path G_task h_task).1 =
  (find_critical_path
     (mkDiGraph (relabel 49 (_node G_task)) (relabel_adj 72 (_adj G_task)))
     (copy G_task h_task).2).1.
Proof.
  apply critical_path_depends_on_edges_and_durations.
  - apply (bool_decide_unpack _). vm_compute. reflexivity.
  - apply (bool_decide_unpack _). vm_compute. reflexivity.
  - vm_compute. reflexivity.
  - apply (bool_decide_unpack _). vm_compute. reflexivity.
Defined.

Lemma find_critical_path_store h G :
  wf_graph h G ->
  wf_graph (find_critical_path G h).2 G /\
  forall n, duration_of (find_critical_path G h).2 G n = duration_of h G n.
Proof.
  intros Hwf.
  destruct (framed_find_critical_path (length h) G h) as (Ht & Hl & _);
    [done|].
  split; [by apply (wf_graph_longer h)|].
  intros n. apply (duration_of_agree G (length h)).
  - by destruct Hwf as (_ & _ & _ & ?).
  - intros l Hlt. rewrite <- (lookup_take_lt _ (length h)) by done.
    rewrite Ht. by apply lookup_take_lt.
Qed.

(** X9: running the finder again on the same graph, in the store the first
    run left, gives the same result, path and total or error. *)
Theorem find_critical_path_idempotent h G :
  wf_graph h G ->
  (find_critical_path G (find_critical_path G h).2).1
  = (find_critical_path G h).1.
Proof.
  intros Hwf. destruct (find_critical_path_store h G Hwf) as [Hwf' Hd].
  by apply finder_ext.
Qed.

(** X9 on the script's graph. *)
Lemma find_critical_path_idempotent_witness :
  (find_critical_path G_task (find_critical_path G_task h_task).2).1
  = (find_critical_path G_task h_task).1.
Proof.
  apply find_critical_path_idempotent.
  apply (bool_decide_unpack _). vm_compute. reflexivity.
Defined.

(** ** The traversal reaches what can be reached *)

Lemma neighbors_iff G p cs v :
  neighbors G p = Ok cs -> (successor G p v <-> v ∈ cs).
Proof.
  unfold neighbors, successor.
  destruct (assoc p (_adj G)) as [nbrs|]; [|done]. intros [= <-].
  split; [by intros (? & [= <-] & ?)|]. intros Hv. by exists nbrs.
Qed.

Lemma bfs_while_nil G n r st :
  next_parents_children st = [] -> bfs_while G n (S r) st = Ok (yielded st).
Proof. intros H. simpl. by rewrite H. Qed.

Lemma bfs_while_cons G n r st pc this :
  next_parents_children st = pc :: this ->
  bfs_while G n (S r) st =
    match bfs_level G n (pc :: this)
            (mkBFS (bfs_seen st) [] (yielded st)) with
    | Ok (true, st') => Ok (yielded st')
    | Ok (false, st') => bfs_while G n r st'
    | Raise e => Raise e
    | OutOfFuel => OutOfFuel
    end.
Proof. intros H. simpl. by rewrite H. Qed.

Section Traversal.
Context (h : store) (G : DiGraph) (start : node) (Hwf : wf_graph h G).

Lemma successor_is_node u v : successor G u v -> v ∈ node_names G.
Proof.
  intros (nbrs & Hu & Hv). destruct Hwf as (_ & _ & Hrows & _).
  rewrite Forall_forall in Hrows.
  destruct (Hrows (u, nbrs) (assoc_Some_elem _ _ _ Hu)) as (_ & Hsub & _).
  by apply Hsub.
Qed.

Lemma neighbors_of_node u :
  u ∈ node_names G -> exists nb, neighbors G u = Ok nb.
Proof.
  intros Hu. apply (wf_adj_key h G u Hwf) in Hu as [nbrs Hn].
  unfold neighbors. rewrite Hn. eauto.
Qed.

Lemma bfs_children_good p cs : forall st,
  bfs_good G start st -> p ∈ bfs_seen st ->
  (forall c, c ∈ cs -> successor G p c) ->
  exists st' new,
    bfs_children G p cs st = Ok st' /\ bfs_good G start st' /\
    (forall u, u ∈ bfs_seen st -> u ∈ bfs_seen st') /\
    (forall c, c ∈ cs -> c ∈ bfs_seen st') /\
    next_parents_children st' = next_parents_children st ++ new /\
    size (bfs_seen st') = (size (bfs_seen st) + length new)%nat /\
    (forall u, u ∈ bfs_seen st' -> u ∈ bfs_seen st \/ u ∈ new.*1).
Proof.
  induction cs as [|c cs IH]; intros st Hg Hp Hcs.
  { exists st, []. simpl. rewrite app_nil_r, Nat.add_0_r.
    split; [done|]. split; [done|]. split; [done|].
    split; [by intros ? ?%elem_of_nil|]. split; [done|]. split; [done|].
    by left. }
  assert (Hcs' : forall c0, c0 ∈ cs -> successor G p c0).
  { intros c0 Hc0. apply Hcs. by right. }
  simpl. destruct (decide (c ∈ bfs_seen st)) as [Hc|Hc].
  { destruct (IH st Hg Hp Hcs')
      as (st' & new & Hrun & Hg' & Hmono & Hall & Hnext & Hsize & Hnew).
    exists st', new. split; [done|]. split; [done|]. split; [done|].
    split; [|done]. intros c0 [->|Hc0]%elem_of_cons; auto. }
  assert (Hpc : successor G p c) by (apply Hcs; left).
  destruct (neighbors_of_node c (successor_is_node p c Hpc)) as [nb Hnb].
  rewrite Hnb.
  set (st1 := mkBFS ({[c]} ∪ bfs_seen st)
                (next_parents_children st ++ [(c, nb)])
                (yielded st ++ [(p, c)])).
  assert (Hg1 : bfs_good G start st1).
  { destruct Hg as [Hn Hr Ht He Htr]. constructor; simpl.
    - intros u [->%elem_of_singleton|Hu]%elem_of_union; [|by apply Hn].
      by eapply successor_is_node.
    - intros u [->%elem_of_singleton|Hu]%elem_of_union; [|by apply Hr].
      destruct (Hr p Hp) as [q Hq]. exists (q ++ [c]).
      by eapply path_snoc.
    - intros u. rewrite elem_of_union, elem_of_singleton, Ht, fmap_app,
        elem_of_app. simpl. rewrite list_elem_of_singleton. tauto.
    - apply Forall_app. split.
      + eapply Forall_impl; [exact He|]. intros pc [? ?]. split; [done|].
        by apply elem_of_union_r.
      + apply Forall_singleton. simpl. split; [done|].
        apply elem_of_union_l. by apply elem_of_singleton.
    - intros i e Hi. destruct (decide (i < length (yielded st))%nat) as [Hlt|Hge].
      + rewrite lookup_app_l in Hi by done.
        rewrite take_app_le by lia. by apply Htr.
      + rewrite lookup_app_r in Hi by lia.
        destruct (i - length (yielded st))%nat as [|j] eqn:Ej; [|done].
        injection Hi as <-. simpl.
        rewrite take_app_ge by lia. rewrite Ej. simpl. rewrite app_nil_r.
        apply Ht in Hp as [->|Hp]; [by left|by right]. }
  destruct (IH st1 Hg1) as
    (st' & new & Hrun & Hg' & Hmono & Hall & Hnext & Hsize & Hnew);
    [simpl; by apply elem_of_union_r|done|].
  exists st', ((c, nb) :: new). split; [done|]. split; [done|].
  split; [|split; [|split; [|split]]].
  - intros u Hu. apply Hmono. simpl. by apply elem_of_union_r.
  - intros c0 [->|Hc0]%elem_of_cons; [|by apply Hall].
    apply Hmono. simpl. apply elem_of_union_l. by apply elem_of_singleton.
  - rewrite Hnext. simpl. by rewrite <- app_assoc.
  - rewrite Hsize. simpl. rewrite size_union, size_singleton; [lia|].
    intros x ->%elem_of_singleton. done.
  - intros u Hu. destruct (Hnew u Hu) as [[->%elem_of_singleton|Hs]%elem_of_union|Hn].
    + right. left.
    + by left.
    + right. by right.
Qed.

Lemma bfs_good_reset st :
  bfs_good G start st ->
  bfs_good G start (mkBFS (bfs_seen st) [] (yielded st)).
Proof. intros [? ? ? ? ?]. by constructor. Qed.

Lemma bfs_level_good n this : forall st,
  bfs_good G start st ->
  Forall (fun pc : node * list node =>
            neighbors G pc.1 = Ok pc.2 /\ pc.1 ∈ bfs_seen st) this ->
  exists b st' new,
    bfs_level G n this st = Ok (b, st') /\ bfs_good G start st' /\
    (forall u, u ∈ bfs_seen st -> u ∈ bfs_seen st') /\
    next_parents_children st' = next_parents_children st ++ new /\
    size (bfs_seen st') = (size (bfs_seen st) + length new)%nat /\
    (forall u, u ∈ bfs_seen st' -> u ∈ bfs_seen st \/ u ∈ new.*1) /\
    (if b then size (bfs_seen st') = n
     else forall pc c, pc ∈ this -> c ∈ pc.2 -> c ∈ bfs_seen st').
Proof.
  induction this as [|[p cs] this IH]; intros st Hg Hthis.
  { exists false, st, []. simpl. rewrite app_nil_r, Nat.add_0_r.
    split; [done|]. split; [done|]. split; [done|]. split; [done|].
    split; [done|]. split; [by left|]. by intros ? ? ?%elem_of_nil. }
  apply Forall_cons in Hthis as [[Hnb Hp] Hthis]. simpl in Hnb, Hp.
  destruct (bfs_children_good p cs st Hg Hp)
    as (st1 & new1 & Hrun1 & Hg1 & Hmono1 & Hall1 & Hnext1 & Hsize1 & Hnew1).
  { intros c Hc. by apply (neighbors_iff G p cs c Hnb). }
  simpl. rewrite Hrun1.
  destruct (size (bfs_seen st1) =? n)%nat eqn:En.
  { apply Nat.eqb_eq in En. by exists true, st1, new1. }
  destruct (IH st1 Hg1)
    as (b & st' & new & Hrun & Hg' & Hmono & Hnext & Hsize & Hnew & Hb).
  { eapply Forall_impl; [exact Hthis|]. intros pc [? ?]. split; [done|].
    by apply Hmono1. }
  exists b, st', (new1 ++ new). split; [done|]. split; [done|].
  split; [by auto|]. split; [by rewrite Hnext, Hnext1, app_assoc|].
  split; [rewrite Hsize, Hsize1, length_app; lia|]. split.
  { intros u Hu. rewrite fmap_app, elem_of_app.
    destruct (Hnew u Hu) as [Hu1|Hu1]; [|tauto].
    destruct (Hnew1 u Hu1); tauto. }
  destruct b; [done|]. intros pc c [->|Hpc]%elem_of_cons Hc.
  - apply Hmono. by apply Hall1.
  - by eapply Hb.
Qed.

Lemma seen_size_le st :
  bfs_good G start st -> (size (bfs_seen st) <= len G)%nat.
Proof.
  intros Hg. destruct Hwf as (Hnd & _).
  unfold len. rewrite <- (length_fmap fst (_node G)).
  fold (node_names G). rewrite <- (size_list_to_set (C := gset node)) by done.
  apply subseteq_size. intros u Hu. apply elem_of_list_to_set.
  by apply (good_names _ _ _ Hg).
Qed.

Lemma seen_all st :
  bfs_good G start st -> size (bfs_seen st) = len G ->
  forall u, u ∈ node_names G -> u ∈ bfs_seen st.
Proof.
  intros Hg Hsize u Hu. destruct Hwf as (Hnd & _).
  assert (Heq : bfs_seen st ≡ list_to_set (node_names G)).
  { apply set_subseteq_size_equiv.
    - intros v Hv. apply elem_of_list_to_set. by apply (good_names _ _ _ Hg).
    - rewrite size_list_to_set by done. rewrite Hsize. unfold len, node_names.
      by rewrite length_fmap. }
  apply Heq. by apply elem_of_list_to_set.
Qed.

Lemma reachable_is_node t :
  start ∈ node_names G -> reachable G start t -> t ∈ node_names G.
Proof.
  intros Hs [p Hp]. destruct Hp as [|v u p Hp Hvu]; [done|].
  by eapply successor_is_node.
Qed.

Lemma closed_reach (seen : gset node) :
  start ∈ seen ->
  (forall u v, u ∈ seen -> successor G u v -> v ∈ seen) ->
  forall t, reachable G start t -> t ∈ seen.
Proof.
  intros Hs Hcl t [p Hp]. induction Hp as [|v u p Hp IH Hvu]; [done|].
  by eapply Hcl.
Qed.

Lemma bfs_while_good r : forall st,
  bfs_good G start st ->
  pending_closed G (bfs_seen st) (next_parents_children st).*1 ->
  (next_parents_children st <> [] ->
   (len G + 1 <= size (bfs_seen st) + r)%nat) ->
  exists st', bfs_while G (len G) r st = Ok (yielded st') /\
    bfs_good G start st' /\ forall t, reachable G start t -> t ∈ bfs_seen st'.
Proof.
  assert (Hdone : forall st, bfs_good G start st ->
    pending_closed G (bfs_seen st) (next_parents_children st).*1 ->
    next_parents_children st = [] ->
    forall t, reachable G start t -> t ∈ bfs_seen st).
  { intros st Hg Hpc Hnil. apply closed_reach.
    - apply (good_targets _ _ _ Hg). by left.
    - intros u v Hu Huv. destruct (Hpc u Hu) as [Hcl|Hin]; [by apply Hcl|].
      rewrite Hnil in Hin. by apply elem_of_nil in Hin. }
  induction r as [|r IH]; intros st Hg Hpc Hm.
  { exists st. split; [done|]. split; [done|]. apply Hdone; [done|done|].
    destruct (next_parents_children st) as [|pc this] eqn:En; [done|].
    pose proof (seen_size_le st Hg). specialize (Hm ltac:(done)). lia. }
  destruct (next_parents_children st) as [|pc this] eqn:En.
  { exists st. rewrite bfs_while_nil by done. split; [done|]. split; [done|].
    apply Hdone; [done|by rewrite En|done]. }
  rewrite (bfs_while_cons _ _ _ _ _ _ En).
  destruct (bfs_level_good (len G) (pc :: this)
              (mkBFS (bfs_seen st) [] (yielded st)) (bfs_good_reset st Hg))
    as (b & st' & new & Hrun & Hg' & Hmono & Hnext & Hsize & Hnew & Hb).
  { rewrite <- En. apply (good_entries _ _ _ Hg). }
  simpl in Hmono, Hnext, Hsize, Hnew. rewrite Hrun. destruct b.
  { exists st'. split; [done|]. split; [done|]. intros t Ht.
    apply seen_all; [done|done|]. apply reachable_is_node; [|done].
    apply (good_names _ _ _ Hg), (good_targets _ _ _ Hg). by left. }
  apply IH; [done| |].
  - intros u Hu. rewrite Hnext. destruct (Hnew u Hu) as [Hold|Hin]; [|by right].
    left. intros v Huv. destruct (Hpc u Hold) as [Hcl|Hin]; [by apply Hmono, Hcl|].
    apply list_elem_of_fmap in Hin as ([u' cs] & -> & Hin).
    apply (Hb (u', cs) v Hin). simpl.
    pose proof (good_entries _ _ _ Hg) as He. rewrite En, Forall_forall in He.
    destruct (He _ Hin) as [Hnb _]. by apply (neighbors_iff G u' cs v Hnb).
  - rewrite Hnext. intros Hne. specialize (Hm ltac:(done)).
    destruct new; [done|]. rewrite Hsize. simpl. lia.
Qed.

Lemma bfs_edges_good :
  start ∈ node_names G ->
  exists st', bfs_edges G start = Ok (yielded st') /\
    bfs_good G start st' /\ forall t, reachable G start t -> t ∈ bfs_seen st'.
Proof.
  intros Hs. destruct (neighbors_of_node start Hs) as [nb Hnb].
  unfold bfs_edges. rewrite Hnb. apply bfs_while_good.
  - constructor; simpl.
    + by intros u ->%elem_of_singleton.
    + intros u ->%elem_of_singleton. exists [start]. constructor.
    + intros u. rewrite elem_of_singleton. split; [by left|].
      by intros [?|?%elem_of_nil].
    + apply Forall_singleton. simpl. split; [done|]. by apply elem_of_singleton.
    + by intros i e.
  - simpl. intros u ->%elem_of_singleton. right. by left.
  - intros _. cbn [bfs_seen]. rewrite size_singleton. lia.
Qed.
End Traversal.

Lemma bfs_start_missing h G start :
  wf_graph h G -> start ∉ node_names G ->
  perform_bfs G start = Raise NetworkXError.
Proof.
  intros (_ & Hkeys & _) Hs. unfold perform_bfs, bfs_edges, neighbors.
  destruct (assoc start (_adj G)) as [nbrs|] eqn:Ea; [|done].
  exfalso. apply Hs. rewrite <- Hkeys. apply assoc_is_Some. by exists nbrs.
Qed.

Lemma bfs_start_is_node h G start es :
  wf_graph h G -> perform_bfs G start = Ok es -> start ∈ node_names G.
Proof.
  intros Hwf Hrun. destruct (decide (start ∈ node_names G)) as [|Hs]; [done|].
  by rewrite (bfs_start_missing h G start Hwf Hs) in Hrun.
Qed.

Lemma bfs_targets_reachable h G start es :
  wf_graph h G -> perform_bfs G start = Ok es ->
  forall t, t ∈ es.*2 -> reachable G start t.
Proof.
  intros Hwf Hrun t Ht.
  destruct (bfs_edges_good h G start Hwf (bfs_start_is_node h G start es Hwf Hrun))
    as (st' & Hrun' & Hg & _).
  unfold perform_bfs in Hrun. rewrite Hrun' in Hrun. injection Hrun as <-.
  apply (good_reach _ _ _ Hg), (good_targets _ _ _ Hg). by right.
Qed.

Lemma bfs_targets_distinct G start es :
  perform_bfs G start = Ok es -> NoDup es.*2 /\ start ∉ es.*2.
Proof.
  unfold perform_bfs, bfs_edges.
  destruct (neighbors G start) as [nb| |] eqn:Enb; [|done|done].
  intros Hrun. apply bfs_while_inv with (source := start) in Hrun; [tauto|].
  constructor; simpl.
  - constructor.
  - by intros v ?%elem_of_nil.
  - by apply elem_of_singleton.
  - by intros ?%elem_of_nil.
  - by intros e ?%elem_of_nil.
  - intros pc c ->%list_elem_of_singleton Hc. simpl in *.
    by apply (neighbors_iff G start nb c Enb).
Qed.

(** X10.  On a graph whose tables are in order the traversal returns a
    list of edges when its start is a task of the graph, and fails with
    networkx's error for a node that is not in the graph otherwise; it
    never stops for any other reason. *)
Theorem perform_bfs_needs_start_node h G start :
  wf_graph h G ->
  (start ∈ node_names G -> exists es, perform_bfs G start = Ok es) /\
  (start ∉ node_names G -> perform_bfs G start = Raise NetworkXError).
Proof.
  intros Hwf. split; [|by apply (bfs_start_missing h)].
  intros Hs. destruct (bfs_edges_good h G start Hwf Hs) as (st' & Hrun & _).
  by exists (yielded st').
Qed.

(** X10 on the script's graph. *)
Lemma perform_bfs_needs_start_node_witness :
  ("Start" ∈ node_names G_task ->
   exists es, perform_bfs G_task "Start" = Ok es) /\
  ("Start" ∉ node_names G_task ->
   perform_bfs G_task "Start" = Raise NetworkXError).
Proof.
  apply (perform_bfs_needs_start_node h_task).
  apply (bool_decide_unpack _). vm_compute. reflexivity.
Defined.

(** X11.  The edges the traversal returns enter exactly the tasks that
    can be reached from the start along edges of the graph, the start
    itself left out: no reachable task is missed, and no other task is
    entered. *)
Theorem bfs_reaches_exactly_the_reachable h G start es :
  wf_graph h G -> perform_bfs G start = Ok es ->
  forall t, t ∈ es.*2 <-> reachable G start t /\ t <> start.
Proof.
  intros Hwf Hrun t. split.
  - intros Ht. split; [by apply (bfs_targets_reachable h G start es)|].
    intros ->. by apply (bfs_targets_distinct G start es Hrun).
  - intros [Hreach Hne].
    destruct (bfs_edges_good h G start Hwf
                (bfs_start_is_node h G start es Hwf Hrun))
      as (st' & Hrun' & Hg & Hall).
    unfold perform_bfs in Hrun. rewrite Hrun' in Hrun. injection Hrun as <-.
    by destruct (proj1 (good_targets _ _ _ Hg t) (Hall t Hreach)).
Qed.

(** X11 on the script's graph. *)
Lemma bfs_reaches_exactly_the_reachable_witness :
  "End" ∈ bfs_of_dataset.*2 <->
  reachable G_task "Start" "End" /\ "End" <> "Start".
Proof.
  apply (bfs_reaches_exactly_the_reachable h_task G_task "Start").
  - apply (bool_decide_unpack _). vm_compute. reflexivity.
  - vm_compute. reflexivity.
Defined.

(** X12.  The returned edges come in an order that grows a tree from the
    start: every edge leaves the start or a task that an earlier edge of
    the list has entered. *)
Theorem bfs_edges_grow_a_tree h G start es :
  wf_graph h G -> perform_bfs G start = Ok es ->
  forall i e, es !! i = Some e -> e.1 = start \/ e.1 ∈ (take i es).*2.
Proof.
  intros Hwf Hrun.
  destruct (bfs_edges_good h G start Hwf
              (bfs_start_is_node h G start es Hwf Hrun))
    as (st' & Hrun' & Hg & _).
  unfold perform_bfs in Hrun. rewrite Hrun' in Hrun. injection Hrun as <-.
  apply (good_tree _ _ _ Hg).
Qed.

(** X12 on the script's graph, at the last edge returned. *)
Lemma bfs_edges_grow_a_tree_witness :
  let e := default ("", "") (last bfs_of_dataset) in
  bfs_of_dataset !! 21%nat = Some e /\
  (e.1 = "Start" \/ e.1 ∈ (take 21 bfs_of_dataset).*2).
Proof.
  split; [vm_compute; reflexivity|].
  apply (bfs_edges_grow_a_tree h_task G_task "Start" bfs_of_dataset).
  - apply (bool_decide_unpack _). vm_compute. reflexivity.
  - vm_compute. reflexivity.
  - vm_compute. reflexivity.
Defined.

(** X13.  When every task of the graph can be reached from the start, the
    traversal returns one edge less than there are tasks: the edges span
    the graph. *)
Theorem bfs_spans_connected_graph h G start es :
  wf_graph h G -> perform_bfs G start = Ok es ->
  (forall t, t ∈ node_names G -> reachable G start t) ->
  S (length es) = len G.
Proof.
  intros Hwf Hrun Hall.
  pose proof (bfs_start_is_node h G start es Hwf Hrun) as Hs.
  destruct (bfs_edges_good h G start Hwf Hs) as (st' & Hrun' & Hg & Hseen).
  destruct (bfs_targets_distinct G start es Hrun) as [Hnd Hns].
  unfold perform_bfs in Hrun. rewrite Hrun' in Hrun. injection Hrun as <-.
  unfold len. rewrite <- (length_fmap fst (_node G)).
  rewrite <- (length_fmap snd (yielded st')).
  change (length (start :: (yielded st').*2) = length (node_names G)).
  apply Permutation_length, NoDup_Permutation.
  - by constructor.
  - by destruct Hwf.
  - intros t. rewrite elem_of_cons, <- (good_targets _ _ _ Hg). split.
    + apply (good_names _ _ _ Hg).
    + intros Ht. by apply Hseen, Hall.
Qed.

(** X13 on the script's graph: 22 edges for 23 tasks. *)
Lemma bfs_spans_connected_graph_witness :
  S (length bfs_of_dataset) = len G_task.
Proof.
  assert (Hwf : wf_graph h_task G_task)
    by (apply (bool_decide_unpack _); vm_compute; reflexivity).
  assert (Hrun : perform_bfs G_task "Start" = Ok bfs_of_dataset)
    by (vm_compute; reflexivity).
  apply (bfs_spans_connected_graph h_task G_task "Start" _ Hwf Hrun).
  assert (Hin : Forall (fun t => t ∈ "Start" :: bfs_of_dataset.*2)
                       (node_names G_task))
    by (apply (bool_decide_unpack _); vm_compute; reflexivity).
  rewrite Forall_forall in Hin. intros t Ht.
  apply Hin in Ht as [->|Ht]%elem_of_cons.
  - exists ["Start"]. constructor.
  - by apply (bfs_targets_reachable h_task G_task "Start" bfs_of_dataset).
Defined.

(** ** A no-path error is truthful *)

Lemma heappop_split fr x fr' :
  heappop fr = Some (x, fr') -> forall y, y ∈ fr -> y = x \/ y ∈ fr'.
Proof.
  revert x fr'. induction fr as [|a fr IH]; intros x fr'; simpl; [done|].
  destruct (heappop fr) as [[m rest]|] eqn:E.
  - specialize (IH _ _ eq_refl).
    destruct (item_lt a m); intros [= <- <-] y [->|Hy]%elem_of_cons.
    + by left.
    + right. destruct (IH y Hy) as [->|?]; [left|by right].
    + right. left.
    + destruct (IH y Hy) as [->|?]; [by left|right; by right].
  - apply heappop_None in E as ->.
    intros [= <- <-] y [->|Hy]%elem_of_cons; [by left|].
    by apply elem_of_nil in Hy.
Qed.

Lemma insert_is_Some_mono {V} (m : gmap node V) i x j :
  is_Some (m !! j) -> is_Some (<[i := x]> m !! j).
Proof.
  intros Hj. destruct (decide (i = j)) as [->|Hne].
  - rewrite lookup_insert_eq. eauto.
  - by rewrite lookup_insert_ne.
Qed.

Section Closure.
Context (h : store) (G : DiGraph) (source target : node).

Lemma search_closed_push cur st u d ps n k :
  search_closed G source cur st ->
  search_closed G source cur
    (mkDS (dist st) (<[u := d]> (seen st)) ps n
          (heappush (fringe st) (d, k, u))).
Proof.
  intros [Hs Hseen Hd Hf Hsucc]. constructor; simpl.
  - by apply insert_is_Some_mono.
  - intros u0 Hu0. destruct (decide (u = u0)) as [->|Hne]; [right; left|].
    rewrite lookup_insert_ne in Hu0 by done.
    destruct (Hseen u0 Hu0) as [?|?]; [by left|right; by right].
  - intros u0 Hu0. by apply insert_is_Some_mono, Hd.
  - intros x [->|Hx]%elem_of_cons; simpl.
    + rewrite lookup_insert_eq. eauto.
    + by apply insert_is_Some_mono, Hf.
  - intros v u0 Hv Hne Hvu. by apply insert_is_Some_mono, (Hsucc v).
Qed.

Lemma relax_closed v nbrs : forall st st',
  search_closed G source (Some v) st ->
  relax h v nbrs st = Ok st' ->
  search_closed G source (Some v) st' /\ dist st' = dist st /\
  (forall u, is_Some (seen st !! u) -> is_Some (seen st' !! u)) /\
  (forall u, u ∈ nbrs.*1 -> is_Some (seen st' !! u)).
Proof.
  induction nbrs as [|[u e] nbrs IH]; intros st st' Hc; simpl.
  { intros [= <-]. split; [done|]. split; [done|]. split; [done|].
    by intros ? ?%elem_of_nil. }
  destruct (dist st !! v) as [dv|] eqn:Edv; [|done].
  assert (Hpush : forall ps x,
    relax h v nbrs
      (mkDS (dist st) (<[u := dv + weight_of h e]> (seen st)) ps (S (c st))
            (heappush (fringe st) (dv + weight_of h e, c st, u))) = Ok x ->
    search_closed G source (Some v) x /\ dist x = dist st /\
    (forall u0, is_Some (seen st !! u0) -> is_Some (seen x !! u0)) /\
    (forall u0, u0 ∈ u :: nbrs.*1 -> is_Some (seen x !! u0))).
  { intros ps x Hrun.
    apply IH in Hrun as (Hc' & Hd & Hmono & Hall);
      [|by apply search_closed_push].
    split; [done|]. split; [done|]. simpl in Hmono. split.
    - intros u0 Hu0. by apply Hmono, insert_is_Some_mono.
    - intros u0 [->|Hu0]%elem_of_cons; [|by apply Hall].
      apply Hmono. rewrite lookup_insert_eq. eauto. }
  assert (Hskip : is_Some (seen st !! u) -> forall x,
    relax h v nbrs st = Ok x ->
    search_closed G source (Some v) x /\ dist x = dist st /\
    (forall u0, is_Some (seen st !! u0) -> is_Some (seen x !! u0)) /\
    (forall u0, u0 ∈ u :: nbrs.*1 -> is_Some (seen x !! u0))).
  { intros Hu x Hrun. apply IH in Hrun as (Hc' & Hd & Hmono & Hall); [|done].
    split; [done|]. split; [done|]. split; [done|].
    intros u0 [->|Hu0]%elem_of_cons; [by apply Hmono|by apply Hall]. }
  destruct (dist st !! u) as [du|] eqn:Edu.
  { destruct (_ <? _); [done|]. apply Hskip.
    apply (closed_dist _ _ _ _ Hc). by rewrite Edu. }
  destruct (seen st !! u) as [su|] eqn:Esu.
  - destruct (_ <? _).
    + destruct (paths st !! v) as [pv|]; [|done]. apply Hpush.
    + apply Hskip. eauto.
  - destruct (paths st !! v) as [pv|]; [|done]. apply Hpush.
Qed.

Lemma dijkstra_loop_closed fuel : forall st st',
  search_closed G source None st ->
  dijkstra_loop fuel h G target st = Ok st' ->
  is_Some (dist st' !! target) \/
  (search_closed G source None st' /\ fringe st' = []).
Proof.
  induction fuel as [|fuel IH]; intros st st' Hc; simpl; [done|].
  destruct (heappop (fringe st)) as [[[[d n] v] fr]|] eqn:Epop.
  2:{ intros [= <-]. right. split; [done|]. by apply heappop_None. }
  destruct (heappop_elem _ _ _ Epop) as [Hx Hfr].
  pose proof (heappop_split _ _ _ Epop) as Hsplit.
  destruct Hc as [Hs Hseen Hd Hf Hsucc].
  destruct (dist st !! v) as [dv|] eqn:Edv.
  { apply IH. constructor; simpl; try done.
    - intros u Hu. destruct (Hseen u Hu) as [?|Hin]; [by left|].
      apply list_elem_of_fmap in Hin as (y & -> & Hy).
      destruct (Hsplit y Hy) as [->|Hy']; [left; simpl; by rewrite Edv|right].
      apply list_elem_of_fmap. by exists y.
    - intros x Hx'. by apply Hf, Hfr. }
  destruct (String.eqb_spec v target) as [->|Hvt].
  { intros [= <-]. left. simpl. rewrite lookup_insert_eq. eauto. }
  destruct (assoc v (_adj G)) as [nbrs|] eqn:Eadj; [|done].
  destruct (relax h v nbrs _) as [st3| |] eqn:Erel; [|done|done].
  apply relax_closed in Erel as (Hc3 & Hd3 & Hmono & Hall).
  - apply IH. destruct Hc3 as [Hs3 Hseen3 Hdist3 Hf3 Hsucc3].
    constructor; try done.
    intros v' u Hv' _ Hvu. destruct (decide (v' = v)) as [->|Hne].
    + destruct Hvu as (nbrs' & Ha & Hu). rewrite Eadj in Ha.
      injection Ha as <-. by apply Hall.
    + apply (Hsucc3 v'); [done|congruence|done].
  - constructor; simpl.
    + done.
    + intros u Hu. destruct (Hseen u Hu) as [?|Hin];
        [left; by apply insert_is_Some_mono|].
      apply list_elem_of_fmap in Hin as (y & -> & Hy).
      destruct (Hsplit y Hy) as [->|Hy'].
      * left. simpl. rewrite lookup_insert_eq. eauto.
      * right. apply list_elem_of_fmap. by exists y.
    + intros u Hu. destruct (decide (v = u)) as [<-|Hne].
      * apply (Hf _ Hx).
      * rewrite lookup_insert_ne in Hu by done. by apply Hd.
    + intros x Hx'. by apply Hf, Hfr.
    + intros v' u Hv' Hne Hvu. rewrite lookup_insert_ne in Hv' by congruence.
      by apply (Hsucc v').
Qed.

Lemma relax_not_no_path v nbrs : forall st,
  relax h v nbrs st <> Raise NetworkXNoPath.
Proof.
  induction nbrs as [|[u e] nbrs IH]; intros st; simpl; [done|].
  destruct (dist st !! v); [|done].
  destruct (dist st !! u); [by destruct (_ <? _)|].
  destruct (match seen st !! u with
            | Some seen_u => _ | None => true end); [|done].
  by destruct (paths st !! v).
Qed.

Lemma dijkstra_loop_not_no_path fuel : forall st,
  dijkstra_loop fuel h G target st <> Raise NetworkXNoPath.
Proof.
  induction fuel as [|fuel IH]; intros st; simpl; [done|].
  destruct (heappop (fringe st)) as [[[[d n] v] fr]|]; [|done].
  destruct (dist st !! v); [done|].
  destruct (String.eqb v target); [done|].
  destruct (assoc v (_adj G)) as [nbrs|]; [|done].
  destruct (relax h v nbrs _) as [st3|e|] eqn:Erel; [done| |done].
  intros [= ->]. by apply relax_not_no_path in Erel.
Qed.

Lemma dijkstra_no_path_unreachable fuel :
  dijkstra_path_fuel fuel G source target h = Raise NetworkXNoPath ->
  ~ reachable G source target.
Proof.
  unfold dijkstra_path_fuel.
  destruct (negb (contains G source)); [done|].
  destruct (String.eqb target source); [done|].
  destruct (dijkstra_loop _ _ _ _ _) as [st|e|] eqn:Eloop; [| |done].
  2:{ intros [= ->]. by apply dijkstra_loop_not_no_path in Eloop. }
  intros Hres [p Hp].
  assert (Hinv : search_inv G source st).
  { apply (dijkstra_loop_inv h G source target _ _ _) in Eloop; [done|].
    constructor; simpl.
    + intros u p0. destruct (decide (source = u)) as [<-|Hsu].
      * rewrite lookup_singleton_eq. intros [= <-].
        split; [constructor|]. split; [apply NoDup_singleton|].
        intros x ->%list_elem_of_singleton. done.
      * rewrite lookup_singleton_ne by done. done.
    + intros u [? Hu]. by rewrite lookup_empty in Hu.
    + intros x ->%list_elem_of_singleton. simpl.
      rewrite lookup_singleton_eq. eauto. }
  assert (Hd : is_Some (dist st !! target)).
  { apply dijkstra_loop_closed in Eloop as [?|[Hc Hnil]]; [done| |].
    - destruct Hc as [Hs Hseen Hd Hf Hsucc].
      assert (Hall : forall u, is_Some (seen st !! u) -> is_Some (dist st !! u)).
      { intros u Hu. destruct (Hseen u Hu) as [?|Hin]; [done|].
        rewrite Hnil in Hin. by apply elem_of_nil in Hin. }
      clear Hres. induction Hp as [|v u p Hp IH Hvu]; [by apply Hall|].
      apply Hall, (Hsucc v); [by apply IH|done|done].
    - constructor; simpl.
      + rewrite lookup_singleton_eq. eauto.
      + intros u Hu. right.
        destruct (decide (source = u)) as [<-|Hne]; [left|].
        rewrite lookup_singleton_ne in Hu by done. by destruct Hu.
      + intros u [? Hu]. by rewrite lookup_empty in Hu.
      + intros x ->%list_elem_of_singleton. simpl.
        rewrite lookup_singleton_eq. eauto.
      + intros v u [? Hv]. by rewrite lookup_empty in Hv. }
  destruct Hd as [dt Hdt]. rewrite Hdt in Hres.
  destruct (inv_dist _ _ _ Hinv target) as [pt Hpt]; [by rewrite Hdt|].
  by rewrite Hpt in Hres.
Qed.
End Closure.

Lemma build_lone : build lone_tasks [] [] = (Ok G_lone, h_lone).
Proof. unfold h_lone. apply pair_of_fst. vm_compute. reflexivity. Qed.

(** X14.  A no-path error of the finder is truthful: on a graph whose
    tables are in order, the finder fails with networkx's no-path error
    only if the end task cannot be reached from the start task.  (The
    converse fails: an unreachable end task can also end the search with
    a [ValueError].) *)
Theorem no_path_error_means_unreachable h G :
  wf_graph h G ->
  (find_critical_path G h).1 = Raise NetworkXNoPath ->
  ~ reachable G "Start" "End".
Proof.
  intros Hwf Hres [p Hp].
  destruct (decide (sources_have_durations h G)) as [Hdur|Hdur].
  - destruct (negated_copy_succeeds h G Hwf Hdur) as (G_neg & h' & Hneg).
    rewrite (find_critical_path_unfold _ _ _ _ Hneg) in Hres.
    destruct (dijkstra_path_fuel _ G_neg "Start" "End" h')
      as [q|e|] eqn:Edij; [by destruct (path_duration h' G q)| |done].
    injection Hres as ->.
    apply dijkstra_no_path_unreachable in Edij. apply Edij. exists p.
    eapply path_to_same_names; [|exact Hp].
    destruct (negated_copy_shape h G G_neg h' Hwf Hneg) as (-> & _).
    simpl. symmetry. apply relabel_adj_names.
  - apply not_Forall_Exists in Hdur; [|apply _].
    apply Exists_exists in Hdur as ([u v] & Huv & Hnone). simpl in Hnone.
    assert (Hu : duration_of h G u = None).
    { destruct (duration_of h G u); [|done]. exfalso. apply Hnone. eauto. }
    rewrite (missing_duration_key_error_aux h G u v Hwf Huv Hu) in Hres.
    done.
Qed.

(** X14 on a graph of a start and an end task without edges. *)
Lemma no_path_error_means_unreachable_witness :
  build lone_tasks [] [] = (Ok G_lone, h_lone) /\
  (find_critical_path G_lone h_lone).1 = Raise NetworkXNoPath /\
  ~ reachable G_lone "Start" "End".
Proof.
  split; [exact build_lone|]. split; [vm_compute; reflexivity|].
  apply (no_path_error_means_unreachable h_lone G_lone).
  - apply (bool_decide_unpack _). vm_compute. reflexivity.
  - vm_compute. reflexivity.
Defined.

(** ** The betweenness scores never fail *)

Lemma sssp_neighbors_new v Dv sv w ws st sw Pw :
  sD st !! w = None -> sigma st !! w = Some sw -> sP st !! w = Some Pw ->
  sssp_neighbors v Dv sv (w :: ws) st =
  sssp_neighbors v Dv sv ws
    (mkSSSP (sS st) (<[w := Pw ++ [v]]> (sP st))
            (<[w := (sw + sv)%Qc]> (sigma st))
            (<[w := S Dv]> (sD st)) (sQ st ++ [w])).
Proof.
  intros HD Hs HP. simpl. rewrite HD. simpl.
  rewrite bool_decide_eq_true_2 by apply lookup_insert_eq.
  by rewrite Hs, HP.
Qed.

Lemma sssp_neighbors_again v Dv sv w ws st sw Pw :
  sD st !! w = Some (S Dv) ->
  sigma st !! w = Some sw -> sP st !! w = Some Pw ->
  sssp_neighbors v Dv sv (w :: ws) st =
  sssp_neighbors v Dv sv ws
    (mkSSSP (sS st) (<[w := Pw ++ [v]]> (sP st))
            (<[w := (sw + sv)%Qc]> (sigma st)) (sD st) (sQ st)).
Proof.
  intros HD Hs HP. simpl. rewrite HD.
  rewrite bool_decide_eq_true_2 by done. by rewrite Hs, HP.
Qed.

Lemma sssp_neighbors_skip v Dv sv w ws st d :
  sD st !! w = Some d -> d <> S Dv ->
  sssp_neighbors v Dv sv (w :: ws) st = sssp_neighbors v Dv sv ws st.
Proof.
  intros HD Hd. simpl. rewrite HD.
  rewrite bool_decide_eq_false_2; [done|]. rewrite HD. congruence.
Qed.

Section Betweenness.
Context (h : store) (G : DiGraph) (Hwf : wf_graph h G).

Lemma sssp_size_le s st :
  sssp_inv G s st -> (size (sD st) <= len G)%nat.
Proof.
  intros Hinv. destruct Hwf as (Hnd & _).
  unfold len. rewrite <- (length_fmap fst (_node G)).
  fold (node_names G). rewrite <- (size_list_to_set (C := gset node)) by done.
  rewrite <- size_dom. apply subseteq_size. intros u Hu.
  apply elem_of_list_to_set, (sssp_D_names _ _ _ Hinv).
  by apply elem_of_dom.
Qed.

Lemma sssp_neighbors_ok s v Dv k ws : forall st,
  sssp_inv G s st -> v ∈ sS st -> (0 < k)%nat ->
  (forall w, w ∈ ws -> successor G v w) ->
  exists st', sssp_neighbors v Dv (Qc_of_nat k) ws st = Ok st' /\
    sssp_inv G s st' /\ sS st' = sS st.
Proof.
  induction ws as [|w ws IH]; intros st Hinv Hv Hk Hws.
  { by exists st. }
  assert (Hvw : successor G v w) by (apply Hws; left).
  assert (Hw : w ∈ node_names G) by (by eapply successor_is_node).
  assert (Hws' : forall w0, w0 ∈ ws -> successor G v w0).
  { intros w0 Hw0. apply Hws. by right. }
  destruct Hinv as [HPk Hsig HDn HDe HSQ Hcnt HPS].
  destruct (HPk w Hw) as [Pw HPw].
  destruct (Hsig w Hw) as (kw & Hkw & Hpos).
  assert (Hsig' : forall D' : gmap node nat,
    (forall u, u <> w -> D' !! u = sD st !! u) ->
    forall u, u ∈ node_names G ->
    exists k0, <[w := (Qc_of_nat kw + Qc_of_nat k)%Qc]> (sigma st) !! u
               = Some (Qc_of_nat k0) /\
               (is_Some (D' !! u) -> (0 < k0)%nat)).
  { intros D' HD' u Hu. destruct (decide (w = u)) as [<-|Hne].
    - exists (kw + k)%nat. rewrite lookup_insert_eq, Qc_of_nat_add.
      split; [done|lia].
    - rewrite lookup_insert_ne by done. rewrite HD' by done. by apply Hsig. }
  assert (HPS' : forall w0 P0 v0,
    <[w := Pw ++ [v]]> (sP st) !! w0 = Some P0 -> v0 ∈ P0 ->
    v0 ∈ sS st /\ successor G v0 w0).
  { intros w0 P0 v0. destruct (decide (w = w0)) as [<-|Hne].
    - rewrite lookup_insert_eq. intros [= <-] [Hin|Hin]%elem_of_app.
      + by apply (HPS w Pw).
      + apply list_elem_of_singleton in Hin as ->. done.
    - rewrite lookup_insert_ne by done. apply HPS. }
  assert (Hnext : forall st1, sS st1 = sS st -> sssp_inv G s st1 ->
    exists st', sssp_neighbors v Dv (Qc_of_nat k) ws st1 = Ok st' /\
      sssp_inv G s st' /\ sS st' = sS st).
  { intros st1 HS1 Hinv1. rewrite <- HS1. apply IH; [done| |done|done].
    by rewrite HS1. }
  destruct (sD st !! w) as [d|] eqn:EDw.
  - destruct (decide (d = S Dv)) as [->|Hd].
    + rewrite (sssp_neighbors_again _ _ _ _ _ _ _ _ EDw Hkw HPw).
      apply Hnext; [done|]. constructor; simpl; try done.
      * intros u Hu. by apply insert_is_Some_mono, HPk.
      * by apply Hsig'.
    + rewrite (sssp_neighbors_skip _ _ _ _ _ _ _ EDw Hd). by apply IH.
  - rewrite (sssp_neighbors_new _ _ _ _ _ _ _ _ EDw Hkw HPw).
    apply Hnext; [done|]. constructor; simpl.
    + intros u Hu. by apply insert_is_Some_mono, HPk.
    + apply Hsig'. intros u Hne. by rewrite lookup_insert_ne.
    + intros u Hu. destruct (decide (w = u)) as [<-|Hne]; [done|].
      rewrite lookup_insert_ne in Hu by done. by apply HDn.
    + intros u Hu. destruct (decide (w = u)) as [<-|Hne]; [right; eauto|].
      rewrite lookup_insert_ne in Hu by done. by apply HDe.
    + intros u Hu. rewrite app_assoc in Hu.
      apply elem_of_app in Hu as [Hu|Hu].
      * by apply insert_is_Some_mono, HSQ.
      * apply list_elem_of_singleton in Hu as ->.
        rewrite lookup_insert_eq. eauto.
    + rewrite length_app, map_size_insert_None by done. simpl. lia.
    + done.
Qed.

Lemma sssp_loop_ok s fuel : forall st,
  sssp_inv G s st -> (len G < fuel + length (sS st))%nat ->
  exists st', sssp_loop fuel G st = Ok st' /\ sssp_inv G s st'.
Proof.
  induction fuel as [|fuel IH]; intros st Hinv Hfuel.
  { pose proof (sssp_size_le s st Hinv) as Hle.
    pose proof (sssp_count _ _ _ Hinv). simpl in Hfuel. lia. }
  simpl. destruct (sQ st) as [|v Q'] eqn:EQ; [by exists st|].
  destruct Hinv as [HPk Hsig HDn HDe HSQ Hcnt HPS].
  assert (HDv : is_Some (sD st !! v)).
  { apply HSQ. rewrite EQ. apply elem_of_app. right. left. }
  pose proof (HDn v HDv) as Hv.
  destruct HDv as [Dv HDv].
  destruct (Hsig v Hv) as (k & Hk & Hpos).
  destruct (proj2 (wf_adj_key h G v Hwf) Hv) as [nbrs Hadj].
  rewrite HDv, Hk, Hadj.
  destruct (sssp_neighbors_ok s v Dv k nbrs.*1
              (mkSSSP (sS st ++ [v]) (sP st) (sigma st) (sD st) Q'))
    as (st' & Hrun & Hinv' & HS').
  - constructor; simpl; try done.
    + intros u Hu. apply HSQ. rewrite EQ.
      rewrite <- app_assoc in Hu. done.
    + rewrite length_app. rewrite EQ in Hcnt. simpl in *. lia.
    + intros w P_w v0 HP Hv0. destruct (HPS w P_w v0 HP Hv0).
      split; [|done]. apply elem_of_app. by left.
  - simpl. apply elem_of_app. right. left.
  - apply Hpos. by rewrite HDv.
  - intros w Hw. by exists nbrs.
  - rewrite Hrun. apply IH; [done|]. rewrite HS'. simpl.
    rewrite length_app. simpl. lia.
Qed.

Lemma sssp_ok s :
  s ∈ node_names G ->
  exists st, _single_source_shortest_path_basic G s = Ok st /\
    sssp_inv G s st.
Proof.
  intros Hs. apply sssp_loop_ok; [|simpl; lia].
  constructor; simpl.
  - intros u Hu. rewrite fromkeys_elem by done. eauto.
  - intros u Hu. destruct (decide (s = u)) as [<-|Hne].
    + exists 1%nat. rewrite lookup_insert_eq. split; [done|lia].
    + exists 0%nat. rewrite lookup_insert_ne, fromkeys_elem by done.
      split; [done|]. rewrite lookup_singleton_ne by done.
      by intros [? ?].
  - intros u Hu. destruct (decide (s = u)) as [<-|Hne]; [done|].
    rewrite lookup_singleton_ne in Hu by done. by destruct Hu.
  - intros u Hu. destruct (decide (s = u)) as [<-|Hne]; [by left|].
    rewrite lookup_singleton_ne in Hu by done. by destruct Hu.
  - intros u ->%list_elem_of_singleton. rewrite lookup_singleton_eq. eauto.
  - by rewrite map_size_singleton.
  - intros w P_w v. destruct (decide (w ∈ node_names G)) as [Hw|Hw].
    + rewrite fromkeys_elem by done. intros [= <-] Hin.
      by apply elem_of_nil in Hin.
    + by rewrite fromkeys_not_elem.
Qed.

Lemma Qc_of_nat_ne_0 k : (0 < k)%nat -> Qc_of_nat k <> 0%Qc.
Proof.
  intros Hk%Qc_of_nat_lt E. rewrite E in Hk.
  by apply Qclt_not_eq in Hk.
Qed.

Lemma accumulate_preds_ok sig coeff vs : forall delta,
  (forall v, v ∈ vs -> is_Some (delta !! v) /\ is_Some (sig !! v)) ->
  exists delta', accumulate_preds sig coeff vs delta = Ok delta' /\
    (forall u, is_Some (delta !! u) -> is_Some (delta' !! u)).
Proof.
  induction vs as [|v vs IH]; intros delta Hvs; simpl; [by exists delta|].
  destruct (Hvs v) as [[dv Hdv] [sv Hsv]]; [left|]. rewrite Hdv, Hsv.
  destruct (IH (<[v := (dv + sv * coeff)%Qc]> delta))
    as (delta' & Hrun & Hmono).
  { intros v0 Hv0. destruct (Hvs v0) as [? ?]; [by right|].
    split; [by apply insert_is_Some_mono|done]. }
  exists delta'. split; [done|].
  intros u Hu. by apply Hmono, insert_is_Some_mono.
Qed.

Lemma accumulate_preds_other sig coeff u vs : forall delta delta',
  accumulate_preds sig coeff vs delta = Ok delta' -> u ∉ vs ->
  delta' !! u = delta !! u.
Proof.
  induction vs as [|v vs IH]; intros delta delta'; simpl; [by intros [= <-]|].
  destruct (delta !! v) as [dv|] eqn:Edv; [|done].
  destruct (sig !! v) as [sv|]; [|done].
  intros Hrun [Hne Hu]%not_elem_of_cons.
  rewrite (IH _ _ Hrun Hu). by rewrite lookup_insert_ne.
Qed.

Lemma accumulate_loop_ok s P sig (S0 : list node) rS : forall b delta,
  (forall w, w ∈ S0 ->
     (exists k, sig !! w = Some (Qc_of_nat k) /\ (0 < k)%nat) /\
     exists P_w, P !! w = Some P_w /\ forall v, v ∈ P_w -> v ∈ S0) ->
  (forall w, w ∈ S0 -> is_Some (delta !! w)) ->
  (forall w, w ∈ S0 -> is_Some (b !! w)) ->
  (forall w, w ∈ rS -> w ∈ S0) ->
  exists b', accumulate_loop s P sig rS b delta = Ok b' /\
    forall u, is_Some (b' !! u) <-> is_Some (b !! u).
Proof.
  intros b delta HS. revert b delta.
  induction rS as [|w rS IH]; intros b delta Hd Hb HrS; simpl;
    [by exists b|].
  assert (Hw : w ∈ S0) by (apply HrS; left).
  assert (HrS' : forall w0, w0 ∈ rS -> w0 ∈ S0).
  { intros w0 Hw0. apply HrS. by right. }
  destruct (Hd w Hw) as [dw Hdw].
  destruct (HS w Hw) as [(k & Hk & Hpos) (P_w & HPw & HPS)].
  rewrite Hdw, Hk, HPw.
  rewrite bool_decide_eq_false_2 by (by apply Qc_of_nat_ne_0).
  destruct (accumulate_preds_ok sig
              ((1 + dw) / Qc_of_nat k)%Qc P_w delta)
    as (delta' & Hrun & Hmono).
  { intros v Hv. split; [by apply Hd, HPS|].
    destruct (HS v (HPS v Hv)) as [(kv & Hkv & _) _]. rewrite Hkv. eauto. }
  rewrite Hrun.
  assert (Hd' : forall w0, w0 ∈ S0 -> is_Some (delta' !! w0)).
  { intros w0 Hw0. by apply Hmono, Hd. }
  destruct (String.eqb w s); [by apply IH|].
  destruct (Hb w Hw) as [bw Hbw]. destruct (Hd' w Hw) as [dw' Hdw'].
  rewrite Hbw, Hdw'.
  destruct (IH (<[w := (bw + dw')%Qc]> b) delta') as (b' & Hrun' & Hkeys);
    [done| |done|].
  { intros w0 Hw0. by apply insert_is_Some_mono, Hb. }
  exists b'. split; [done|]. intros u. rewrite Hkeys.
  destruct (decide (w = u)) as [<-|Hne].
  - rewrite lookup_insert_eq, Hbw. split; eauto.
  - by rewrite lookup_insert_ne.
Qed.

Lemma elem_of_rev (x : node) l : x ∈ rev l -> x ∈ l.
Proof. rewrite !list_elem_of_In. apply in_rev. Qed.

Lemma accumulate_basic_ok s st b :
  sssp_inv G s st ->
  (forall u, is_Some (b !! u) <-> u ∈ node_names G) ->
  exists b', _accumulate_basic b st s = Ok b' /\
    forall u, is_Some (b' !! u) <-> u ∈ node_names G.
Proof.
  intros [HPk Hsig HDn HDe HSQ Hcnt HPS] Hb.
  assert (HSD : forall w, w ∈ sS st -> is_Some (sD st !! w)).
  { intros w Hw. apply HSQ, elem_of_app. by left. }
  destruct (accumulate_loop_ok s (sP st) (sigma st) (sS st) (rev (sS st))
              b (fromkeys (sS st) 0%Qc)) as (b' & Hrun & Hkeys).
  - intros w Hw. pose proof (HSD w Hw) as HD. pose proof (HDn w HD) as Hn.
    split.
    + destruct (Hsig w Hn) as (k & Hk & Hpos). exists k. auto.
    + destruct (HPk w Hn) as [P_w HPw]. exists P_w. split; [done|].
      intros v Hv. by destruct (HPS w P_w v HPw Hv).
  - intros w Hw. rewrite fromkeys_elem by done. eauto.
  - intros w Hw. by apply Hb, HDn, HSD.
  - intros w. apply elem_of_rev.
  - exists b'. split; [done|]. intros u. by rewrite Hkeys.
Qed.

Lemma betweenness_sources_ok srcs : forall b,
  (forall s, s ∈ srcs -> s ∈ node_names G) ->
  (forall u, is_Some (b !! u) <-> u ∈ node_names G) ->
  exists b', betweenness_sources G srcs b = Ok b' /\
    forall u, is_Some (b' !! u) <-> u ∈ node_names G.
Proof.
  induction srcs as [|s srcs IH]; intros b Hsrcs Hb; simpl; [by exists b|].
  destruct (sssp_ok s) as (st & Hrun & Hinv); [apply Hsrcs; left|].
  rewrite Hrun.
  destruct (accumulate_basic_ok s st b Hinv Hb) as (b1 & Hrun1 & Hb1).
  rewrite Hrun1. apply IH; [|done]. intros s0 Hs0. apply Hsrcs. by right.
Qed.

Lemma fromkeys_keys {V} keys (v : V) u :
  is_Some (fromkeys keys v !! u) <-> u ∈ keys.
Proof.
  destruct (decide (u ∈ keys)) as [Hu|Hu].
  - rewrite fromkeys_elem by done. split; eauto.
  - rewrite fromkeys_not_elem by done. split; [by intros [? ?]|done].
Qed.

Lemma accumulate_loop_zero s P sig u rS : forall b delta b',
  accumulate_loop s P sig rS b delta = Ok b' ->
  b !! u = Some 0%Qc ->
  (u ∈ rS ->
   u = s \/ ((forall w P_w, P !! w = Some P_w -> u ∉ P_w) /\
             delta !! u = Some 0%Qc)) ->
  b' !! u = Some 0%Qc.
Proof.
  induction rS as [|w rS IH]; intros b delta b'; simpl; [by intros [= <-]|].
  destruct (delta !! w) as [dw|] eqn:Edw; [|done].
  destruct (sig !! w) as [sw|]; [|done].
  destruct (P !! w) as [Pw|] eqn:EPw; [|done].
  destruct (bool_decide _); [done|].
  destruct (accumulate_preds _ _ _ _) as [delta'| |] eqn:Epre; [|done|done].
  intros Hrun Hb Hu.
  assert (Hquiet : (forall w0 P0, P !! w0 = Some P0 -> u ∉ P0) ->
                   delta' !! u = delta !! u).
  { intros Hq. apply (accumulate_preds_other _ _ _ _ _ _ Epre).
    by apply (Hq w). }
  assert (Hu' : u ∈ rS ->
    u = s \/ ((forall w0 P0, P !! w0 = Some P0 -> u ∉ P0) /\
              delta' !! u = Some 0%Qc)).
  { intros Hin. destruct Hu as [?|[Hq Hd]]; [by right|by left|].
    right. split; [done|]. by rewrite Hquiet. }
  destruct (String.eqb_spec w s) as [->|Hws]; [by apply (IH _ _ _ Hrun)|].
  destruct (b !! w) as [bw|] eqn:Ebw; [|done].
  destruct (delta' !! w) as [dw'|] eqn:Edw'; [|done].
  apply (IH _ _ _ Hrun); [|done].
  destruct (decide (w = u)) as [->|Hne]; [|by rewrite lookup_insert_ne].
  rewrite lookup_insert_eq. destruct Hu as [?|[Hq Hd]]; [left|done|].
  rewrite Hquiet, Hd in Edw' by done. rewrite Hb in Ebw.
  injection Edw' as <-. injection Ebw as <-. done.
Qed.

Lemma betweenness_sources_zero u srcs : forall b b',
  (forall v, ~ successor G v u) \/ (forall v, ~ successor G u v) ->
  (forall s, s ∈ srcs -> s ∈ node_names G) ->
  b !! u = Some 0%Qc ->
  betweenness_sources G srcs b = Ok b' -> b' !! u = Some 0%Qc.
Proof.
  induction srcs as [|s srcs IH]; intros b b' Hno Hsrcs Hb; simpl;
    [by intros [= <-]|].
  destruct (sssp_ok s) as (st & Hrun & Hinv); [apply Hsrcs; left|].
  rewrite Hrun.
  destruct (_accumulate_basic b st s) as [b1| |] eqn:Eacc; [|done|done].
  apply IH; [done| |]. { intros s0 Hs0. apply Hsrcs. by right. }
  unfold _accumulate_basic in Eacc.
  apply (accumulate_loop_zero _ _ _ u _ _ _ _ Eacc Hb).
  intros Hin%elem_of_rev.
  assert (HD : is_Some (sD st !! u)).
  { apply (sssp_SQ_D _ _ _ Hinv), elem_of_app. by left. }
  destruct Hno as [Hno|Hno].
  - left. destruct (sssp_D_entered _ _ _ Hinv u HD) as [?|[v Hv]]; [done|].
    by destruct (Hno v).
  - right. split; [|by apply fromkeys_elem].
    intros w P_w HP Hu. destruct (sssp_P_S _ _ _ Hinv w P_w u HP Hu) as [_ Hs].
    by destruct (Hno w).
Qed.

Lemma betweenness_ok :
  exists b, betweenness_centrality G = Ok b /\
    forall u, is_Some (b !! u) <-> u ∈ node_names G.
Proof.
  unfold betweenness_centrality.
  destruct (betweenness_sources_ok (node_names G)
              (fromkeys (node_names G) 0%Qc)) as (b & Hrun & Hb);
    [done|apply fromkeys_keys|].
  rewrite Hrun. exists (_rescale b (len G)). split; [done|].
  intros u. rewrite <- Hb. unfold _rescale.
  destruct (len G <=? 2)%nat; [done|].
  rewrite lookup_fmap. apply fmap_is_Some.
Qed.

Lemma betweenness_zero u :
  u ∈ node_names G ->
  (forall v, ~ successor G v u) \/ (forall v, ~ successor G u v) ->
  exists b, betweenness_centrality G = Ok b /\ b !! u = Some 0%Qc.
Proof.
  intros Hu Hno. unfold betweenness_centrality.
  destruct (betweenness_sources_ok (node_names G)
              (fromkeys (node_names G) 0%Qc)) as (b & Hrun & Hb);
    [done|apply fromkeys_keys|].
  rewrite Hrun. exists (_rescale b (len G)). split; [done|].
  apply (betweenness_sources_zero u) in Hrun;
    [|done|done|by apply fromkeys_elem].
  unfold _rescale. destruct (len G <=? 2)%nat; [done|].
  rewrite lookup_fmap, Hrun. simpl. f_equal. ring.
Qed.
End Betweenness.

(** X15.  On a graph whose tables are in order the betweenness scores are
    always computed: the computation cannot fail, neither on a missing
    entry nor on a division by a zero path count, and it gives a score to
    every task of the graph and to nothing else. *)
Theorem betweenness_scores_every_task h G :
  wf_graph h G ->
  exists b, betweenness_centrality G = Ok b /\
    forall u, is_Some (b !! u) <-> u ∈ node_names G.
Proof. intros Hwf. by apply (betweenness_ok h). Qed.

(** X15 on the script's graph. *)
Lemma betweenness_scores_every_task_witness :
  exists b, betweenness_centrality G_task = Ok b /\
    forall u, is_Some (b !! u) <-> u ∈ node_names G_task.
Proof.
  apply (betweenness_scores_every_task h_task).
  apply (bool_decide_unpack _). vm_compute. reflexivity.
Defined.

(** X16.  A task that no edge enters, or that no edge leaves, has
    betweenness exactly 0: it lies strictly between no two other tasks.
    In a project graph these are the start and the end task. *)
Theorem endpoint_betweenness_zero h G u :
  wf_graph h G -> u ∈ node_names G ->
  (forall v, ~ successor G v u) \/ (forall v, ~ successor G u v) ->
  exists b, betweenness_centrality G = Ok b /\ b !! u = Some 0%Qc.
Proof. intros Hwf. by apply (betweenness_zero h). Qed.

(** X16 on the script's graph, at its end task. *)
Lemma endpoint_betweenness_zero_witness :
  exists b, betweenness_centrality G_task = Ok b /\ b !! "End" = Some 0%Qc.
Proof.
  apply (endpoint_betweenness_zero h_task G_task "End").
  - apply (bool_decide_unpack _). vm_compute. reflexivity.
  - apply (bool_decide_unpack _). vm_compute. reflexivity.
  - right. intros v (nbrs & Ha & Hv). vm_compute in Ha.
    injection Ha as <-. by apply elem_of_nil in Hv.
Defined.
